(** * MonadArena: card engine, poker betting, auction, combat, and the
    agents and arena around them

    A shallow embedding of [games/poker.py], [games/auction.py],
    [games/rpg_battle.py], of the response validation of
    [agent/strategy_engine.py], of [agent/bankroll.py] and
    [agent/opponent_model.py], and of the scheduling of [arena/manager.py],
    [arena/matchmaker.py] and [arena/tournament.py], with the properties of
    the program stated and proved over it.

    Conventions of the embedding:
    - Python [int] is [Z]; Python [float] amounts (stacks, pot, bids) are
      idealised as exact rationals [Q]. Statements compare amounts the way the
      program does (the same operations in the same order, [min], [max] and
      comparisons), which rounding does not disturb; the few that add up
      amounts in another order say "in exact arithmetic";
    - a [dict] keyed by a player address is a [gmap string _], with the list
      of its keys beside it where the order of the dictionary matters;
    - the Decision Provider and [random] are inputs of the model: a function
      of the decision index for the provider, an explicit argument for every
      random draw. *)

From Stdlib Require Import ZArith QArith Qminmax Qround Lqa Lia List Permutation.
From stdpp Require Import base decidable option list strings gmap fin_maps sorting.

(** ** Python helpers shared by the three simulators *)

Module Py.

Local Open Scope Z_scope.

(** [sorted(xs, key=..., reverse=True)]: a stable descending insertion sort;
    [geb x y] reads "the key of [x] is at least the key of [y]". *)
Fixpoint insert_desc {A} (geb : A -> A -> bool) (x : A) (l : list A) : list A :=
  match l with
  | [] => [x]
  | y :: t => if geb x y then x :: y :: t else y :: insert_desc geb x t
  end.

Definition sorted_desc {A} (geb : A -> A -> bool) (l : list A) : list A :=
  foldr (insert_desc geb) [] l.

(** [sorted(values, reverse=True)] on integers. *)
Definition sorted_rev (l : list Z) : list Z := sorted_desc Z.geb l.

(** [a > b] on Python lists of integers: the first differing position
    decides; a proper prefix is smaller. *)
Fixpoint list_gtb (a b : list Z) : bool :=
  match a, b with
  | [], _ => false
  | _ :: _, [] => true
  | x :: a', y :: b' => if x =? y then list_gtb a' b' else x >? y
  end.

(** [itertools.combinations(l, k)], in the order Python yields them. *)
Fixpoint combinations {A} (l : list A) (k : nat) : list (list A) :=
  match k with
  | O => [[]]
  | S k' =>
      match l with
      | [] => []
      | x :: t => map (cons x) (combinations t k') ++ combinations t (S k')
      end
  end.

(** [sum(xs)]: Python adds left to right, starting from 0. *)
Definition sum (l : list Z) : Z := fold_left Z.add l 0.

(** [max(a, b)] and [min(a, b)] on numbers, as Python evaluates them: the
    first argument is kept unless the second is strictly better. *)
Definition Qltb (a b : Q) : bool := negb (Qle_bool b a).
Definition maxq (a b : Q) : Q := if Qltb a b then b else a.
Definition minq (a b : Q) : Q := if Qltb b a then b else a.

(** [d.get(k, 0)] and [d[k]] on the dictionaries of amounts and flags (every
    [d[k]] of the simulators reads a key written when the dictionary was
    built). *)
Definition getq (d : gmap string Q) (k : string) : Q := default 0%Q (d !! k).
Definition getb (d : gmap string bool) (k : string) : bool := default false (d !! k).

(** Every amount of the dictionary is non-negative. *)
Definition nonneg (m : gmap string Q) : Prop := map_Forall (fun _ q => (0 <= q)%Q) m.

(** The binomial coefficient, by Pascal's rule. *)
Fixpoint choose (n k : nat) : nat :=
  match k with
  | O => 1%nat
  | S k' =>
      match n with
      | O => O
      | S n' => (choose n' k' + choose n' (S k'))%nat
      end
  end.

(** *** Properties *)

Lemma Qltb_lt a b : Qltb a b = true <-> (a < b)%Q.
Proof.
  unfold Qltb. rewrite negb_true_iff, <- not_true_iff_false, Qle_bool_iff.
  split; [apply Qnot_le_lt | apply Qlt_not_le].
Qed.

Lemma maxq_spec a b :
  ((a < b)%Q /\ maxq a b = b) \/ ((b <= a)%Q /\ maxq a b = a).
Proof.
  unfold maxq. destruct (Qltb a b) eqn:E.
  - left. split; [by apply Qltb_lt | done].
  - right. split; [|done]. apply Qnot_lt_le. rewrite <- Qltb_lt. congruence.
Qed.

Lemma minq_spec a b :
  ((b < a)%Q /\ minq a b = b) \/ ((a <= b)%Q /\ minq a b = a).
Proof.
  unfold minq. destruct (Qltb b a) eqn:E.
  - left. split; [by apply Qltb_lt | done].
  - right. split; [|done]. apply Qnot_lt_le. rewrite <- Qltb_lt. congruence.
Qed.

Lemma getq_nonneg m p : nonneg m -> (0 <= getq m p)%Q.
Proof.
  intros H. unfold getq. destruct (m !! p) as [q|] eqn:E; simpl; [|lra].
  exact (H p q E).
Qed.

Lemma getq_insert (m : gmap string Q) p q : getq (<[p := q]> m) p = q.
Proof. unfold getq. by rewrite lookup_insert_eq. Qed.


Lemma Qle_bool_false a b : Qle_bool a b = false -> (b < a)%Q.
Proof.
  intros H. apply Qnot_le_lt. rewrite <- Qle_bool_iff. congruence.
Qed.

Lemma getq_insert_ne (m : gmap string Q) p p' q :
  p <> p' -> getq (<[p := q]> m) p' = getq m p'.
Proof. intros H. unfold getq. by rewrite lookup_insert_ne. Qed.

Lemma Qltb_ge a b : Qltb a b = false -> (b <= a)%Q.
Proof. intros H. apply Qnot_lt_le. rewrite <- Qltb_lt. congruence. Qed.


End Py.

(** ** games/poker.py: cards and hand evaluation *)

Module CardEngine.

Import Py.
Local Open Scope Z_scope.

Inductive Suit := Hearts | Diamonds | Clubs | Spades.
Inductive Rank := R2 | R3 | R4 | R5 | R6 | R7 | R8 | R9 | RT | RJ | RQ | RK | RA.

#[global] Instance Suit_eq_dec : EqDecision Suit.
Proof. solve_decision. Defined.
#[global] Instance Rank_eq_dec : EqDecision Rank.
Proof. solve_decision. Defined.

Definition SUITS : list Suit := [Hearts; Diamonds; Clubs; Spades].
Definition RANKS : list Rank := [R2; R3; R4; R5; R6; R7; R8; R9; RT; RJ; RQ; RK; RA].

(** [RANK_VALUES = {r: i for i, r in enumerate(RANKS, 2)}] *)
Definition RANK_VALUES (r : Rank) : Z :=
  match r with
  | R2 => 2 | R3 => 3 | R4 => 4 | R5 => 5 | R6 => 6 | R7 => 7 | R8 => 8
  | R9 => 9 | RT => 10 | RJ => 11 | RQ => 12 | RK => 13 | RA => 14
  end.

Inductive HandName :=
  | high_card | pair | two_pair | three_of_a_kind | straight | flush
  | full_house | four_of_a_kind | straight_flush | royal_flush.

Definition HAND_RANKINGS (h : HandName) : Z :=
  match h with
  | high_card => 0 | pair => 1 | two_pair => 2 | three_of_a_kind => 3
  | straight => 4 | flush => 5 | full_house => 6 | four_of_a_kind => 7
  | straight_flush => 8 | royal_flush => 9
  end.

Record Card := mkCard { rank : Rank; suit : Suit }.

#[global] Instance Card_eq_dec : EqDecision Card.
Proof. solve_decision. Defined.

Definition value (c : Card) : Z := RANK_VALUES (rank c).

(** A hand score is the Python tuple [(hand_rank, tiebreaker_values)]. *)
Definition HandScore : Type := Z * list Z.

(** [_is_straight(values)] *)
Definition _is_straight (values : list Z) : bool :=
  let unique := sorted_rev (remove_dups values) in
  if (length unique <? 5)%nat then false
  else if nth 0 unique 0 - nth 4 unique 0 =? 4 then true
  else if bool_decide (unique = [14; 5; 4; 3; 2]) then true
  else false.

(** The loop [for v in values: freq[v] = freq.get(v, 0) + 1]. *)
Definition build_freq (values : list Z) : gmap Z Z :=
  fold_left (fun freq v => <[v := default 0 (freq !! v) + 1]> freq) values ∅.

(** The sort key [(x[1], x[0])] of [ranked], compared as Python tuples. *)
Definition item_geb (x y : Z * Z) : bool :=
  (x.2 >? y.2) || ((x.2 =? y.2) && (x.1 >=? y.1)).

(** The local [is_flush = len(set(suits)) == 1] of [_evaluate_five]. *)
Definition is_flush_of (suits : list Suit) : bool :=
  (length (remove_dups suits) =? 1)%nat.

(** [_evaluate_five(cards)] *)
Definition _evaluate_five (cards : list Card) : HandScore :=
  let values := sorted_rev (map value cards) in
  let suits := map suit cards in
  let is_flush := is_flush_of suits in
  let is_straight := _is_straight values in
  let freq := build_freq values in
  let counts := sorted_rev (map snd (map_to_list freq)) in
  let ranked := sorted_desc item_geb (map_to_list freq) in
  let tiebreak := map fst ranked in
  if is_flush && is_straight then
    if nth 0 values 0 =? 14 then (HAND_RANKINGS royal_flush, values)
    else (HAND_RANKINGS straight_flush, values)
  else if bool_decide (counts = [4; 1]) then (HAND_RANKINGS four_of_a_kind, tiebreak)
  else if bool_decide (counts = [3; 2]) then (HAND_RANKINGS full_house, tiebreak)
  else if is_flush then (HAND_RANKINGS flush, values)
  else if is_straight then (HAND_RANKINGS straight, values)
  else if bool_decide (counts = [3; 1; 1]) then (HAND_RANKINGS three_of_a_kind, tiebreak)
  else if bool_decide (counts = [2; 2; 1]) then (HAND_RANKINGS two_pair, tiebreak)
  else if bool_decide (counts = [2; 1; 1; 1]) then (HAND_RANKINGS pair, tiebreak)
  else (HAND_RANKINGS high_card, values).

(** The test of the loop of [evaluate_hand]:
    [rank > best_rank or (rank == best_rank and tiebreak > best_tiebreak)]. *)
Definition beats (s best : HandScore) : bool :=
  (s.1 >? best.1) || ((s.1 =? best.1) && list_gtb s.2 best.2).

(** [evaluate_hand(cards)] *)
Definition evaluate_hand (cards : list Card) : HandScore :=
  if (length cards <? 5)%nat then
    (HAND_RANKINGS high_card, sorted_rev (map value cards))
  else
    fold_left
      (fun best combo =>
         let s := _evaluate_five combo in
         if beats s best then s else best)
      (combinations cards 5) (-1, []).

(** *** The HandScore order, as the specification words it *)

(** Lexicographic order on tiebreak sequences, most significant first. *)
Inductive lex_lt : list Z -> list Z -> Prop :=
  | lex_lt_nil y b : lex_lt [] (y :: b)
  | lex_lt_head x y a b : x < y -> lex_lt (x :: a) (y :: b)
  | lex_lt_tail x a b : lex_lt a b -> lex_lt (x :: a) (x :: b).

(** Compare the category first, then the tiebreak sequences. *)
Definition score_lt (s1 s2 : HandScore) : Prop :=
  s1.1 < s2.1 \/ (s1.1 = s2.1 /\ lex_lt s1.2 s2.2).

(** [r] is the maximum of [scores]: it is one of them and every other one
    is strictly below it. *)
Definition is_maximum (r : HandScore) (scores : list HandScore) : Prop :=
  r ∈ scores /\ forall s, s ∈ scores -> s = r \/ score_lt s r.

(** The scan of [evaluate_hand], from an arbitrary running best. *)
Definition scan (best : HandScore) (combos : list (list Card)) : HandScore :=
  fold_left
    (fun best combo =>
       let s := _evaluate_five combo in
       if beats s best then s else best)
    combos best.

(** *** Hands used as concrete inputs *)

Definition seven_card_example : list Card :=
  [mkCard RA Hearts; mkCard RA Diamonds; mkCard RA Clubs; mkCard RK Spades;
   mkCard RK Hearts; mkCard R3 Diamonds; mkCard R7 Clubs].

Definition wheel_offsuit : list Card :=
  [mkCard RA Hearts; mkCard R5 Diamonds; mkCard R4 Clubs; mkCard R3 Spades;
   mkCard R2 Hearts].

Definition nine_high_offsuit : list Card :=
  [mkCard R9 Hearts; mkCard R8 Diamonds; mkCard R7 Clubs; mkCard R6 Spades;
   mkCard R5 Hearts].

Definition wheel_suited : list Card :=
  [mkCard RA Hearts; mkCard R5 Hearts; mkCard R4 Hearts; mkCard R3 Hearts;
   mkCard R2 Hearts].

Definition nine_high_suited : list Card :=
  [mkCard R9 Spades; mkCard R8 Spades; mkCard R7 Spades; mkCard R6 Spades;
   mkCard R5 Spades].

(** *** Properties *)

#[local] Hint Constructors lex_lt : core.

Lemma lex_lt_irrefl a : ~ lex_lt a a.
Proof. induction a as [|x a IH]; inversion 1; subst; [lia | auto]. Qed.

Lemma lex_lt_trans a b c : lex_lt a b -> lex_lt b c -> lex_lt a c.
Proof.
  intros Hab; revert c.
  induction Hab; inversion 1; subst; auto.
  - apply lex_lt_head; lia.
Qed.

Lemma lex_lt_total a b : lex_lt a b \/ a = b \/ lex_lt b a.
Proof.
  revert b; induction a as [|x a IH]; intros [|y b]; auto.
  destruct (Z.lt_trichotomy x y) as [?|[->|?]]; auto.
  destruct (IH b) as [?|[->|?]]; auto.
Qed.

Lemma list_gtb_lex a b : list_gtb a b = true <-> lex_lt b a.
Proof.
  revert b; induction a as [|x a IH]; intros [|y b]; simpl.
  - split; [discriminate | inversion 1].
  - split; [discriminate | inversion 1].
  - split; auto.
  - destruct (Z.eqb_spec x y) as [->|Hne].
    + rewrite IH. split; auto.
      inversion 1; subst; [lia | auto].
    + rewrite Z.gtb_ltb, Z.ltb_lt. split; auto.
      inversion 1; subst; [auto | congruence].
Qed.

Lemma score_lt_trans s1 s2 s3 : score_lt s1 s2 -> score_lt s2 s3 -> score_lt s1 s3.
Proof.
  unfold score_lt; intros [?|[? ?]] [?|[? ?]]; try (left; lia).
  right; split; [lia | eauto using lex_lt_trans].
Qed.

Lemma score_lt_total s1 s2 : score_lt s1 s2 \/ s1 = s2 \/ score_lt s2 s1.
Proof.
  destruct s1 as [c1 t1], s2 as [c2 t2]; unfold score_lt; simpl.
  destruct (Z.lt_trichotomy c1 c2) as [?|[->|?]]; auto.
  destruct (lex_lt_total t1 t2) as [?|[->|?]]; auto.
Qed.

Lemma score_lt_irrefl s : ~ score_lt s s.
Proof. intros [?|[_ ?]]; [lia | eapply lex_lt_irrefl; eauto]. Qed.

(** The test of the loop decides the specification's order. *)
Lemma beats_score_lt s best : beats s best = true <-> score_lt best s.
Proof.
  unfold beats, score_lt.
  rewrite orb_true_iff, andb_true_iff, Z.gtb_ltb, Z.ltb_lt, Z.eqb_eq, list_gtb_lex.
  intuition.
Qed.

Lemma beats_false s best : beats s best = false -> s = best \/ score_lt s best.
Proof.
  intros Hb. destruct (score_lt_total s best) as [?|[?|H]]; auto.
  apply beats_score_lt in H. congruence.
Qed.

(** The scan returns the running best or a scanned score, and nothing it
    has seen is above the result. *)
Lemma scan_spec combos : forall best,
  let r := scan best combos in
  (r = best \/ r ∈ map _evaluate_five combos) /\
  (best = r \/ score_lt best r) /\
  (forall s, s ∈ map _evaluate_five combos -> s = r \/ score_lt s r).
Proof.
  induction combos as [|c combos IH]; intros best; simpl.
  - split; [auto|]. split; [auto|]. intros s Hs. inversion Hs.
  - set (best' := if beats (_evaluate_five c) best then _evaluate_five c else best).
    destruct (IH best') as (Hin & Hge & Hall).
    fold (scan best' combos) in *.
    assert (Hb : (best = best' \/ score_lt best best') /\
                 (_evaluate_five c = best' \/ score_lt (_evaluate_five c) best') /\
                 (best' = best \/ best' = _evaluate_five c)).
    { subst best'. destruct (beats _ best) eqn:E.
      - apply beats_score_lt in E. auto.
      - apply beats_false in E. auto. }
    destruct Hb as (Hb1 & Hb2 & Hb3).
    assert (Hle : forall x, x = best' \/ score_lt x best' ->
                  x = scan best' combos \/ score_lt x (scan best' combos)).
    { intros x [->|Hx]; [auto|].
      destruct Hge as [<-|Hge]; [auto|]. right. eauto using score_lt_trans. }
    split; [|split].
    + destruct Hin as [->|Hin].
      * destruct Hb3 as [->| ->]; [auto|]. right. constructor.
      * right. constructor. exact Hin.
    + auto.
    + intros s Hs. apply elem_of_cons in Hs as [->|Hs]; auto.
Qed.

Lemma _evaluate_five_rank_nonneg cards : 0 <= (_evaluate_five cards).1.
Proof.
  unfold _evaluate_five.
  repeat match goal with |- context [if ?b then _ else _] => destruct b end;
    simpl; lia.
Qed.

(** *** [itertools.combinations] enumerates the k-element subsequences *)

Lemma elem_of_combinations {A} (l : list A) : forall k c,
  c ∈ combinations l k <-> c `sublist_of` l /\ length c = k.
Proof.
  induction l as [|x l IH]; intros [|k] c; simpl.
  - rewrite list_elem_of_singleton. split.
    + intros ->. split; [constructor | reflexivity].
    + intros [_ Hlen]. destruct c; [reflexivity | discriminate].
  - split; [inversion 1|]. intros [Hs Hlen].
    apply sublist_nil_r in Hs. subst. discriminate.
  - rewrite list_elem_of_singleton. split.
    + intros ->. split; [apply sublist_nil_l | reflexivity].
    + intros [_ Hlen]. destruct c; [reflexivity | discriminate].
  - rewrite elem_of_app. split.
    + intros [Hin|Hin].
      * apply list_elem_of_In, in_map_iff in Hin.
        destruct Hin as (c' & Hc & Hin). subst c.
        apply list_elem_of_In in Hin. apply IH in Hin. destruct Hin as [Hs Hlen].
        split; [by apply sublist_skip | simpl; congruence].
      * apply IH in Hin as [Hs Hlen]. split; [by apply sublist_cons | done].
    + intros [Hs Hlen]. inversion Hs as [|y c' l' Hs'|y c' l' Hs']; subst.
      * left. apply list_elem_of_In, in_map_iff. exists c'. split; [done|].
        apply list_elem_of_In, IH. split; [done | simpl in Hlen; congruence].
      * right. apply IH. done.
Qed.

Lemma length_combinations {A} (l : list A) : forall k,
  length (combinations l k) = choose (length l) k.
Proof.
  induction l as [|x l IH]; intros [|k]; simpl; try reflexivity.
  rewrite length_app, length_map, !IH. reflexivity.
Qed.

(** *** The cases of tests/test_poker.py, on the model *)

Example test_hand_categories :
  (evaluate_hand [mkCard R2 Hearts; mkCard R5 Diamonds; mkCard R7 Clubs;
                  mkCard R9 Spades; mkCard RJ Hearts]).1 = HAND_RANKINGS high_card /\
  (evaluate_hand [mkCard RA Hearts; mkCard RA Diamonds; mkCard R5 Clubs;
                  mkCard R9 Spades; mkCard RJ Hearts]).1 = HAND_RANKINGS pair /\
  (evaluate_hand [mkCard RA Hearts; mkCard RA Diamonds; mkCard RK Clubs;
                  mkCard RK Spades; mkCard RJ Hearts]).1 = HAND_RANKINGS two_pair /\
  (evaluate_hand [mkCard RA Hearts; mkCard RA Diamonds; mkCard RA Clubs;
                  mkCard R9 Spades; mkCard RJ Hearts]).1 = HAND_RANKINGS three_of_a_kind /\
  (evaluate_hand nine_high_offsuit).1 = HAND_RANKINGS straight /\
  (evaluate_hand [mkCard R2 Hearts; mkCard R5 Hearts; mkCard R7 Hearts;
                  mkCard R9 Hearts; mkCard RJ Hearts]).1 = HAND_RANKINGS flush /\
  evaluate_hand [mkCard RA Hearts; mkCard RA Diamonds; mkCard RA Clubs;
                 mkCard RK Spades; mkCard RK Hearts] = (HAND_RANKINGS full_house, [14; 13]) /\
  (evaluate_hand [mkCard RA Hearts; mkCard RA Diamonds; mkCard RA Clubs;
                  mkCard RA Spades; mkCard RK Hearts]).1 = HAND_RANKINGS four_of_a_kind /\
  (evaluate_hand nine_high_suited).1 = HAND_RANKINGS straight_flush /\
  (evaluate_hand [mkCard RT Hearts; mkCard RJ Hearts; mkCard RQ Hearts;
                  mkCard RK Hearts; mkCard RA Hearts]).1 = HAND_RANKINGS royal_flush /\
  (evaluate_hand seven_card_example).1 = HAND_RANKINGS full_house.
Proof. vm_compute. repeat split. Qed.

Example test_is_straight :
  _is_straight [9; 8; 7; 6; 5] = true /\ _is_straight [14; 13; 12; 11; 10] = true /\
  _is_straight [14; 5; 4; 3; 2] = true /\ _is_straight [14; 12; 10; 8; 6] = false.
Proof. vm_compute. repeat split. Qed.

(** C1: for every input of 6 or 7 cards, [evaluate_hand] returns the
    maximum, under the HandScore order (category first, then the tiebreak
    sequences lexicographically), of the scores [_evaluate_five] gives to the
    five-card subsets of the input; the subsets scanned are exactly the
    five-element subsequences of the input, C(n,5) of them. *)
Theorem evaluate_hand_is_maximum_over_five_card_subsets (cards : list Card) :
  length cards = 6%nat \/ length cards = 7%nat ->
  is_maximum (evaluate_hand cards) (map _evaluate_five (combinations cards 5)) /\
  (forall c, c ∈ combinations cards 5 <-> c `sublist_of` cards /\ length c = 5%nat) /\
  length (combinations cards 5) = choose (length cards) 5.
Proof.
  intros Hlen.
  split; [|split; [apply elem_of_combinations | apply length_combinations]].
  assert (Hne : exists c combos, combinations cards 5 = c :: combos).
  { pose proof (length_combinations cards 5) as Hl.
    destruct (combinations cards 5) as [|c combos]; [|eauto].
    destruct Hlen as [E|E]; rewrite E in Hl; vm_compute in Hl; discriminate. }
  assert (evaluate_hand cards = scan (-1, []) (combinations cards 5)) as ->.
  { unfold evaluate_hand, scan.
    destruct Hlen as [E|E]; rewrite E; reflexivity. }
  destruct (scan_spec (combinations cards 5) (-1, [])) as (Hin & _ & Hall).
  split; [|exact Hall].
  destruct Hin as [Hr|Hin]; [|exact Hin].
  destruct Hne as (c & combos & Hc).
  pose proof (_evaluate_five_rank_nonneg c) as Hnn.
  destruct (Hall (_evaluate_five c)) as [Hs|Hs].
  - rewrite Hc. simpl. constructor.
  - rewrite Hr in Hs. rewrite Hs in Hnn. simpl in Hnn. lia.
  - rewrite Hr in Hs. destruct Hs as [Hs|[Hs _]]; simpl in Hs; lia.
Qed.

Lemma evaluate_hand_is_maximum_witness :
  is_maximum (evaluate_hand seven_card_example)
    (map _evaluate_five (combinations seven_card_example 5)) /\
  (forall c, c ∈ combinations seven_card_example 5 <->
             c `sublist_of` seven_card_example /\ length c = 5%nat) /\
  length (combinations seven_card_example 5) = choose (length seven_card_example) 5.
Proof.
  apply (evaluate_hand_is_maximum_over_five_card_subsets seven_card_example).
  right. reflexivity.
Defined.

(** C2 (what the code does): every hand whose values are [14,5,4,3,2] is
    recognised as a straight, but it is scored with the ace high: off suit
    it gets [(4, [14,5,4,3,2])], suited it is classed as a royal flush
    [(9, [14,5,4,3,2])]; with the same flush status, the nine-high straight
    [9,8,7,6,5] scores strictly BELOW it, not above. *)
Theorem wheel_scores_above_nine_high_straight (w n : list Card) :
  sorted_rev (map value w) = [14; 5; 4; 3; 2] ->
  sorted_rev (map value n) = [9; 8; 7; 6; 5] ->
  is_flush_of (map suit w) = is_flush_of (map suit n) ->
  _is_straight (sorted_rev (map value w)) = true /\
  _evaluate_five w =
    ((if is_flush_of (map suit w) then HAND_RANKINGS royal_flush
      else HAND_RANKINGS straight), [14; 5; 4; 3; 2]) /\
  _evaluate_five n =
    ((if is_flush_of (map suit n) then HAND_RANKINGS straight_flush
      else HAND_RANKINGS straight), [9; 8; 7; 6; 5]) /\
  score_lt (_evaluate_five n) (_evaluate_five w).
Proof.
  intros Hw Hn Hf.
  assert (Ew : _evaluate_five w =
    ((if is_flush_of (map suit w) then HAND_RANKINGS royal_flush
      else HAND_RANKINGS straight), [14; 5; 4; 3; 2])).
  { unfold _evaluate_five. rewrite Hw.
    destruct (is_flush_of (map suit w)); vm_compute; reflexivity. }
  assert (En : _evaluate_five n =
    ((if is_flush_of (map suit n) then HAND_RANKINGS straight_flush
      else HAND_RANKINGS straight), [9; 8; 7; 6; 5])).
  { unfold _evaluate_five. rewrite Hn.
    destruct (is_flush_of (map suit n)); vm_compute; reflexivity. }
  split; [rewrite Hw; vm_compute; reflexivity|].
  split; [exact Ew|]. split; [exact En|].
  rewrite Ew, En, Hf. unfold score_lt.
  destruct (is_flush_of (map suit n)); simpl.
  - left. lia.
  - right. split; [reflexivity|]. apply lex_lt_head. lia.
Qed.

Lemma wheel_scores_above_nine_high_witness :
  _evaluate_five wheel_offsuit = (4, [14; 5; 4; 3; 2]) /\
  _evaluate_five nine_high_offsuit = (4, [9; 8; 7; 6; 5]) /\
  score_lt (_evaluate_five nine_high_offsuit) (_evaluate_five wheel_offsuit) /\
  _evaluate_five wheel_suited = (9, [14; 5; 4; 3; 2]) /\
  _evaluate_five nine_high_suited = (8, [9; 8; 7; 6; 5]) /\
  score_lt (_evaluate_five nine_high_suited) (_evaluate_five wheel_suited).
Proof.
  pose proof (wheel_scores_above_nine_high_straight wheel_offsuit nine_high_offsuit
                eq_refl eq_refl eq_refl) as (_ & E1 & E2 & H1).
  pose proof (wheel_scores_above_nine_high_straight wheel_suited nine_high_suited
                eq_refl eq_refl eq_refl) as (_ & E3 & E4 & H2).
  repeat split; assumption.
Defined.

(** *** The order of the cards, and more cards *)

Lemma insert_desc_comm (x y : Z) (l : list Z) :
  insert_desc Z.geb x (insert_desc Z.geb y l) = insert_desc Z.geb y (insert_desc Z.geb x l).
Proof.
  induction l as [|z l IH]; simpl.
  - destruct (Z.geb_spec x y), (Z.geb_spec y x); try reflexivity; try lia.
    assert (x = y) by lia. by subst.
  - destruct (Z.geb_spec y z), (Z.geb_spec x z); simpl;
      repeat match goal with
      | |- context [Z.geb ?a ?b] => destruct (Z.geb_spec a b); simpl
      end; try reflexivity; try lia; try (by rewrite IH).
    assert (x = y) by lia. by subst.
Qed.

Lemma sorted_rev_Permutation (l1 l2 : list Z) :
  l1 ≡ₚ l2 -> sorted_rev l1 = sorted_rev l2.
Proof.
  unfold sorted_rev, sorted_desc.
  induction 1 as [|x l1 l2 _ IH|x y l|l1 l2 l3 _ IH1 _ IH2]; simpl.
  - reflexivity.
  - by rewrite IH.
  - apply insert_desc_comm.
  - by rewrite IH1.
Qed.

Lemma is_flush_of_Permutation (s1 s2 : list Suit) :
  s1 ≡ₚ s2 -> is_flush_of s1 = is_flush_of s2.
Proof.
  intros H. unfold is_flush_of. f_equal. apply Permutation_length.
  apply NoDup_Permutation; try apply NoDup_remove_dups.
  intros x. rewrite !elem_of_remove_dups. by rewrite H.
Qed.

Lemma _evaluate_five_Permutation (c1 c2 : list Card) :
  c1 ≡ₚ c2 -> _evaluate_five c1 = _evaluate_five c2.
Proof.
  intros H. unfold _evaluate_five.
  rewrite (sorted_rev_Permutation (map value c1) (map value c2)) by (by apply Permutation_map).
  rewrite (is_flush_of_Permutation (map suit c1) (map suit c2)) by (by apply Permutation_map).
  reflexivity.
Qed.

Lemma choose_pos n : forall k, (k <= n)%nat -> (0 < choose n k)%nat.
Proof.
  induction n as [|n IH]; intros [|k] Hk; simpl; try lia.
  specialize (IH k ltac:(lia)). lia.
Qed.

Lemma evaluate_hand_maximum (cards : list Card) :
  (5 <= length cards)%nat ->
  is_maximum (evaluate_hand cards) (map _evaluate_five (combinations cards 5)).
Proof.
  intros Hlen.
  assert (Hne : exists c combos, combinations cards 5 = c :: combos).
  { pose proof (length_combinations cards 5) as Hl.
    pose proof (choose_pos (length cards) 5 Hlen).
    destruct (combinations cards 5) as [|c combos]; [simpl in Hl; lia | eauto]. }
  assert (evaluate_hand cards = scan (-1, []) (combinations cards 5)) as ->.
  { unfold evaluate_hand, scan.
    destruct (Nat.ltb_spec (length cards) 5); [lia | reflexivity]. }
  destruct (scan_spec (combinations cards 5) (-1, [])) as (Hin & _ & Hall).
  split; [|exact Hall].
  destruct Hin as [Hr|Hin]; [|exact Hin].
  destruct Hne as (c & combos & Hc).
  pose proof (_evaluate_five_rank_nonneg c) as Hnn.
  destruct (Hall (_evaluate_five c)) as [Hs|Hs].
  - rewrite Hc. simpl. constructor.
  - rewrite Hr in Hs. rewrite Hs in Hnn. simpl in Hnn. lia.
  - rewrite Hr in Hs. destruct Hs as [Hs|[Hs _]]; simpl in Hs; lia.
Qed.

Lemma is_maximum_unique r1 r2 s1 s2 :
  is_maximum r1 s1 -> is_maximum r2 s2 ->
  (forall s, s ∈ s1 -> s ∈ s2) -> (forall s, s ∈ s2 -> s ∈ s1) -> r1 = r2.
Proof.
  intros [Hin1 Hmax1] [Hin2 Hmax2] H12 H21.
  destruct (Hmax2 r1 (H12 _ Hin1)) as [?|Hlt1]; [done|].
  destruct (Hmax1 r2 (H21 _ Hin2)) as [?|Hlt2]; [done|].
  destruct (score_lt_irrefl r1). eapply score_lt_trans; eauto.
Qed.

Lemma is_maximum_mono r1 r2 s1 s2 :
  is_maximum r1 s1 -> is_maximum r2 s2 ->
  (forall s, s ∈ s1 -> s ∈ s2) -> r1 = r2 \/ score_lt r1 r2.
Proof. intros [Hin1 _] [_ Hmax2] H12. apply Hmax2, H12, Hin1. Qed.

Lemma scores_sublist (cards : list Card) s :
  s ∈ map _evaluate_five (combinations cards 5) <->
  exists c, c `sublist_of` cards /\ length c = 5%nat /\ s = _evaluate_five c.
Proof.
  rewrite list_elem_of_In, in_map_iff. split.
  - intros (c & <- & Hc). apply list_elem_of_In, elem_of_combinations in Hc as [? ?]. eauto.
  - intros (c & Hs & Hl & ->). exists c. split; [done|].
    apply list_elem_of_In, elem_of_combinations. done.
Qed.

Lemma scores_Permutation (c1 c2 : list Card) s :
  c1 ≡ₚ c2 ->
  s ∈ map _evaluate_five (combinations c1 5) -> s ∈ map _evaluate_five (combinations c2 5).
Proof.
  intros Hp. rewrite !scores_sublist. intros (c & Hs & Hl & ->).
  destruct (sublist_Permutation c c1 c2 Hs Hp) as (c' & Hcc' & Hs').
  exists c'. split; [done|]. split; [by rewrite <- Hcc'|].
  by apply _evaluate_five_Permutation.
Qed.

(** X1: the score of a hand does not depend on the order of its cards: two lists
    holding the same cards in any order get the same score from
    [_evaluate_five] and the same best score from [evaluate_hand], whatever
    their length. *)
Theorem evaluate_hand_order_independent (cards1 cards2 : list Card) :
  cards1 ≡ₚ cards2 ->
  _evaluate_five cards1 = _evaluate_five cards2 /\
  evaluate_hand cards1 = evaluate_hand cards2.
Proof.
  intros Hp. split; [by apply _evaluate_five_Permutation|].
  destruct (Nat.ltb_spec (length cards1) 5) as [Hlt|Hge].
  - unfold evaluate_hand. rewrite <- (Permutation_length Hp).
    destruct (Nat.ltb_spec (length cards1) 5); [|lia].
    by rewrite (sorted_rev_Permutation (map value cards1) (map value cards2))
      by (by apply Permutation_map).
  - eapply is_maximum_unique.
    + by apply evaluate_hand_maximum.
    + apply evaluate_hand_maximum. by rewrite <- (Permutation_length Hp).
    + intros s. by apply scores_Permutation.
    + intros s. by apply scores_Permutation.
Qed.

Lemma evaluate_hand_order_independent_witness :
  _evaluate_five (rev wheel_offsuit) = _evaluate_five wheel_offsuit /\
  evaluate_hand (rev seven_card_example) = evaluate_hand seven_card_example.
Proof.
  split.
  - apply (evaluate_hand_order_independent (rev wheel_offsuit) wheel_offsuit).
    symmetry. apply Permutation_rev.
  - apply (evaluate_hand_order_independent (rev seven_card_example) seven_card_example).
    symmetry. apply Permutation_rev.
Defined.

Lemma sublist_full {A} (c l : list A) :
  c `sublist_of` l -> length c = length l -> c = l.
Proof.
  induction 1 as [|x c l Hs IH|x c l Hs IH]; simpl; intros Hl.
  - reflexivity.
  - f_equal. apply IH. lia.
  - apply sublist_length in Hs. lia.
Qed.

(** X2: on exactly five cards [evaluate_hand] is [_evaluate_five] of those
    cards; and on at least five cards more cards never lower the best score:
    the score of [cards + extra] equals the score of [cards] or is higher in
    the category-then-card-values order. *)
Theorem evaluate_hand_best_of (cards extra : list Card) :
  (length cards = 5%nat -> evaluate_hand cards = _evaluate_five cards) /\
  ((5 <= length cards)%nat ->
   evaluate_hand cards = evaluate_hand (cards ++ extra) \/
   score_lt (evaluate_hand cards) (evaluate_hand (cards ++ extra))).
Proof.
  split.
  - intros Hl. destruct (evaluate_hand_maximum cards) as [Hin _]; [lia|].
    apply scores_sublist in Hin as (c & Hs & Hc & ->).
    f_equal. apply sublist_full; [done | lia].
  - intros Hl. eapply is_maximum_mono.
    + by apply evaluate_hand_maximum.
    + apply evaluate_hand_maximum. rewrite length_app. lia.
    + intros s. rewrite !scores_sublist. intros (c & Hs & Hc & ->).
      exists c. split; [by apply sublist_inserts_r | done].
Qed.

End CardEngine.

(** ** agent/strategy_engine.py: validation of the provider's responses *)

Module Strategy.

Import Py.
Local Open Scope Q_scope.

(** The JSON object parsed from the model's answer to a poker request: any
    key may be missing. *)
Record RawPoker := mkRawPoker {
  raw_action : option string;
  raw_raise_amount : option Q;
}.

(** The validated decision dictionary handed to the simulator. *)
Record Decision := mkDecision {
  action : string;
  raise_amount : option Q;
}.

(** The "validate and sanitize" part of [decide_poker_action]. *)
Definition decide_poker_action (raw : RawPoker) (to_call : Q) : Decision :=
  (* decision.setdefault("action", "fold"); decision.setdefault("raise_amount", 0.0) *)
  let action := default "fold"%string (raw_action raw) in
  let raise_amount := default 0 (raw_raise_amount raw) in
  (* if decision["action"] not in ("fold", "call", "raise") *)
  let action :=
    if bool_decide (action ∈ ["fold"; "call"; "raise"]%string) then action
    else "fold"%string in
  (* Don't fold when there's nothing to call (check instead) *)
  let action :=
    if bool_decide (action = "fold"%string) && Qle_bool to_call 0
    then "call"%string else action in
  {| action := action; raise_amount := Some raise_amount |}.

(** The JSON object parsed from the answer to an auction request. *)
Record RawBid := mkRawBid { raw_bid_amount : option Q }.

(** The "validate" and "clamp" part of [decide_auction_bid]; returns
    [decision["bid_amount"]]. *)
Definition decide_auction_bid (raw : RawBid) (budget : Q) : Q :=
  let bid_amount := default 0 (raw_bid_amount raw) in
  let bid_amount := minq bid_amount budget in
  let bid_amount := maxq bid_amount (1 # 1000) in
  bid_amount.

(** The "validate ability choice" part of [decide_rpg_action]: the parsed
    answer's ["ability"] (possibly missing) against the names offered, in
    the order of the dictionary; [None] is the [IndexError] of
    [list(available_abilities.keys())[0]] on an empty dictionary, raised
    before the answer is looked at. *)
Definition decide_rpg_action (raw : option string) (available_abilities : list string)
  : option string :=
  match available_abilities with
  | [] => None
  | first :: _ =>
      (* decision.setdefault("ability", list(available_abilities.keys())[0]) *)
      let ability := default first raw in
      Some (if bool_decide (ability ∈ available_abilities) then ability else first)
  end.


(** *** Properties *)

Lemma elem_of_actions (s : string) :
  s ∈ ["fold"; "call"; "raise"]%string <->
  s = "fold"%string \/ s = "call"%string \/ s = "raise"%string.
Proof. rewrite !elem_of_cons, elem_of_nil. tauto. Qed.

Lemma decide_poker_action_cases raw to_call :
  let a := action (decide_poker_action raw to_call) in
  raw_action raw = Some "raise"%string /\ a = "raise"%string \/
  raw_action raw = Some "call"%string /\ a = "call"%string \/
  raw_action raw <> Some "raise"%string /\ raw_action raw <> Some "call"%string /\
  (to_call <= 0 /\ a = "call"%string \/ 0 < to_call /\ a = "fold"%string).
Proof.
  cbv zeta. unfold decide_poker_action. cbn [action].
  set (a0 := default "fold"%string (raw_action raw)).
  set (a1 := if bool_decide (a0 ∈ _) then a0 else "fold"%string).
  assert (H1 : raw_action raw = Some "raise"%string /\ a1 = "raise"%string \/
               raw_action raw = Some "call"%string /\ a1 = "call"%string \/
               raw_action raw <> Some "raise"%string /\
               raw_action raw <> Some "call"%string /\ a1 = "fold"%string).
  { subst a1 a0. destruct (raw_action raw) as [s|]; cbn [default from_option]; unfold id.
    - case_bool_decide as Hin.
      + apply elem_of_actions in Hin as [-> | [-> | ->]]; [right; right | right; left | left];
          repeat split; congruence.
      + right. right.
        split; [intros [= ->]; apply Hin, elem_of_actions; tauto|].
        split; [intros [= ->]; apply Hin, elem_of_actions; tauto|]. done.
    - right. right. done. }
  clearbody a1. clear a0.
  destruct H1 as [[? ->] | [[? ->] | (? & ? & ->)]].
  - left. done.
  - right. left. done.
  - right. right. split; [done|]. split; [done|].
    destruct (Qle_bool to_call 0) eqn:Ele.
    + left. split; [by apply Qle_bool_iff | done].
    + right. split; [by apply Qle_bool_false | done].
Qed.

(** X3: whatever the model answers, the validated poker action is "fold",
    "call" or "raise". It is "raise" exactly when the answer was "raise"; it
    is "fold" exactly when there is something to call and the answer was
    neither "call" nor "raise" (missing and unknown actions count as fold);
    the raise amount is the answer's, 0 when missing; and validating a
    validated decision again changes nothing. *)
Theorem decide_poker_action_answers_fold_call_or_raise raw to_call :
  let d := decide_poker_action raw to_call in
  (action d = "fold"%string \/ action d = "call"%string \/ action d = "raise"%string) /\
  (action d = "fold"%string <->
   0 < to_call /\ raw_action raw <> Some "call"%string /\
   raw_action raw <> Some "raise"%string) /\
  (action d = "raise"%string <-> raw_action raw = Some "raise"%string) /\
  raise_amount d = Some (default 0 (raw_raise_amount raw)) /\
  decide_poker_action (mkRawPoker (Some (action d)) (raise_amount d)) to_call = d.
Proof.
  cbv zeta.
  assert (Hamount : raise_amount (decide_poker_action raw to_call)
                    = Some (default 0 (raw_raise_amount raw))) by done.
  assert (Hd : decide_poker_action raw to_call
               = mkDecision (action (decide_poker_action raw to_call))
                   (Some (default 0 (raw_raise_amount raw)))) by done.
  destruct (decide_poker_action_cases raw to_call)
    as [[Hr Ha] | [[Hr Ha] | (Hr & Hc & [[Hle Ha] | [Hlt Ha]])]]; cbv zeta in Ha;
    rewrite Hamount, Hd, Ha; cbn [action raise_amount].
  - split; [tauto|]. split; [split; [done | intros (_ & _ & ?); done]|].
    split; [done|]. split; [done|]. done.
  - split; [tauto|]. split; [split; [done | intros (_ & ? & _); done]|].
    split; [split; [done | congruence]|]. split; [done|]. done.
  - split; [tauto|]. split; [split; [done | intros (? & _); lra]|].
    split; [split; [done | congruence]|]. split; [done|]. done.
  - split; [tauto|]. split; [done|].
    split; [split; [done | congruence]|]. split; [done|].
    unfold decide_poker_action. cbn [raw_action raw_raise_amount].
    destruct (Qle_bool to_call 0) eqn:Ele; [|done].
    apply Qle_bool_iff in Ele. lra.
Qed.

Lemma decide_rpg_action_offers raw available_abilities :
  (available_abilities = [] -> decide_rpg_action raw available_abilities = None) /\
  (available_abilities <> [] ->
   exists ability,
     decide_rpg_action raw available_abilities = Some ability /\
     ability ∈ available_abilities /\
     (forall a, raw = Some a -> a ∈ available_abilities -> ability = a) /\
     ((forall a, raw = Some a -> a ∉ available_abilities) ->
      head available_abilities = Some ability)).
Proof.
  split; [by intros ->|]. intros Hne.
  destruct available_abilities as [|first rest]; [done|]. cbn [decide_rpg_action head].
  eexists. split; [reflexivity|].
  assert (Hf : first ∈ first :: rest) by (apply elem_of_cons; by left).
  destruct raw as [a|]; cbn [default from_option id].
  - case_bool_decide as Hin.
    + split; [done|]. split; [by intros ? [= <-]|]. intros H. by destruct (H a eq_refl).
    + split; [done|]. split; [|done]. intros ? [= <-] ?. done.
  - unfold id. rewrite bool_decide_eq_true_2 by done. split; [done|]. split; done.
Qed.

End Strategy.

(** ** games/poker.py: the heads-up hand *)

Module PokerGame.

Import Py CardEngine.
Export Strategy.
Local Open Scope Q_scope.

(** What [_get_player_decision] shows to the provider. *)
Record Request := mkRequest {
  req_player : string;
  req_opponent : string;
  req_round_name : string;
  req_hole_cards : list Card;
  req_community : list Card;
  req_pot : Q;
  req_stack : Q;
  req_opp_stack : Q;
  req_to_call : Q;
  req_position : string;
}.

(** A Decision Provider: any object with a [decide_poker_action] method.
    The first argument is the number of decisions already taken in the
    hand, so that a provider may answer the same request differently. *)
Definition Engine : Type := nat -> Request -> Decision.

(** The simulator instance: its engines, its blinds and its random source
    ([shuffle] for [random.shuffle], [coin] for [random.choice]). *)
Record Game := mkGame {
  strategy_engines : gmap string Engine;
  small_blind : Q;
  shuffle : list Card -> list Card;
  coin : nat -> bool;
}.

Definition big_blind (g : Game) : Q := small_blind g * 2.

Record LogEntry := mkLogEntry {
  log_round : string;
  log_player : string;
  log_action : string;
  log_amount : Q;
}.

(** The mutable state of one [play()] call. *)
Record State := mkState {
  deck : list Card;
  community_cards : list Card;
  hands : gmap string (list Card);
  pot : Q;
  round_log : list LogEntry;
  reasoning_log : list (string * string * Decision);
  stacks : gmap string Q;
}.

(** [Deck.reset()] and [Deck.deal(n)] *)
Definition fresh_deck : list Card :=
  s ← SUITS; r ← RANKS; [mkCard r s].

Definition reset (g : Game) : list Card := shuffle g fresh_deck.

Definition deal (n : nat) (cards : list Card) : list Card * list Card :=
  (take n cards, drop n cards).

(** [_get_player_decision] *)
Definition _get_player_decision (g : Game) (st : State) (req : Request)
  : Decision * State :=
  match strategy_engines g !! req_player req with
  | None =>
      ({| action := if coin g (length (round_log st)) then "call" else "raise";
          raise_amount := Some (big_blind g) |}, st)
  | Some engine =>
      let decision := engine (length (round_log st)) req in
      (decision,
       mkState (deck st) (community_cards st) (hands st) (pot st) (round_log st)
         (reasoning_log st ++ [(req_player req, req_round_name req, decision)])
         (stacks st))
  end.

(** The per-street betting state: the simulator state and the two local
    dictionaries of [_run_betting_round]. *)
Record Betting := mkBetting {
  sim : State;
  to_call : gmap string Q;
  has_acted : gmap string bool;
}.

(** The body of [for player in actors]: [None] when the loop goes on,
    [Some player] when [player] folds. *)
Definition act (g : Game) (round_name sb_player bb_player player : string)
  (b : Betting) : Betting * option string :=
  let st := sim b in
  let opponent := if bool_decide (player = sb_player) then bb_player else sb_player in
  if getb (has_acted b) player && Qle_bool (getq (to_call b) player) 0 then
    (b, None)
  else if Qle_bool (getq (stacks st) player) 0 then
    (mkBetting st (to_call b) (<[player := true]> (has_acted b)), None)
  else
    let current_to_call := maxq (getq (to_call b) player) 0 in
    let '(decision, st) :=
      _get_player_decision g st
        (mkRequest player opponent round_name
           (default [] (hands st !! player)) (community_cards st)
           (pot st) (getq (stacks st) player) (getq (stacks st) opponent)
           current_to_call (if bool_decide (player = sb_player) then "SB" else "BB")) in
    let st :=
      mkState (deck st) (community_cards st) (hands st) (pot st)
        (round_log st ++
           [mkLogEntry round_name player (action decision)
              (default 0 (raise_amount decision))])
        (reasoning_log st) (stacks st) in
    if bool_decide (action decision = "fold"%string) then
      (mkBetting st (to_call b) (has_acted b), Some player)
    else if bool_decide (action decision = "raise"%string) then
      let call_amt := minq current_to_call (getq (stacks st) player) in
      let stacks1 := <[player := getq (stacks st) player - call_amt]> (stacks st) in
      let pot1 := pot st + call_amt in
      let raise_amt := default (big_blind g * 2) (raise_amount decision) in
      let raise_amt := maxq raise_amt (big_blind g) in
      let raise_amt := minq raise_amt (getq stacks1 player) in
      let stacks2 := <[player := getq stacks1 player - raise_amt]> stacks1 in
      let pot2 := pot1 + raise_amt in
      (mkBetting
         (mkState (deck st) (community_cards st) (hands st) pot2 (round_log st)
            (reasoning_log st) stacks2)
         (<[player := 0]> (<[opponent := raise_amt]> (to_call b)))
         (<[player := true]> (has_acted b)), None)
    else
      let call_amt := minq current_to_call (getq (stacks st) player) in
      let stacks1 := <[player := getq (stacks st) player - call_amt]> (stacks st) in
      let pot1 := pot st + call_amt in
      (mkBetting
         (mkState (deck st) (community_cards st) (hands st) pot1 (round_log st)
            (reasoning_log st) stacks1)
         (<[player := 0]> (to_call b))
         (<[player := true]> (has_acted b)), None).

(** One pass of [for player in actors], with [actors = [sb_player, bb_player]]. *)
Definition action_pass (g : Game) (round_name sb_player bb_player : string)
  (b : Betting) : Betting * option string :=
  let '(b, folded) := act g round_name sb_player bb_player sb_player b in
  match folded with
  | Some p => (b, Some p)
  | None => act g round_name sb_player bb_player bb_player b
  end.

(** The test before [break]: both have acted and no bet is outstanding. *)
Definition round_complete (sb_player bb_player : string) (b : Betting) : bool :=
  getb (has_acted b) sb_player && getb (has_acted b) bb_player
  && Qle_bool (getq (to_call b) sb_player) 0
  && Qle_bool (getq (to_call b) bb_player) 0.

(** The result of a betting round: the state, the player who folded if any,
    and (a ghost of the model) how many of the action passes were entered. *)
Record RoundResult := mkRoundResult {
  after : Betting;
  folded : option string;
  passes_entered : nat;
}.

(** [for _ in range(n)] around the pass, with the early [break] and the
    early [return player]. *)
Fixpoint action_passes (n : nat) (g : Game) (round_name sb_player bb_player : string)
  (entered : nat) (b : Betting) : RoundResult :=
  match n with
  | O => mkRoundResult b None entered
  | S n' =>
      let '(b, f) := action_pass g round_name sb_player bb_player b in
      match f with
      | Some p => mkRoundResult b (Some p) (S entered)
      | None =>
          if round_complete sb_player bb_player b
          then mkRoundResult b None (S entered)
          else action_passes n' g round_name sb_player bb_player (S entered) b
      end
  end.

(** [_run_betting_round(round_name, sb_player, bb_player, stacks)] *)
Definition _run_betting_round (g : Game) (round_name sb_player bb_player : string)
  (st : State) : RoundResult :=
  let to_call : gmap string Q :=
    if bool_decide (round_name = "preflop"%string)
    then <[bb_player := 0]> (<[sb_player := big_blind g - small_blind g]> ∅)
    else <[bb_player := 0]> (<[sb_player := 0]> ∅) in
  let has_acted : gmap string bool :=
    <[bb_player := false]> (<[sb_player := false]> ∅) in
  action_passes 4 g round_name sb_player bb_player 0 (mkBetting st to_call has_acted).

(** [hand_name(rank)] *)
Definition hand_name (rank : Z) : string :=
  if (rank =? 0)%Z then "High Card" else if (rank =? 1)%Z then "Pair"
  else if (rank =? 2)%Z then "Two Pair" else if (rank =? 3)%Z then "Three Of A Kind"
  else if (rank =? 4)%Z then "Straight" else if (rank =? 5)%Z then "Flush"
  else if (rank =? 6)%Z then "Full House" else if (rank =? 7)%Z then "Four Of A Kind"
  else if (rank =? 8)%Z then "Straight Flush" else if (rank =? 9)%Z then "Royal Flush"
  else "Unknown".

(** The four streets and the number of shared cards each one deals. *)
Definition rounds : list (string * nat) :=
  [("preflop"%string, 0%nat); ("flop"%string, 3%nat);
   ("turn"%string, 1%nat); ("river"%string, 1%nat)].

(** Python truthiness of the value returned by [_run_betting_round]. *)
Definition truthy (folded : option string) : bool :=
  match folded with
  | Some p => negb (bool_decide (p = ""%string))
  | None => false
  end.

(** The loop [for round_name, cards_to_deal in rounds] of [play]; returns
    the state and the last value of [folded]. *)
Fixpoint play_rounds (g : Game) (sb_player bb_player : string)
  (rs : list (string * nat)) (folded0 : option string) (st : State)
  : State * option string :=
  match rs with
  | [] => (st, folded0)
  | (round_name, cards_to_deal) :: rs' =>
      let st :=
        if (0 <? cards_to_deal)%nat then
          let '(dealt, rest) := deal cards_to_deal (deck st) in
          mkState rest (community_cards st ++ dealt) (hands st) (pot st)
            (round_log st) (reasoning_log st) (stacks st)
        else st in
      let r := _run_betting_round g round_name sb_player bb_player st in
      if truthy (folded r) then (sim (after r), folded r)
      else play_rounds g sb_player bb_player rs' (folded r) (sim (after r))
  end.

Record GameResult := mkGameResult {
  winner : string;
  loser : string;
  wager : Q;
  hand_a_name : string;
  hand_b_name : string;
  win_method : string;
  final : State;
}.

(** What [play] has done before the first street: the deck is reset, the
    hole cards are dealt and the blinds are posted. *)
Definition start (g : Game) (player_a player_b : string) (wager : Q) : State :=
  let deck0 := reset g in
  let stacks0 : gmap string Q := <[player_b := wager]> (<[player_a := wager]> ∅) in
  let '(hand_a, deck1) := deal 2 deck0 in
  let '(hand_b, deck2) := deal 2 deck1 in
  let hands0 : gmap string (list Card) :=
    <[player_b := hand_b]> (<[player_a := hand_a]> ∅) in
  let sb_amount := minq (small_blind g) (getq stacks0 player_a) in
  let bb_amount := minq (big_blind g) (getq stacks0 player_b) in
  let stacks1 := <[player_a := getq stacks0 player_a - sb_amount]> stacks0 in
  let stacks2 := <[player_b := getq stacks1 player_b - bb_amount]> stacks1 in
  mkState deck2 [] hands0 (sb_amount + bb_amount) [] [] stacks2.

(** [play(player_a, player_b, wager)] *)
Definition play (g : Game) (player_a player_b : string) (wager : Q) : GameResult :=
  let '(st, folded) := play_rounds g player_a player_b rounds None (start g player_a player_b wager) in
  if truthy folded then
    let f := default ""%string folded in
    mkGameResult
      (if bool_decide (f = player_a) then player_b else player_a) f wager
      (if bool_decide (f = player_a) then "folded" else "")
      (if bool_decide (f = player_b) then "folded" else "")
      "fold" st
  else
    let eval_a := evaluate_hand (default [] (hands st !! player_a) ++ community_cards st) in
    let eval_b := evaluate_hand (default [] (hands st !! player_b) ++ community_cards st) in
    let '(winner, loser) :=
      if beats eval_a eval_b then (player_a, player_b)
      else if beats eval_b eval_a then (player_b, player_a)
      else (player_a, player_b) in
    mkGameResult winner loser wager (hand_name eval_a.1) (hand_name eval_b.1)
      "showdown" st.


(** *** Engines and games used as concrete inputs *)

(** The [decide_poker_action] of a [StrategyEngine]: whatever the model
    answers goes through the validation, with the [to_call] of the request. *)
Definition strategy_engine (llm : nat -> Request -> RawPoker) : Engine :=
  fun n req => decide_poker_action (llm n req) (req_to_call req).

Definition always_call : Engine := fun _ _ => mkDecision "call" None.
Definition always_fold : Engine := fun _ _ => mkDecision "fold" None.

Definition game_of (engine_a engine_b : Engine) : Game :=
  mkGame (<["B"%string := engine_b]> (<["A"%string := engine_a]> ∅)) (1 # 4)
    (fun cards => cards) (fun _ => true).

Definition call_down : Game := game_of always_call always_call.
Definition free_fold : Game := game_of always_call always_fold.
Definition validated_fold : Game :=
  game_of (strategy_engine (fun _ _ => mkRawPoker (Some "call"%string) None))
          (strategy_engine (fun _ _ => mkRawPoker None None)).

(** *** Dealing *)

(** The cards a state holds: the betting never touches them. *)
Definition cards_of (st : State) : list Card * list Card * gmap string (list Card) :=
  (deck st, community_cards st, hands st).

(** Every card that left the deck is in a hand or on the board, in the
    order of the shuffled deck [d]. *)
Definition dealt_from (d hand_a hand_b : list Card) (st : State) : Prop :=
  hand_a ++ hand_b ++ community_cards st ++ deck st = d.

(** The chips on the table: the pot and the two stacks. *)
Definition chips (player_a player_b : string) (st : State) : Q :=
  pot st + getq (stacks st) player_a + getq (stacks st) player_b.

(** The two scores compared at showdown. *)
Definition showdown_score (st : State) (player : string) : HandScore :=
  evaluate_hand (default [] (hands st !! player) ++ community_cards st).

(** *** Properties *)

(** *** Invariants of the betting round *)

Ltac q_minmax :=
  repeat match goal with
  | |- context [maxq ?a ?b] => destruct (maxq_spec a b) as [[? ->]|[? ->]]
  | |- context [minq ?a ?b] => destruct (minq_spec a b) as [[? ->]|[? ->]]
  end.

Lemma _get_player_decision_frame g st req d st' :
  _get_player_decision g st req = (d, st') ->
  stacks st' = stacks st /\ pot st' = pot st /\ deck st' = deck st /\
  community_cards st' = community_cards st /\ hands st' = hands st /\
  round_log st' = round_log st.
Proof. unfold _get_player_decision. intros H. case_match; simplify_eq/=; done. Qed.




(** A fold leaves the two dictionaries as they were, and it was answered to
    a request showing [max(to_call, 0)] by the engine of the folder. *)
Lemma act_fold g rn sb bb player b b' p :
  act g rn sb bb player b = (b', Some p) ->
  p = player /\ to_call b' = to_call b /\
  exists engine n req,
    strategy_engines g !! player = Some engine /\
    req_to_call req = maxq (getq (to_call b) player) 0 /\
    action (engine n req) = "fold"%string.
Proof.
  unfold act. intros Hact.
  repeat case_match; simplify_eq/=;
    (split; [done|]; split; [done|]);
    match goal with
    | H : _get_player_decision _ _ _ = _ |- _ => unfold _get_player_decision in H
    end;
    repeat case_match; simplify_eq/=;
    match goal with
    | H : bool_decide (_ = "fold"%string) = true |- _ => apply bool_decide_eq_true in H
    end;
    try (destruct (coin _ _); discriminate);
    eexists _, _, _; (split; [eassumption|]); (split; [|eassumption]); reflexivity.
Qed.




Lemma action_pass_fold g rn sb bb b b' p :
  action_pass g rn sb bb b = (b', Some p) ->
  exists engine n req,
    strategy_engines g !! p = Some engine /\
    req_to_call req = maxq (getq (to_call b') p) 0 /\
    action (engine n req) = "fold"%string.
Proof.
  unfold action_pass. intros Hp.
  destruct (act g rn sb bb sb b) as [b1 [q|]] eqn:E1.
  - simplify_eq. apply act_fold in E1 as (-> & -> & H). exact H.
  - apply act_fold in Hp as (-> & -> & H). exact H.
Qed.

Lemma action_passes_fold g rn sb bb n : forall entered b p,
  folded (action_passes n g rn sb bb entered b) = Some p ->
  exists engine k req,
    strategy_engines g !! p = Some engine /\
    req_to_call req =
      maxq (getq (to_call (after (action_passes n g rn sb bb entered b))) p) 0 /\
    action (engine k req) = "fold"%string.
Proof.
  induction n as [|n IH]; intros entered b p; simpl; [discriminate|].
  destruct (action_pass g rn sb bb b) as [b1 [q|]] eqn:E; simpl.
  - intros [= ->]. eapply action_pass_fold; exact E.
  - destruct (round_complete sb bb b1); simpl; [discriminate|]. apply IH.
Qed.

Lemma play_rounds_fold g sb bb rs : forall f0 st st' f,
  play_rounds g sb bb rs f0 st = (st', f) ->
  f = f0 \/ exists rn st0, folded (_run_betting_round g rn sb bb st0) = f.
Proof.
  induction rs as [|[rn n] rs IH]; intros f0 st st' f; simpl.
  - intros [= _ <-]. by left.
  - set (st1 := if (0 <? n)%nat then _ else st).
    destruct (truthy (folded (_run_betting_round g rn sb bb st1))) eqn:Et.
    + intros [= _ <-]. right. eauto.
    + intros H. apply IH in H as [->|H]; [right; eauto | by right].
Qed.

(** *** The literal case of the blinds: 0.01 and 0.02 *)

(** Player A calls the 0.01 shortfall and player B checks: the pre-flop
    round ends in its first pass with a pot of 0.04, before any community card
    is dealt. *)
Example test_blinds_call_check :
  let g := mkGame (<["B"%string := always_call]> (<["A"%string := always_call]> ∅))
             (1 # 100) (fun cards => cards) (fun _ => true) in
  let r := _run_betting_round g "preflop" "A" "B" (start g "A" "B" 1) in
  folded r = None /\ passes_entered r = 1%nat /\
  pot (sim (after r)) == 4 # 100 /\ community_cards (sim (after r)) = [].
Proof. vm_compute. repeat split. Qed.




(** C5 (as stated, refuted): the betting round does not rewrite a fold. A
    provider that answers "fold" to the big blind, who owes nothing after
    the small blind's call, ends the hand by fold. *)
Lemma fold_with_nothing_to_call_is_honoured :
  folded (_run_betting_round free_fold "preflop" "A" "B" (start free_fold "A" "B" 16)) = Some "B"%string /\
  getq (to_call (after (_run_betting_round free_fold "preflop" "A" "B"
                          (start free_fold "A" "B" 16)))) "B" == 0 /\
  win_method (play free_fold "A" "B" 16) = "fold"%string /\
  loser (play free_fold "A" "B" 16) = "B"%string.
Proof. vm_compute. repeat split; reflexivity. Qed.

(** C5 (amended): the rewriting of a fold into a call when the to-call is
    zero is done by [StrategyEngine.decide_poker_action], not by the betting
    round. When every engine of the game is a [StrategyEngine] (players
    without an engine get the random call/raise), a betting round only
    returns a folder who owed a positive amount, so no hand ends by fold
    from a player who owed nothing. *)
Theorem strategy_engine_never_folds_for_free g :
  (forall p e, strategy_engines g !! p = Some e -> exists llm, e = strategy_engine llm) ->
  (forall raw to_call, Qle_bool to_call 0 = true ->
     action (decide_poker_action raw to_call) <> "fold"%string) /\
  (forall round_name sb_player bb_player st p,
     folded (_run_betting_round g round_name sb_player bb_player st) = Some p ->
     0 < getq (to_call (after (_run_betting_round g round_name sb_player bb_player st))) p) /\
  (forall player_a player_b wager,
     win_method (play g player_a player_b wager) = "fold"%string ->
     exists round_name st,
       folded (_run_betting_round g round_name player_a player_b st)
         = Some (loser (play g player_a player_b wager)) /\
       0 < getq (to_call (after (_run_betting_round g round_name player_a player_b st)))
             (loser (play g player_a player_b wager))).
Proof.
  intros Hengines.
  assert (Hval : forall raw to_call, Qle_bool to_call 0 = true ->
     action (decide_poker_action raw to_call) <> "fold"%string).
  { intros raw tc Htc. unfold decide_poker_action. simpl. rewrite Htc.
    set (a := if bool_decide (_ ∈ _) then _ else _).
    destruct (bool_decide (a = "fold"%string)) eqn:E; simpl; [discriminate|].
    by apply bool_decide_eq_false in E. }
  assert (Hround : forall round_name sb_player bb_player st p,
     folded (_run_betting_round g round_name sb_player bb_player st) = Some p ->
     0 < getq (to_call (after (_run_betting_round g round_name sb_player bb_player st))) p).
  { intros rn sb bb st p Hf. unfold _run_betting_round in *.
    apply action_passes_fold in Hf as (engine & k & req & He & Hreq & Hact).
    destruct (Hengines _ _ He) as [llm ->]. unfold strategy_engine in Hact.
    destruct (Qle_bool (req_to_call req) 0) eqn:Ele.
    - exfalso. eapply Hval; eassumption.
    - apply Qle_bool_false in Ele. rewrite Hreq in Ele.
      revert Ele. q_minmax; intros; lra. }
  split; [exact Hval|]. split; [exact Hround|].
  intros a b w. unfold play.
  destruct (play_rounds g a b rounds None (start g a b w)) as [st' f] eqn:E.
  destruct (truthy f) eqn:Et; simpl.
  - intros _. destruct f as [p|]; [|discriminate]. simpl.
    apply play_rounds_fold in E as [E|(rn & st0 & E)]; [discriminate|].
    exists rn, st0. split; [exact E | by apply Hround].
  - destruct (beats _ _); [|destruct (beats _ _)]; simpl; discriminate.
Qed.

Lemma strategy_engine_never_folds_for_free_witness :
  folded (_run_betting_round validated_fold "preflop" "A" "B"
            (start validated_fold "A" "B" 16)) = None /\
  win_method (play validated_fold "A" "B" 16) = "showdown"%string /\
  (forall round_name sb_player bb_player st p,
     folded (_run_betting_round validated_fold round_name sb_player bb_player st) = Some p ->
     0 < getq (to_call (after (_run_betting_round validated_fold round_name
                                 sb_player bb_player st))) p).
Proof.
  split; [vm_compute; reflexivity|]. split; [vm_compute; reflexivity|].
  refine (proj1 (proj2 (strategy_engine_never_folds_for_free validated_fold _))).
  intros p e. unfold validated_fold, game_of. simpl.
  destruct (decide (p = "B"%string)) as [->|Hb].
  - rewrite lookup_insert_eq. intros [= <-]. eexists. reflexivity.
  - rewrite lookup_insert_ne by done.
    destruct (decide (p = "A"%string)) as [->|Ha].
    + rewrite lookup_insert_eq. intros [= <-]. eexists. reflexivity.
    + rewrite lookup_insert_ne by done. rewrite lookup_empty. discriminate.
Defined.

Lemma act_cards g rn sb bb player b b' f :
  act g rn sb bb player b = (b', f) -> cards_of (sim b') = cards_of (sim b).
Proof.
  unfold act, cards_of. intros Hact.
  repeat case_match; simplify_eq/=; try done;
    match goal with
    | H : _get_player_decision _ _ _ = _ |- _ =>
        apply _get_player_decision_frame in H as (_ & _ & -> & -> & -> & _)
    end; done.
Qed.

Lemma action_pass_cards g rn sb bb b b' f :
  action_pass g rn sb bb b = (b', f) -> cards_of (sim b') = cards_of (sim b).
Proof.
  unfold action_pass. intros Hp.
  destruct (act g rn sb bb sb b) as [b1 [q|]] eqn:E1.
  - simplify_eq. eapply act_cards; exact E1.
  - apply act_cards in Hp, E1. congruence.
Qed.

Lemma action_passes_cards g rn sb bb n : forall entered b,
  cards_of (sim (after (action_passes n g rn sb bb entered b))) = cards_of (sim b).
Proof.
  induction n as [|n IH]; intros entered b; simpl; [done|].
  destruct (action_pass g rn sb bb b) as [b1 [q|]] eqn:E; simpl;
    apply action_pass_cards in E; [done|].
  destruct (round_complete sb bb b1); simpl; [done|]. by rewrite IH.
Qed.

Lemma _run_betting_round_cards g rn sb bb st :
  cards_of (sim (after (_run_betting_round g rn sb bb st))) = cards_of st.
Proof. unfold _run_betting_round. by rewrite action_passes_cards. Qed.

Lemma play_rounds_dealt g sb bb d hand_a hand_b rs : forall f0 st st' f,
  play_rounds g sb bb rs f0 st = (st', f) ->
  dealt_from d hand_a hand_b st ->
  dealt_from d hand_a hand_b st' /\ hands st' = hands st /\
  (length (community_cards st') <= length (community_cards st) + sum_list (rs.*2))%nat.
Proof.
  induction rs as [|[rn n] rs IH]; intros f0 st st' f; simpl.
  - intros [= <- _] Hd. repeat split; [done | lia].
  - set (st1 := if (0 <? n)%nat then _ else st).
    assert (H1 : dealt_from d hand_a hand_b st -> dealt_from d hand_a hand_b st1 /\
                 hands st1 = hands st /\
                 (length (community_cards st1) <= length (community_cards st) + n)%nat).
    { subst st1. unfold dealt_from. destruct (0 <? n)%nat; simpl.
      - intros <-. rewrite <- (assoc_L (++) (community_cards st)), take_drop.
        repeat split. rewrite length_app, length_take. lia.
      - intros <-. repeat split. lia. }
    pose proof (_run_betting_round_cards g rn sb bb st1) as Hc.
    unfold cards_of in Hc. injection Hc as Hdeck Hcomm Hhands.
    destruct (truthy (folded (_run_betting_round g rn sb bb st1))).
    + intros [= <- _] Hd. destruct (H1 Hd) as (Hd1 & Hh1 & Hl1).
      unfold dealt_from in *. rewrite Hdeck, Hcomm, Hhands.
      repeat split; [done | done | lia].
    + intros Hrec Hd. destruct (H1 Hd) as (Hd1 & Hh1 & Hl1).
      apply IH in Hrec as (Hd' & Hh' & Hl').
      * split; [exact Hd'|]. split; [congruence|]. rewrite Hcomm in Hl'.
        unfold fmap in *. lia.
      * unfold dealt_from in *. by rewrite Hdeck, Hcomm.
Qed.

Lemma NoDup_fresh_deck : NoDup fresh_deck /\ length fresh_deck = 52%nat.
Proof.
  split; [|reflexivity].
  apply (bool_decide_unpack (NoDup fresh_deck)). vm_compute. exact I.
Qed.

(** C9: within one [play()] call the deck is reset to the 52 distinct
    rank-suit combinations (in the order the shuffle leaves them), and the two
    2-card hole hands and the at most 5 community cards of the returned hand
    contain no card twice. *)
Theorem cards_dealt_in_a_hand_are_distinct g player_a player_b wager :
  shuffle g fresh_deck ≡ₚ fresh_deck ->
  NoDup fresh_deck /\ length fresh_deck = 52%nat /\
  exists hand_a hand_b,
    hands (final (play g player_a player_b wager))
      = <[player_b := hand_b]> (<[player_a := hand_a]> ∅) /\
    length hand_a = 2%nat /\ length hand_b = 2%nat /\
    (length (community_cards (final (play g player_a player_b wager))) <= 5)%nat /\
    NoDup (hand_a ++ hand_b ++ community_cards (final (play g player_a player_b wager))).
Proof.
  intros Hperm. destruct NoDup_fresh_deck as [Hnd Hlen].
  split; [exact Hnd|]. split; [exact Hlen|].
  set (d := shuffle g fresh_deck).
  assert (Hd : NoDup d) by (unfold d; by rewrite Hperm).
  assert (Hdl : length d = 52%nat) by (unfold d; by rewrite Hperm).
  exists (take 2 d), (take 2 (drop 2 d)).
  assert (Hst : hands (start g player_a player_b wager)
                  = <[player_b := take 2 (drop 2 d)]> (<[player_a := take 2 d]> ∅) /\
                community_cards (start g player_a player_b wager) = [] /\
                dealt_from d (take 2 d) (take 2 (drop 2 d)) (start g player_a player_b wager)).
  { unfold start, dealt_from, reset, deal. fold d. simpl.
    repeat split. by rewrite !take_drop. }
  destruct Hst as (Hh0 & Hc0 & Hd0).
  assert (Hfinal : final (play g player_a player_b wager)
                   = (play_rounds g player_a player_b rounds None
                        (start g player_a player_b wager)).1).
  { unfold play. destruct (play_rounds _ _ _ _ _ _) as [st' f]. simpl.
    destruct (truthy f); [done|].
    destruct (beats _ _); [done|]. destruct (beats _ _); done. }
  rewrite Hfinal.
  destruct (play_rounds g player_a player_b rounds None
              (start g player_a player_b wager)) as [st' f] eqn:E. simpl.
  destruct (play_rounds_dealt _ _ _ _ _ _ _ _ _ _ _ E Hd0) as (Hd' & Hh' & Hl').
  rewrite Hc0 in Hl'. simpl in Hl'.
  split; [by rewrite Hh'|].
  split; [rewrite length_take; lia|].
  split; [rewrite length_take, length_drop; lia|].
  split; [exact Hl'|].
  unfold dealt_from in Hd'. rewrite <- Hd' in Hd.
  rewrite !(assoc_L (++)) in Hd. apply NoDup_app in Hd as (Hd & _ & _).
  by rewrite <- !(assoc_L (++)) in Hd.
Qed.

Lemma cards_dealt_in_a_hand_are_distinct_witness :
  exists hand_a hand_b,
    hands (final (play call_down "A" "B" 16))
      = <["B"%string := hand_b]> (<["A"%string := hand_a]> ∅) /\
    length hand_a = 2%nat /\ length hand_b = 2%nat /\
    (length (community_cards (final (play call_down "A" "B" 16))) <= 5)%nat /\
    NoDup (hand_a ++ hand_b ++ community_cards (final (play call_down "A" "B" 16))).
Proof.
  apply (cards_dealt_in_a_hand_are_distinct call_down "A" "B" 16).
  reflexivity.
Defined.

(** *** Chips *)

Lemma act_chips g rn a b player bt bt' f :
  a <> b -> player = a \/ player = b ->
  act g rn a b player bt = (bt', f) ->
  chips a b (sim bt') == chips a b (sim bt) /\
  (nonneg (stacks (sim bt)) -> nonneg (stacks (sim bt'))).
Proof.
  intros Hab Hp Hact. unfold act in Hact.
  repeat case_match; simplify_eq/=; try (split; [reflexivity | done]);
    match goal with
    | H : _get_player_decision _ _ _ = _ |- _ =>
        apply _get_player_decision_frame in H as (Hs & Hpot & _)
    end;
    match goal with H : Qle_bool _ 0 = false |- _ => apply Qle_bool_false in H end;
    unfold chips; simpl; rewrite ?Hs, ?Hpot in *.
  all: split; try (intros; assumption).
  all: try (intros Hnn; repeat (apply map_Forall_insert_2; [|try done]);
            rewrite ?getq_insert; q_minmax; lra).
  all: destruct Hp as [-> | ->];
    rewrite ?getq_insert, ?getq_insert_ne by done; rewrite ?getq_insert; lra.
Qed.

Lemma action_pass_chips g rn a b bt bt' f :
  a <> b -> action_pass g rn a b bt = (bt', f) ->
  chips a b (sim bt') == chips a b (sim bt) /\
  (nonneg (stacks (sim bt)) -> nonneg (stacks (sim bt'))).
Proof.
  unfold action_pass. intros Hab Hp.
  destruct (act g rn a b a bt) as [b1 [q|]] eqn:E1.
  - simplify_eq. eapply act_chips; [done | by left | exact E1].
  - destruct (act_chips _ _ _ _ _ _ _ _ Hab (or_introl eq_refl) E1) as [H1 N1].
    destruct (act_chips _ _ _ _ _ _ _ _ Hab (or_intror eq_refl) Hp) as [H2 N2].
    split; [by rewrite H2 | auto].
Qed.

Lemma action_passes_chips g rn a b n : forall entered bt,
  a <> b ->
  chips a b (sim (after (action_passes n g rn a b entered bt))) == chips a b (sim bt) /\
  (nonneg (stacks (sim bt)) ->
   nonneg (stacks (sim (after (action_passes n g rn a b entered bt))))).
Proof.
  induction n as [|n IH]; intros entered bt Hab; simpl; [split; [reflexivity | done]|].
  destruct (action_pass g rn a b bt) as [b1 [q|]] eqn:E; simpl;
    destruct (action_pass_chips _ _ _ _ _ _ _ Hab E) as [H1 N1]; [done|].
  destruct (round_complete a b b1); simpl; [done|].
  destruct (IH (S entered) b1 Hab) as [H2 N2]. split; [by rewrite H2 | auto].
Qed.

Lemma _run_betting_round_chips g rn a b st :
  a <> b ->
  chips a b (sim (after (_run_betting_round g rn a b st))) == chips a b st /\
  (nonneg (stacks st) -> nonneg (stacks (sim (after (_run_betting_round g rn a b st))))).
Proof. intros Hab. unfold _run_betting_round. by apply action_passes_chips. Qed.

Lemma play_rounds_chips g a b rs : forall f0 st st' f,
  a <> b ->
  play_rounds g a b rs f0 st = (st', f) ->
  chips a b st' == chips a b st /\ (nonneg (stacks st) -> nonneg (stacks st')).
Proof.
  induction rs as [|[rn n] rs IH]; intros f0 st st' f Hab; simpl.
  - intros [= <- _]. split; [reflexivity | done].
  - set (st1 := if (0 <? n)%nat then _ else st).
    assert (H1 : chips a b st1 = chips a b st /\ stacks st1 = stacks st).
    { subst st1. by destruct (0 <? n)%nat. }
    destruct H1 as [H1 S1].
    destruct (_run_betting_round_chips g rn a b st1 Hab) as [H2 N2].
    rewrite H1, S1 in *.
    destruct (truthy _).
    + intros [= <- _]. done.
    + intros Hrec. apply IH in Hrec as [H3 N3]; [|done].
      split; [by rewrite H3 | auto].
Qed.

Lemma start_chips g a b wager :
  a <> b ->
  chips a b (start g a b wager) == 2 * wager /\ nonneg (stacks (start g a b wager)).
Proof.
  intros Hab. unfold start, chips, reset, deal. simpl.
  rewrite !getq_insert. rewrite !(getq_insert_ne _ b a) by done.
  rewrite !getq_insert. rewrite !(getq_insert_ne _ a b) by done.
  rewrite !getq_insert. split.
  - q_minmax; lra.
  - intros i x Hix.
    destruct (decide (i = b)) as [->|Hb].
    { rewrite lookup_insert_eq in Hix. injection Hix as <-. q_minmax; lra. }
    rewrite lookup_insert_ne in Hix by done.
    destruct (decide (i = a)) as [->|Ha].
    { rewrite lookup_insert_eq in Hix. injection Hix as <-. q_minmax; lra. }
    rewrite !lookup_insert_ne in Hix by done. by rewrite lookup_empty in Hix.
Qed.

Lemma play_final g a b wager :
  final (play g a b wager) = (play_rounds g a b rounds None (start g a b wager)).1.
Proof.
  unfold play. destruct (play_rounds _ _ _ _ _ _) as [st' f]. simpl.
  destruct (truthy f); [done|].
  destruct (beats _ _); [done|]. destruct (beats _ _); done.
Qed.

(** X4: in a hand between two different players the chips stay on the table:
    when [play] ends, the pot plus the two stacks is twice the wager (in exact
    arithmetic: the amounts are taken as rationals, the floats of the program
    round), and neither stack is negative. Blinds, calls and raises only move
    chips from a stack to the pot, never more than the stack holds. *)
Theorem chips_are_conserved g player_a player_b wager :
  player_a <> player_b ->
  pot (final (play g player_a player_b wager))
  + getq (stacks (final (play g player_a player_b wager))) player_a
  + getq (stacks (final (play g player_a player_b wager))) player_b == 2 * wager /\
  0 <= getq (stacks (final (play g player_a player_b wager))) player_a /\
  0 <= getq (stacks (final (play g player_a player_b wager))) player_b.
Proof.
  intros Hab. rewrite play_final.
  destruct (play_rounds g player_a player_b rounds None (start g player_a player_b wager))
    as [st f] eqn:E. simpl.
  destruct (start_chips g player_a player_b wager Hab) as [H0 N0].
  destruct (play_rounds_chips _ _ _ _ _ _ _ _ Hab E) as [H1 N1].
  split; [unfold chips in *; by rewrite H1|].
  split; apply getq_nonneg; auto.
Qed.

Lemma chips_are_conserved_witness :
  pot (final (play call_down "A" "B" 1))
  + getq (stacks (final (play call_down "A" "B" 1))) "A"
  + getq (stacks (final (play call_down "A" "B" 1))) "B" == 2 * 1 /\
  0 <= getq (stacks (final (play call_down "A" "B" 1))) "A" /\
  0 <= getq (stacks (final (play call_down "A" "B" 1))) "B".
Proof. apply (chips_are_conserved call_down "A" "B" 1). done. Defined.

(** *** Streets and the result *)

(** ** who can fold, and how many decisions are asked *)
Lemma action_pass_folder g rn sb bb bt bt' p :
  action_pass g rn sb bb bt = (bt', Some p) -> p = sb \/ p = bb.
Proof.
  unfold action_pass. intros Hp.
  destruct (act g rn sb bb sb bt) as [b1 [q|]] eqn:E1.
  - simplify_eq. apply act_fold in E1 as (-> & _). by left.
  - apply act_fold in Hp as (-> & _). by right.
Qed.

Lemma action_passes_folder g rn sb bb n : forall entered bt p,
  folded (action_passes n g rn sb bb entered bt) = Some p -> p = sb \/ p = bb.
Proof.
  induction n as [|n IH]; intros entered bt p; simpl; [discriminate|].
  destruct (action_pass g rn sb bb bt) as [b1 [q|]] eqn:E; simpl.
  - intros [= ->]. eapply action_pass_folder; exact E.
  - destruct (round_complete sb bb b1); simpl; [discriminate|]. apply IH.
Qed.

Lemma play_rounds_folder g a b rs : forall f0 st st' f p,
  play_rounds g a b rs f0 st = (st', f) -> f = Some p ->
  f0 = Some p \/ p = a \/ p = b.
Proof.
  induction rs as [|[rn n] rs IH]; intros f0 st st' f p; simpl.
  - intros [= _ <-]. by left.
  - set (st1 := if (0 <? n)%nat then _ else st).
    destruct (truthy (folded (_run_betting_round g rn a b st1))) eqn:Et.
    + intros [= _ <-] Hf. right. unfold _run_betting_round in Hf.
      eapply action_passes_folder; exact Hf.
    + intros Hrec Hf. destruct (IH _ _ _ _ _ Hrec Hf) as [H|H]; [|by right].
      right. unfold _run_betting_round in H. eapply action_passes_folder; exact H.
Qed.

Lemma act_round_log g rn sb bb player bt bt' f :
  act g rn sb bb player bt = (bt', f) ->
  (length (round_log (sim bt)) <= length (round_log (sim bt'))
   <= S (length (round_log (sim bt))))%nat.
Proof.
  unfold act. intros Hact.
  repeat case_match; simplify_eq/=; try lia;
    match goal with
    | H : _get_player_decision _ _ _ = _ |- _ =>
        apply _get_player_decision_frame in H as (_ & _ & _ & _ & _ & ->)
    end; rewrite ?length_app; simpl; lia.
Qed.

Lemma action_pass_round_log g rn sb bb bt bt' f :
  action_pass g rn sb bb bt = (bt', f) ->
  (length (round_log (sim bt')) <= 2 + length (round_log (sim bt)))%nat.
Proof.
  unfold action_pass. intros Hp.
  destruct (act g rn sb bb sb bt) as [b1 [q|]] eqn:E1.
  - simplify_eq. apply act_round_log in E1. lia.
  - apply act_round_log in E1, Hp. lia.
Qed.

Lemma action_passes_round_log g rn sb bb n : forall entered bt,
  (length (round_log (sim (after (action_passes n g rn sb bb entered bt))))
   <= 2 * n + length (round_log (sim bt)))%nat.
Proof.
  induction n as [|n IH]; intros entered bt; simpl; [lia|].
  destruct (action_pass g rn sb bb bt) as [b1 [q|]] eqn:E; simpl;
    apply action_pass_round_log in E; [lia|].
  destruct (round_complete sb bb b1); simpl; [lia|].
  specialize (IH (S entered) b1). lia.
Qed.

Lemma play_rounds_round_log g a b rs : forall f0 st st' f,
  play_rounds g a b rs f0 st = (st', f) ->
  (length (round_log st') <= 8 * length rs + length (round_log st))%nat.
Proof.
  induction rs as [|[rn n] rs IH]; intros f0 st st' f; simpl.
  - intros [= <- _]. lia.
  - set (st1 := if (0 <? n)%nat then _ else st).
    assert (H1 : round_log st1 = round_log st) by (subst st1; by destruct (0 <? n)%nat).
    pose proof (action_passes_round_log g rn a b 4 0
                  (mkBetting st1
                     (if bool_decide (rn = "preflop"%string)
                      then <[b:=0]> (<[a:=big_blind g - small_blind g]> ∅)
                      else <[b:=0]> (<[a:=0]> ∅))
                     (<[b:=false]> (<[a:=false]> ∅)))) as H2.
    fold (_run_betting_round g rn a b st1) in H2. simpl in H2. rewrite H1 in H2.
    destruct (truthy _).
    + intros [= <- _]. lia.
    + intros Hrec. apply IH in Hrec. lia.
Qed.

(** With no fold, every street is played. *)
Lemma play_rounds_no_fold g a b rs : forall st st' f,
  (forall rn st0, folded (_run_betting_round g rn a b st0) = None) ->
  play_rounds g a b rs None st = (st', f) ->
  f = None /\
  community_cards st' = community_cards st ++ take (sum_list (rs.*2)) (deck st).
Proof.
  induction rs as [|[rn n] rs IH]; intros st st' f Hnf; simpl.
  - intros [= <- <-]. by rewrite take_0, app_nil_r.
  - set (st1 := if (0 <? n)%nat then _ else st).
    assert (H1 : community_cards st1 = community_cards st ++ take n (deck st) /\
                 deck st1 = drop n (deck st)).
    { subst st1. destruct n; simpl; [|done]. by rewrite take_0, app_nil_r, drop_0. }
    destruct H1 as [Hc1 Hd1].
    pose proof (_run_betting_round_cards g rn a b st1) as Hc.
    unfold cards_of in Hc. injection Hc as Hdeck Hcomm Hhands.
    rewrite (Hnf rn st1). simpl. intros Hrec.
    apply IH in Hrec as [-> ->]; [|done]. split; [done|].
    rewrite Hcomm, Hdeck, Hc1, Hd1, <- (assoc_L (++)). f_equal.
    by rewrite take_take_drop.
Qed.

Lemma call_down_never_folds p engine n req :
  strategy_engines call_down !! p = Some engine -> action (engine n req) <> "fold"%string.
Proof.
  unfold call_down, game_of. cbn [strategy_engines]. intros H.
  destruct (decide (p = "B"%string)) as [->|];
    [rewrite lookup_insert_eq in H; by injection H as <-|].
  rewrite lookup_insert_ne in H by done.
  destruct (decide (p = "A"%string)) as [->|];
    [rewrite lookup_insert_eq in H; by injection H as <-|].
  by rewrite lookup_insert_ne in H.
Qed.

(** X5: when no engine ever answers "fold" (players without an engine get the
    call-or-raise fallback) and the shuffle permutes the deck, the hand runs
    through all four streets: it ends by showdown with five community cards. *)
Theorem no_fold_reaches_showdown g player_a player_b wager :
  (forall p engine n req,
     strategy_engines g !! p = Some engine -> action (engine n req) <> "fold"%string) ->
  shuffle g fresh_deck ≡ₚ fresh_deck ->
  win_method (play g player_a player_b wager) = "showdown"%string /\
  length (community_cards (final (play g player_a player_b wager))) = 5%nat.
Proof.
  intros Hnf Hperm.
  assert (Hround : forall rn st0, folded (_run_betting_round g rn player_a player_b st0) = None).
  { intros rn st0. destruct (folded _) as [p|] eqn:E; [|done].
    unfold _run_betting_round in E.
    apply action_passes_fold in E as (engine & k & req & He & _ & Hact).
    by destruct (Hnf _ _ _ _ He Hact). }
  rewrite play_final. unfold play.
  destruct (play_rounds g player_a player_b rounds None (start g player_a player_b wager))
    as [st f] eqn:E. simpl.
  apply play_rounds_no_fold in E as [-> Hc]; [|done]. simpl. split.
  - destruct (beats _ _); [done|]. destruct (beats _ _); done.
  - rewrite Hc. unfold start, reset, deal. simpl.
    rewrite length_take, !length_drop, Hperm. reflexivity.
Qed.

Lemma no_fold_reaches_showdown_witness :
  win_method (play call_down "A" "B" 1) = "showdown"%string /\
  length (community_cards (final (play call_down "A" "B" 1))) = 5%nat.
Proof.
  apply (no_fold_reaches_showdown call_down "A" "B" 1).
  - apply call_down_never_folds.
  - reflexivity.
Defined.

(** X6: the result of a hand names the two players, one as winner and the other
    as loser, and its win method is "fold" or "showdown". At showdown the big
    blind wins exactly when the small blind's best hand scores strictly lower;
    on a tie the small blind, player A, is the winner. *)
Theorem poker_result_names_both_players g player_a player_b wager :
  ((winner (play g player_a player_b wager) = player_a /\
    loser (play g player_a player_b wager) = player_b) \/
   (winner (play g player_a player_b wager) = player_b /\
    loser (play g player_a player_b wager) = player_a)) /\
  (win_method (play g player_a player_b wager) = "fold"%string \/
   win_method (play g player_a player_b wager) = "showdown"%string) /\
  (win_method (play g player_a player_b wager) = "showdown"%string ->
   (score_lt (showdown_score (final (play g player_a player_b wager)) player_a)
             (showdown_score (final (play g player_a player_b wager)) player_b) /\
    winner (play g player_a player_b wager) = player_b) \/
   (~ score_lt (showdown_score (final (play g player_a player_b wager)) player_a)
               (showdown_score (final (play g player_a player_b wager)) player_b) /\
    winner (play g player_a player_b wager) = player_a)).
Proof.
  unfold play, showdown_score.
  destruct (play_rounds g player_a player_b rounds None (start g player_a player_b wager))
    as [st f] eqn:E.
  destruct (truthy f) eqn:Et.
  - destruct f as [p|]; [|discriminate]. simpl.
    destruct (play_rounds_folder _ _ _ _ _ _ _ _ _ E eq_refl) as [?|Hp]; [discriminate|].
    split; [|split; [by left | discriminate]].
    case_bool_decide as Ea; [right; by subst | left].
    destruct Hp; [done | by subst].
  - destruct (beats (evaluate_hand (default [] (hands st !! player_a) ++ community_cards st))
                    (evaluate_hand (default [] (hands st !! player_b) ++ community_cards st)))
      eqn:E1;
    [|destruct (beats (evaluate_hand (default [] (hands st !! player_b) ++ community_cards st))
                      (evaluate_hand (default [] (hands st !! player_a) ++ community_cards st)))
        eqn:E2];
    cbn [final winner loser win_method].
    + split; [by left|]. split; [by right|]. intros _. right. split; [|done].
      apply beats_score_lt in E1. intros E2.
      eapply score_lt_irrefl, score_lt_trans; eauto.
    + split; [by right|]. split; [by right|]. intros _. left.
      split; [by apply beats_score_lt | done].
    + split; [by left|]. split; [by right|]. intros _. right. split; [|done].
      intros E3. apply beats_score_lt in E3. congruence.
Qed.

(** *** The logs and the deck *)

Lemma act_reasoning_log g rn sb bb player bt bt' f :
  act g rn sb bb player bt = (bt', f) ->
  (length (reasoning_log (sim bt)) <= length (round_log (sim bt)) ->
   length (reasoning_log (sim bt')) <= length (round_log (sim bt')))%nat.
Proof.
  unfold act. intros Hact.
  repeat case_match; simplify_eq/=; try lia;
    match goal with
    | H : _get_player_decision _ _ _ = _ |- _ => unfold _get_player_decision in H
    end; repeat case_match; simplify_eq/=; rewrite ?length_app; simpl; lia.
Qed.

Lemma action_passes_reasoning_log g rn sb bb n : forall entered bt,
  (length (reasoning_log (sim bt)) <= length (round_log (sim bt)) ->
   length (reasoning_log (sim (after (action_passes n g rn sb bb entered bt))))
   <= length (round_log (sim (after (action_passes n g rn sb bb entered bt)))))%nat.
Proof.
  induction n as [|n IH]; intros entered bt H0; simpl; [done|].
  unfold action_pass.
  destruct (act g rn sb bb sb bt) as [b1 [q|]] eqn:E1; simpl.
  { eapply act_reasoning_log; eauto. }
  pose proof (act_reasoning_log _ _ _ _ _ _ _ _ E1 H0) as H1.
  destruct (act g rn sb bb bb b1) as [b2 [q|]] eqn:E2; simpl;
    pose proof (act_reasoning_log _ _ _ _ _ _ _ _ E2 H1) as H2; [done|].
  destruct (round_complete sb bb b2); simpl; [done|]. by apply IH.
Qed.

Lemma play_rounds_reasoning_log g a b rs : forall f0 st st' f,
  play_rounds g a b rs f0 st = (st', f) ->
  (length (reasoning_log st) <= length (round_log st) ->
   length (reasoning_log st') <= length (round_log st'))%nat.
Proof.
  induction rs as [|[rn n] rs IH]; intros f0 st st' f; simpl.
  - by intros [= <- _].
  - set (st1 := if (0 <? n)%nat then _ else st).
    intros Hrec H0.
    assert (H1 : (length (reasoning_log st1) <= length (round_log st1))%nat)
      by (subst st1; by destruct (0 <? n)%nat).
    clearbody st1.
    pose proof (action_passes_reasoning_log g rn a b 4 0
                  (mkBetting st1
                     (if bool_decide (rn = "preflop"%string)
                      then <[b:=0]> (<[a:=big_blind g - small_blind g]> ∅)
                      else <[b:=0]> (<[a:=0]> ∅))
                     (<[b:=false]> (<[a:=false]> ∅))) H1) as H2.
    fold (_run_betting_round g rn a b st1) in H2.
    destruct (truthy _); [by injection Hrec as <- _|].
    eapply IH; eauto.
Qed.

(** X7: a betting round logs at most 8 actions (4 passes over 2 players), so a
    hand logs at most 32; and the reasoning log, which only engine decisions
    reach, is never longer than the action log. *)
Theorem poker_hand_asks_at_most_32_decisions g player_a player_b wager :
  (forall round_name st,
     length (round_log (sim (after (_run_betting_round g round_name player_a player_b st))))
     <= 8 + length (round_log st))%nat /\
  (length (round_log (final (play g player_a player_b wager))) <= 32)%nat /\
  (length (reasoning_log (final (play g player_a player_b wager)))
   <= length (round_log (final (play g player_a player_b wager))))%nat.
Proof.
  split; [|split].
  - intros rn st. unfold _run_betting_round.
    etransitivity; [apply action_passes_round_log|]. simpl. lia.
  - rewrite play_final.
    destruct (play_rounds g player_a player_b rounds None (start g player_a player_b wager))
      as [st f] eqn:E. simpl.
    apply play_rounds_round_log in E. simpl in E. lia.
  - rewrite play_final.
    destruct (play_rounds g player_a player_b rounds None (start g player_a player_b wager))
      as [st f] eqn:E. simpl.
    eapply play_rounds_reasoning_log; [exact E|]. simpl. lia.
Qed.

(** X8: when the shuffle permutes the deck, the two hands, the community cards
    and the cards left in the deck are, in this order, the shuffled deck; board and deck
    together hold 48 cards, and no card left in the deck is among those
    dealt. *)
Theorem deck_is_dealt_without_replacement g player_a player_b wager :
  shuffle g fresh_deck ≡ₚ fresh_deck ->
  exists hand_a hand_b,
    hands (final (play g player_a player_b wager))
      = <[player_b := hand_b]> (<[player_a := hand_a]> ∅) /\
    hand_a ++ hand_b ++ community_cards (final (play g player_a player_b wager))
      ++ deck (final (play g player_a player_b wager)) = shuffle g fresh_deck /\
    (length (deck (final (play g player_a player_b wager)))
     + length (community_cards (final (play g player_a player_b wager))) = 48)%nat /\
    forall c : Card,
      c ∈ deck (final (play g player_a player_b wager)) ->
      c ∉ hand_a ++ hand_b ++ community_cards (final (play g player_a player_b wager)).
Proof.
  intros Hperm. set (d := shuffle g fresh_deck).
  assert (Hd : NoDup d).
  { unfold d. rewrite Hperm. apply NoDup_fresh_deck. }
  assert (Hdl : length d = 52%nat).
  { unfold d. rewrite Hperm. apply NoDup_fresh_deck. }
  exists (take 2 d), (take 2 (drop 2 d)).
  assert (Hd0 : dealt_from d (take 2 d) (take 2 (drop 2 d)) (start g player_a player_b wager)).
  { unfold start, dealt_from, reset, deal. fold d. simpl. by rewrite !take_drop. }
  rewrite play_final.
  destruct (play_rounds g player_a player_b rounds None (start g player_a player_b wager))
    as [st f] eqn:E. simpl.
  destruct (play_rounds_dealt _ _ _ _ _ _ _ _ _ _ _ E Hd0) as (Hd' & Hh' & _).
  unfold dealt_from in Hd'.
  split; [by rewrite Hh'|]. split; [exact Hd'|]. split.
  - apply (f_equal length) in Hd'. rewrite !length_app, !length_take, length_drop in Hd'. lia.
  - intros c Hc Hin. rewrite <- Hd' in Hd. rewrite !(assoc_L (++)) in Hd.
    apply NoDup_app in Hd as (_ & Hdis & _). apply (Hdis c); [|done].
    by rewrite <- !(assoc_L (++)).
Qed.

Lemma deck_is_dealt_without_replacement_witness :
  exists hand_a hand_b,
    hands (final (play call_down "A" "B" 1))
      = <["B"%string := hand_b]> (<["A"%string := hand_a]> ∅) /\
    hand_a ++ hand_b ++ community_cards (final (play call_down "A" "B" 1))
      ++ deck (final (play call_down "A" "B" 1)) = fresh_deck /\
    (length (deck (final (play call_down "A" "B" 1)))
     + length (community_cards (final (play call_down "A" "B" 1))) = 48)%nat.
Proof.
  destruct (deck_is_dealt_without_replacement call_down "A" "B" 1)
    as (hand_a & hand_b & Hh & Hd & Hl & _); [reflexivity|].
  exists hand_a, hand_b. split; [exact Hh|]. split; [exact Hd | exact Hl].
Defined.

End PokerGame.

(** ** games/auction.py: the sealed-bid auction *)

Module Auction.

Import Py.
Export Strategy.
Local Open Scope Q_scope.

Record Item := mkItem {
  name : string;
  min_value : Q;
  max_value : Q;
}.

Definition AUCTION_ITEMS : list Item :=
  [mkItem "Rare NFT Collection" (1 # 100) (5 # 100);
   mkItem "DeFi Yield Position" (5 # 1000) (3 # 100);
   mkItem "Governance Token Bundle" (8 # 1000) (4 # 100);
   mkItem "Exclusive Access Pass" (3 # 1000) (2 # 100);
   mkItem "Validator Stake Slot" (15 # 1000) (6 # 100)].

Record AuctionRound := mkAuctionRound {
  round_num : nat;
  item : Item;
  true_value : Q;
  bids : gmap string Q;
  winner : string;
  winning_bid : Q;
}.

(** An entry of [bid_history]. *)
Record HistoryEntry := mkHistoryEntry {
  h_round : nat;
  h_player : string;
  h_winning_bid : Q;
  h_true_value : Q;
}.

(** What [_get_bid] shows to the provider. *)
Record BidRequest := mkBidRequest {
  req_player : string;
  req_opponent : string;
  req_item : Item;
  req_estimated_value : Q;
  req_budget : Q;
  req_round_num : nat;
  req_total_rounds : nat;
  req_bid_history : list HistoryEntry;
}.

(** A Decision Provider: any object with a [decide_auction_bid] method; it
    returns the decision dictionary, of which the simulator reads
    ["bid_amount"] (possibly missing). *)
Definition Engine : Type := BidRequest -> option Q.

(** The draws of [random] in one round: the index [random.choice] picks
    in [self.items], the [random.random()] behind each [random.uniform], and
    whether [random.choice([player_a, player_b])] is [player_a]. *)
Record Draws := mkDraws {
  drawn_index : nat;
  drawn_unit : Q;
  drawn_fallback : string -> Q;
  drawn_tie : bool;
}.

(** [random.uniform(a, b)] is [a + (b - a) * random.random()]. *)
Definition uniform (u a b : Q) : Q := a + (b - a) * u.

Record Game := mkGame {
  strategy_engines : gmap string Engine;
  num_rounds : nat;
  items : list Item;
  draws : nat -> Draws;
}.

(** [AuctionGame(strategy_engines, num_rounds, items)], with
    [self.items = items or AUCTION_ITEMS]. *)
Definition new_game (engines : gmap string Engine) (num_rounds : nat)
  (items : list Item) (draws : nat -> Draws) : Game :=
  mkGame engines num_rounds
    (match items with [] => AUCTION_ITEMS | _ => items end) draws.

(** The mutable state of one [play()] call. *)
Record State := mkState {
  budgets : gmap string Q;
  profits : gmap string Q;
  bid_history : list HistoryEntry;
  rounds : list AuctionRound;
  reasoning_log : list (string * nat * Q);
}.

(** [_get_bid]: returns the decision's ["bid_amount"], if present. *)
Definition _get_bid (g : Game) (req : BidRequest) : option Q :=
  match strategy_engines g !! req_player req with
  | None =>
      let it := req_item req in
      let bid :=
        uniform (drawn_fallback (draws g (req_round_num req)) (req_player req))
          (min_value it * (8 # 10)) (max_value it * (7 # 10)) in
      Some (minq bid (req_budget req))
  | Some engine => engine req
  end.

(** The body of [for player in [player_a, player_b]]. *)
Definition collect_bid (g : Game) (player_a player_b : string) (st : State)
  (n : nat) (it : Item) (player : string)
  (acc : gmap string Q * list (string * nat * Q))
  : gmap string Q * list (string * nat * Q) :=
  let opponent := if bool_decide (player = player_a) then player_b else player_a in
  let bid_decision :=
    _get_bid g
      (mkBidRequest player opponent it ((min_value it + max_value it) / 2)
         (getq (budgets st) player) n (num_rounds g)
         (filter (fun h => h_player h = player) (bid_history st))) in
  let bid_amount := default 0 bid_decision in
  let bid_amount := maxq 0 (minq bid_amount (getq (budgets st) player)) in
  (<[player := bid_amount]> acc.1, acc.2 ++ [(player, n, bid_amount)]).

(** "Determine round winner": the strictly higher bid, a coin flip on a tie. *)
Definition pick_winner (player_a player_b : string) (bid_a bid_b : Q) (tie : bool)
  : string :=
  if Qltb bid_b bid_a then player_a
  else if Qltb bid_a bid_b then player_b
  else if tie then player_a else player_b.

(** The body of [for round_num in range(1, self.num_rounds + 1)]. *)
Definition play_round (g : Game) (player_a player_b : string) (st : State)
  (n : nat) : State :=
  let d := draws g n in
  let it := nth (drawn_index d mod length (items g)) (items g) (mkItem "" 0 0) in
  let true_value := uniform (drawn_unit d) (min_value it) (max_value it) in
  let '(bids, log) :=
    collect_bid g player_a player_b st n it player_b
      (collect_bid g player_a player_b st n it player_a (∅, reasoning_log st)) in
  let bid_a := getq bids player_a in
  let bid_b := getq bids player_b in
  let round_winner := pick_winner player_a player_b bid_a bid_b (drawn_tie d) in
  let winning_bid := getq bids round_winner in
  let profit := true_value - winning_bid in
  mkState
    (<[round_winner := getq (budgets st) round_winner - winning_bid]> (budgets st))
    (<[round_winner := getq (profits st) round_winner + profit]> (profits st))
    (bid_history st ++ [mkHistoryEntry n round_winner winning_bid true_value])
    (rounds st ++ [mkAuctionRound n it true_value bids round_winner winning_bid])
    log.

(** The state [play] starts from. *)
Definition start (player_a player_b : string) (wager : Q) : State :=
  mkState (<[player_b := wager]> (<[player_a := wager]> ∅))
          (<[player_b := 0]> (<[player_a := 0]> ∅)) [] [] [].

(** The state after the first [k] rounds. *)
Definition after_rounds (g : Game) (player_a player_b : string) (wager : Q)
  (k : nat) : State :=
  fold_left (play_round g player_a player_b) (seq 1 k) (start player_a player_b wager).

Record GameResult := mkGameResult {
  result_winner : string;
  result_loser : string;
  result_wager : Q;
  result_rounds : list AuctionRound;
  result_profits : gmap string Q;
  budgets_remaining : gmap string Q;
}.

(** [play(player_a, player_b, wager)] *)
Definition play (g : Game) (player_a player_b : string) (wager : Q) : GameResult :=
  let st := after_rounds g player_a player_b wager (num_rounds g) in
  let '(winner, loser) :=
    if Qltb (getq (profits st) player_b) (getq (profits st) player_a)
    then (player_a, player_b)
    else if Qltb (getq (profits st) player_a) (getq (profits st) player_b)
    then (player_b, player_a)
    else (player_a, player_b) in
  mkGameResult winner loser wager (rounds st) (profits st) (budgets st).

(** The bids a round records for the two players, in the order they are
    written. *)
Definition recorded (g : Game) (player_a player_b : string) (st : State) (n : nat)
  : gmap string Q :=
  let it := nth (drawn_index (draws g n) mod length (items g)) (items g) (mkItem "" 0 0) in
  (collect_bid g player_a player_b st n it player_b
     (collect_bid g player_a player_b st n it player_a (∅, reasoning_log st))).1.

(** *** Engines and games used as concrete inputs *)

(** The [decide_auction_bid] of a [StrategyEngine]. *)
Definition strategy_engine (llm : BidRequest -> RawBid) : Engine :=
  fun req => Some (decide_auction_bid (llm req) (req_budget req)).

Definition no_draw : nat -> Draws := fun _ => mkDraws 0 (1 # 2) (fun _ => 1 # 2) true.

(** Two [StrategyEngine] bidders whose model always asks to bid 1, over two
    rounds. *)
Definition big_bidders : Game :=
  new_game
    (<["B"%string := strategy_engine (fun _ => mkRawBid (Some 1))]>
       (<["A"%string := strategy_engine (fun _ => mkRawBid (Some 1))]> ∅))
    2 [] no_draw.

(** The round that [play_round] appends to [self.rounds]. *)
Definition round_of (g : Game) (player_a player_b : string) (st : State) (n : nat)
  : AuctionRound :=
  let d := draws g n in
  let it := nth (drawn_index d mod length (items g)) (items g) (mkItem "" 0 0) in
  let bids := recorded g player_a player_b st n in
  let w := pick_winner player_a player_b (getq bids player_a) (getq bids player_b)
             (drawn_tie d) in
  mkAuctionRound n it (uniform (drawn_unit d) (min_value it) (max_value it)) bids w
    (getq bids w).

(** The budget left to [p] after the rounds [rs], from the wager: the
    subtraction [budgets[round_winner] -= winning_bid] of each round [p] won,
    in order. *)
Definition budget_after (p : string) (wager : Q) (rs : list AuctionRound) : Q :=
  fold_left (fun acc r => if bool_decide (winner r = p) then acc - winning_bid r else acc)
    rs wager.

(** The profit of [p] over the rounds [rs]: the addition
    [profits[round_winner] += true_value - winning_bid] of each round [p] won,
    in order. *)
Definition profit_after (p : string) (rs : list AuctionRound) : Q :=
  fold_left
    (fun acc r =>
       if bool_decide (winner r = p) then acc + (true_value r - winning_bid r) else acc)
    rs 0.

(** *** Properties *)

(** *** Budgets and recorded bids *)





Lemma after_rounds_S g a b wager k :
  after_rounds g a b wager (S k)
  = play_round g a b (after_rounds g a b wager k) (S k).
Proof. unfold after_rounds. by rewrite seq_S, fold_left_app. Qed.






(** *** The rounds played *)

Lemma play_round_step g a b st n :
  rounds (play_round g a b st n) = rounds st ++ [round_of g a b st n] /\
  budgets (play_round g a b st n)
  = <[winner (round_of g a b st n) :=
        getq (budgets st) (winner (round_of g a b st n))
        - winning_bid (round_of g a b st n)]> (budgets st) /\
  profits (play_round g a b st n)
  = <[winner (round_of g a b st n) :=
        getq (profits st) (winner (round_of g a b st n))
        + (true_value (round_of g a b st n) - winning_bid (round_of g a b st n))]>
      (profits st).
Proof. done. Qed.

Lemma after_rounds_rounds g a b wager k :
  rounds (after_rounds g a b wager (S k))
  = rounds (after_rounds g a b wager k)
    ++ [round_of g a b (after_rounds g a b wager k) (S k)].
Proof. rewrite after_rounds_S. apply play_round_step. Qed.

Lemma play_rounds_result g a b wager :
  result_rounds (play g a b wager) = rounds (after_rounds g a b wager (num_rounds g)) /\
  result_profits (play g a b wager) = profits (after_rounds g a b wager (num_rounds g)) /\
  budgets_remaining (play g a b wager) = budgets (after_rounds g a b wager (num_rounds g)).
Proof. unfold play. destruct (Qltb _ _); [done|]. destruct (Qltb _ _); done. Qed.

Lemma round_of_winner g a b st n :
  (winner (round_of g a b st n) = a \/ winner (round_of g a b st n) = b) /\
  winning_bid (round_of g a b st n)
  = getq (bids (round_of g a b st n)) (winner (round_of g a b st n)) /\
  getq (bids (round_of g a b st n)) a <= winning_bid (round_of g a b st n) /\
  getq (bids (round_of g a b st n)) b <= winning_bid (round_of g a b st n).
Proof.
  unfold round_of. cbn [winner winning_bid bids].
  set (bids := recorded g a b st n). unfold pick_winner.
  destruct (Qltb (getq bids b) (getq bids a)) eqn:E1.
  - apply Qltb_lt in E1. repeat split; auto; lra.
  - apply Qltb_ge in E1. destruct (Qltb (getq bids a) (getq bids b)) eqn:E2.
    + apply Qltb_lt in E2. repeat split; auto; lra.
    + apply Qltb_ge in E2. destruct (drawn_tie _); repeat split; auto; lra.
Qed.

Lemma after_rounds_Forall g a b wager (P : AuctionRound -> Prop) :
  (forall st n, P (round_of g a b st n)) ->
  forall k, Forall P (rounds (after_rounds g a b wager k)).
Proof.
  intros HP. induction k as [|k IH]; [constructor|].
  rewrite after_rounds_rounds. apply Forall_app. split; [done|].
  apply Forall_singleton, HP.
Qed.

(** X9: in every round of an auction the round winner is one of the two
    players, the winning bid is the bid recorded for that player, and neither
    recorded bid is above it: the higher bid wins, a coin flip decides only
    between equal bids. *)
Theorem highest_bid_wins_the_round g player_a player_b wager :
  Forall (fun r =>
            (winner r = player_a \/ winner r = player_b) /\
            winning_bid r = getq (bids r) (winner r) /\
            getq (bids r) player_a <= winning_bid r /\
            getq (bids r) player_b <= winning_bid r)
    (result_rounds (play g player_a player_b wager)).
Proof.
  destruct (play_rounds_result g player_a player_b wager) as (-> & _ & _).
  apply after_rounds_Forall. apply round_of_winner.
Qed.

(** *** Budgets and profits *)

Lemma after_rounds_accounts g a b wager p k :
  a <> b -> p = a \/ p = b ->
  getq (budgets (after_rounds g a b wager k)) p
  = budget_after p wager (rounds (after_rounds g a b wager k)) /\
  getq (profits (after_rounds g a b wager k)) p
  = profit_after p (rounds (after_rounds g a b wager k)).
Proof.
  intros Hab Hp. unfold budget_after, profit_after. induction k as [|k [IHb IHp]].
  - unfold after_rounds. simpl. destruct Hp as [-> | ->];
      rewrite ?getq_insert, ?(getq_insert_ne _ b a) by done;
      rewrite ?getq_insert; done.
  - rewrite after_rounds_rounds, !fold_left_app, after_rounds_S.
    destruct (play_round_step g a b (after_rounds g a b wager k) (S k)) as (_ & -> & ->).
    set (r := round_of g a b (after_rounds g a b wager k) (S k)) in *.
    cbn [fold_left]. rewrite <- IHb, <- IHp. case_bool_decide as E.
    + by rewrite E, !getq_insert.
    + by rewrite !getq_insert_ne.
Qed.

(** X10: for two different players, the budget a player has left is the wager
    minus the winning bid of each round that player won, subtracted in round
    order, and the player's profit is the sum, in round order, of true value
    minus winning bid over those rounds; rounds the player lost change neither.
    Both are the same operations in the same order as the program's, so the
    equalities are exact. *)
Theorem budgets_and_profits_follow_the_rounds_won g player_a player_b wager p :
  player_a <> player_b -> p = player_a \/ p = player_b ->
  getq (budgets_remaining (play g player_a player_b wager)) p
  = budget_after p wager (result_rounds (play g player_a player_b wager)) /\
  getq (result_profits (play g player_a player_b wager)) p
  = profit_after p (result_rounds (play g player_a player_b wager)).
Proof.
  intros Hab Hp.
  destruct (play_rounds_result g player_a player_b wager) as (-> & -> & ->).
  by apply after_rounds_accounts.
Qed.

Lemma budgets_and_profits_follow_the_rounds_won_witness :
  getq (budgets_remaining (play big_bidders "A" "B" (1 # 64))) "A"
  = budget_after "A" (1 # 64) (result_rounds (play big_bidders "A" "B" (1 # 64))) /\
  getq (result_profits (play big_bidders "A" "B" (1 # 64))) "A"
  = profit_after "A" (result_rounds (play big_bidders "A" "B" (1 # 64))).
Proof.
  apply (budgets_and_profits_follow_the_rounds_won big_bidders "A" "B" (1 # 64) "A");
    [done | by left].
Defined.

(** *** A StrategyEngine bidder *)





(** *** Round numbers and values *)

Lemma uniform_range u lo hi : 0 <= u <= 1 -> lo <= hi -> lo <= uniform u lo hi <= hi.
Proof. unfold uniform. intros [H0 H1] Hl. split; nra. Qed.

Lemma after_rounds_numbers g a b wager k :
  map round_num (rounds (after_rounds g a b wager k)) = seq 1 k.
Proof.
  induction k as [|k IH]; [reflexivity|].
  rewrite after_rounds_rounds, map_app, IH, seq_S. reflexivity.
Qed.

(** X12: [play] records one round per round number 1, ..., [num_rounds], in
    order. With a non-empty item list whose ranges have min <= max, and draws
    of [random.random()] in [0, 1], every round's item is one of the list and
    its true value lies in the item's range (in exact arithmetic). *)
Theorem rounds_are_numbered_and_valued_in_range g player_a player_b wager :
  items g <> [] ->
  (forall it, it ∈ items g -> min_value it <= max_value it) ->
  (forall n, 0 <= drawn_unit (draws g n) <= 1) ->
  map round_num (result_rounds (play g player_a player_b wager)) = seq 1 (num_rounds g) /\
  forall r, r ∈ result_rounds (play g player_a player_b wager) ->
    item r ∈ items g /\ min_value (item r) <= true_value r <= max_value (item r).
Proof.
  intros Hne Hit Hu.
  destruct (play_rounds_result g player_a player_b wager) as (-> & _ & _).
  split; [apply after_rounds_numbers|].
  apply Forall_forall, after_rounds_Forall. intros st n.
  unfold round_of. cbn [item true_value].
  set (it := nth _ (items g) _).
  assert (Hin : it ∈ items g).
  { subst it. apply list_elem_of_In, nth_In, Nat.mod_upper_bound.
    destruct (items g); [done | simpl; lia]. }
  split; [exact Hin|]. apply uniform_range; auto.
Qed.

Lemma rounds_are_numbered_and_valued_in_range_witness :
  map round_num (result_rounds (play big_bidders "A" "B" (1 # 64))) = [1; 2]%nat /\
  Forall (fun r => min_value (item r) <= true_value r <= max_value (item r))
    (result_rounds (play big_bidders "A" "B" (1 # 64))).
Proof.
  destruct (rounds_are_numbered_and_valued_in_range big_bidders "A" "B" (1 # 64))
    as [Hn Hv].
  - done.
  - intros it Hit. unfold big_bidders, new_game in Hit. cbn [items] in Hit.
    unfold AUCTION_ITEMS in Hit. rewrite !elem_of_cons, elem_of_nil in Hit.
    destruct Hit as [-> | [-> | [-> | [-> | [-> | []]]]]]; vm_compute; discriminate.
  - intros n. split; vm_compute; discriminate.
  - split; [exact Hn|]. apply Forall_forall. intros r Hr. exact (proj2 (Hv r Hr)).
Defined.

(** X13: for two different players, the auction's winner is the player whose
    rounds won add up to the strictly higher profit; with equal profits
    player A is the winner. The loser is the other player. *)
Theorem auction_goes_to_the_higher_total_profit g player_a player_b wager :
  player_a <> player_b ->
  (result_winner (play g player_a player_b wager) = player_a /\
   result_loser (play g player_a player_b wager) = player_b /\
   profit_after player_b (result_rounds (play g player_a player_b wager))
   <= profit_after player_a (result_rounds (play g player_a player_b wager))) \/
  (result_winner (play g player_a player_b wager) = player_b /\
   result_loser (play g player_a player_b wager) = player_a /\
   profit_after player_a (result_rounds (play g player_a player_b wager))
   < profit_after player_b (result_rounds (play g player_a player_b wager))).
Proof.
  intros Hab.
  destruct (play_rounds_result g player_a player_b wager) as (-> & _ & _).
  destruct (after_rounds_accounts g player_a player_b wager player_a (num_rounds g) Hab
              (or_introl eq_refl)) as [_ <-].
  destruct (after_rounds_accounts g player_a player_b wager player_b (num_rounds g) Hab
              (or_intror eq_refl)) as [_ <-].
  unfold play.
  destruct (Qltb (getq (profits _) player_b) (getq (profits _) player_a)) eqn:E1.
  - left. apply Qltb_lt in E1. cbn [result_winner result_loser]. repeat split. lra.
  - apply Qltb_ge in E1.
    destruct (Qltb (getq (profits _) player_a) (getq (profits _) player_b)) eqn:E2.
    + right. apply Qltb_lt in E2. cbn [result_winner result_loser]. repeat split. lra.
    + left. apply Qltb_ge in E2. cbn [result_winner result_loser]. repeat split. lra.
Qed.

Lemma auction_goes_to_the_higher_total_profit_witness :
  (result_winner (play big_bidders "A" "B" (1 # 64)) = "A"%string /\
   result_loser (play big_bidders "A" "B" (1 # 64)) = "B"%string /\
   profit_after "B" (result_rounds (play big_bidders "A" "B" (1 # 64)))
   <= profit_after "A" (result_rounds (play big_bidders "A" "B" (1 # 64)))) \/
  (result_winner (play big_bidders "A" "B" (1 # 64)) = "B"%string /\
   result_loser (play big_bidders "A" "B" (1 # 64)) = "A"%string /\
   profit_after "A" (result_rounds (play big_bidders "A" "B" (1 # 64)))
   < profit_after "B" (result_rounds (play big_bidders "A" "B" (1 # 64)))).
Proof. apply (auction_goes_to_the_higher_total_profit big_bidders "A" "B" (1 # 64)). done. Defined.

End Auction.

(** ** games/rpg_battle.py: the combat simulator *)

Module Rpg.

Import Py.
Local Open Scope Z_scope.

(** *** Classes and abilities *)

Inductive Stat := Atk | Defense | Speed.
Inductive AbilityType := physical | magic | defend | heal | cleanse.
Inductive ClassName := warrior | mage | rogue | healer.

#[global] Instance Stat_eq_dec : EqDecision Stat.
Proof. solve_decision. Defined.
#[global] Instance AbilityType_eq_dec : EqDecision AbilityType.
Proof. solve_decision. Defined.
#[global] Instance ClassName_eq_dec : EqDecision ClassName.
Proof. solve_decision. Defined.

(** A timed modifier [{"stat", "amount", "turns"}]: an entry of
    [Fighter.buffs] and the shape of the ["debuff"] and ["self_debuff"]
    templates. *)
Record Buff := mkBuff { buff_stat : Stat; buff_amount : Z; buff_turns : Z }.

(** A damage-over-time entry [{"damage", "turns"}]. *)
Record Dot := mkDot { dot_damage : Z; dot_turns : Z }.

Record Ability := mkAbility {
  damage : Z;
  mp_cost : Z;
  type : AbilityType;
  desc : string;
  debuff : option Buff;
  self_debuff : option Buff;
  dot : option Dot;
  mp_restore : option Z;
  heal_amount : option Z;
}.

Record Class := mkClass {
  cls_name : string;
  cls_hp : Z;
  cls_mp : Z;
  cls_atk : Z;
  cls_defense : Z;
  cls_speed : Z;
  abilities : list (string * Ability);
}.

(** An attack with nothing attached. *)
Definition attack (dmg cost : Z) (t : AbilityType) (d : string) : Ability :=
  mkAbility dmg cost t d None None None None None.

Definition CLASSES (c : ClassName) : Class :=
  match c with
  | warrior =>
      mkClass "Warrior" 120 40 18 14 8
        [("slash"%string, attack 22 0 physical "Basic sword slash");
         ("shield_bash"%string,
          mkAbility 15 8 physical "Stun strike, reduces opponent ATK by 3 for 2 turns"
            (Some (mkBuff Atk (-3) 2)) None None None None);
         ("berserk"%string,
          mkAbility 35 15 physical "Powerful attack but lowers own defense by 4 for 2 turns"
            None (Some (mkBuff Defense (-4) 2)) None None None);
         ("defend"%string,
          mkAbility 0 0 defend "Block stance, halves incoming damage this turn and restores 5 MP"
            None None None (Some 5) None);
         ("heal"%string,
          mkAbility 0 12 heal "Bandage wounds, restore 25 HP" None None None None (Some 25))]
  | mage =>
      mkClass "Mage" 80 100 10 8 10
        [("fireball"%string, attack 30 15 magic "Hurls a fireball dealing 30 magic damage");
         ("ice_shard"%string,
          mkAbility 18 8 magic "Ice projectile, slows opponent (speed -3 for 2 turns)"
            (Some (mkBuff Speed (-3) 2)) None None None None);
         ("arcane_burst"%string,
          attack 45 30 magic "Devastating arcane explosion, very high damage");
         ("defend"%string,
          mkAbility 0 0 defend "Magical barrier, halves damage this turn and restores 8 MP"
            None None None (Some 8) None);
         ("heal"%string,
          mkAbility 0 10 heal "Healing light, restore 20 HP" None None None None (Some 20))]
  | rogue =>
      mkClass "Rogue" 90 60 16 10 16
        [("backstab"%string,
          attack 25 5 physical "Quick stab, bonus damage if faster than opponent");
         ("poison_blade"%string,
          mkAbility 12 10 physical "Poison strike, deals 8 damage per turn for 3 turns"
            None None (Some (mkDot 8 3)) None None);
         ("shadow_strike"%string,
          attack 38 20 physical "Critical strike from the shadows, high damage");
         ("defend"%string,
          mkAbility 0 0 defend "Evasive dodge, halves damage this turn and restores 6 MP"
            None None None (Some 6) None);
         ("heal"%string,
          mkAbility 0 10 heal "Quick bandage, restore 18 HP" None None None None (Some 18))]
  | healer =>
      mkClass "Healer" 100 90 10 12 9
        [("smite"%string, attack 16 5 magic "Holy damage strike");
         ("divine_heal"%string,
          mkAbility 0 15 heal "Powerful healing, restore 40 HP" None None None None (Some 40));
         ("holy_fire"%string,
          mkAbility 28 18 magic "Sacred fire, burns for 6 damage over 2 turns"
            None None (Some (mkDot 6 2)) None None);
         ("defend"%string,
          mkAbility 0 0 defend "Prayer shield, halves damage and restores 8 MP"
            None None None (Some 8) None);
         ("purify"%string,
          mkAbility 0 10 cleanse "Remove all debuffs and DoTs, restore 10 HP"
            None None None None (Some 10))]
  end.

(** [PERSONALITY_CLASS.get(personality, "mage")] *)
Definition PERSONALITY_CLASS (personality : string) : ClassName :=
  if bool_decide (personality = "aggressive"%string) then warrior
  else if bool_decide (personality = "conservative"%string) then healer
  else if bool_decide (personality = "balanced"%string) then mage
  else if bool_decide (personality = "adaptive"%string) then rogue
  else mage.

(** [d.get(name)] on a dictionary kept in insertion order. *)
Fixpoint assoc {A} (name : string) (l : list (string * A)) : option A :=
  match l with
  | [] => None
  | (k, v) :: t => if bool_decide (k = name) then Some v else assoc name t
  end.

(** *** The fighter *)

Record Fighter := mkFighter {
  address : string;
  class_name : ClassName;
  name : string;
  hp : Z;
  max_hp : Z;
  mp : Z;
  max_mp : Z;
  atk : Z;
  defense : Z;
  speed : Z;
  buffs : list Buff;
  dots : list Dot;
  is_defending : bool;
}.

Definition set_hp (f : Fighter) (v : Z) : Fighter :=
  mkFighter (address f) (class_name f) (name f) v (max_hp f) (mp f) (max_mp f)
    (atk f) (defense f) (speed f) (buffs f) (dots f) (is_defending f).
Definition set_mp (f : Fighter) (v : Z) : Fighter :=
  mkFighter (address f) (class_name f) (name f) (hp f) (max_hp f) v (max_mp f)
    (atk f) (defense f) (speed f) (buffs f) (dots f) (is_defending f).
Definition set_buffs (f : Fighter) (v : list Buff) : Fighter :=
  mkFighter (address f) (class_name f) (name f) (hp f) (max_hp f) (mp f) (max_mp f)
    (atk f) (defense f) (speed f) v (dots f) (is_defending f).
Definition set_dots (f : Fighter) (v : list Dot) : Fighter :=
  mkFighter (address f) (class_name f) (name f) (hp f) (max_hp f) (mp f) (max_mp f)
    (atk f) (defense f) (speed f) (buffs f) v (is_defending f).
Definition set_is_defending (f : Fighter) (v : bool) : Fighter :=
  mkFighter (address f) (class_name f) (name f) (hp f) (max_hp f) (mp f) (max_mp f)
    (atk f) (defense f) (speed f) (buffs f) (dots f) v.

(** [getattr(self, stat)] for the three stats a modifier can name. *)
Definition base_stat (f : Fighter) (stat : Stat) : Z :=
  match stat with Atk => atk f | Defense => defense f | Speed => speed f end.

(** [Fighter.effective_stat(stat)] *)
Definition effective_stat (f : Fighter) (stat : Stat) : Z :=
  let base := base_stat f stat in
  let modifier :=
    sum (map buff_amount (filter (fun b => buff_stat b = stat) (buffs f))) in
  Z.max 1 (base + modifier).

(** [Fighter.tick_effects()]: the fighter after the tick and the total
    damage-over-time returned. Every entry of [dots] and [buffs] is a
    dictionary built by [_resolve_ability] for this list alone, so
    decrementing it in place changes nothing else. *)
Definition tick_effects (f : Fighter) : Fighter * Z :=
  let dot_dmg := fold_left (fun acc d => acc + dot_damage d) (dots f) 0 in
  let ticked := map (fun d => mkDot (dot_damage d) (dot_turns d - 1)) (dots f) in
  let f := set_dots f (filter (fun d => 0 < dot_turns d) ticked) in
  let ticked := map (fun b => mkBuff (buff_stat b) (buff_amount b) (buff_turns b - 1)) (buffs f) in
  let f := set_buffs f (filter (fun b => 0 < buff_turns b) ticked) in
  let f := set_is_defending f false in
  (f, dot_dmg).

(** [Fighter.alive()] *)
Definition alive (f : Fighter) : bool := 0 <? hp f.

(** [create_fighter(address, class_name)] *)
Definition create_fighter (address : string) (class_name : ClassName) : Fighter :=
  let cls := CLASSES class_name in
  mkFighter address class_name (cls_name cls) (cls_hp cls) (cls_hp cls)
    (cls_mp cls) (cls_mp cls) (cls_atk cls) (cls_defense cls) (cls_speed cls)
    [] [] false.

(** *** The battle *)

Inductive Side := SideA | SideB.

Definition other (s : Side) : Side :=
  match s with SideA => SideB | SideB => SideA end.

(** An entry of [turn_log] (the display strings are left out). *)
Record LogEntry := mkLogEntry {
  log_turn : nat;
  log_attacker : string;
  log_ability : string;
  log_type : AbilityType;
  log_damage : option Z;
  log_defender_hp : option Z;
}.

(** The events [play] emits. *)
Inductive Event :=
  | rpg_init (class_a class_b : ClassName) (max_hp_a max_hp_b : Z)
      (player_a_addr player_b_addr : string)
  | rpg_turn (turn_num : nat) (attacker_addr : string) (entry : LogEntry)
      (hp_a hp_b mp_a mp_b : Z)
  | rpg_end (final_hp_a final_hp_b : Z).

(** A Python exception. *)
Definition Exn : Type := string.

(** A Decision Provider: an object that may carry a [personality] and has a
    [decide_rpg_action] method, shown the turn, both fighters and the names
    of the affordable abilities; the ["ability"] key of its answer may be
    missing. *)
Record Engine := mkEngine {
  personality : option string;
  decide_rpg_action : nat -> Fighter -> Fighter -> list string -> option string;
}.

(** The simulator instance. [event_callback] returns [Some e] when the
    call raises [e]; [rand_class] and [rand_choice] are the draws of
    [random.choice]. *)
Record Game := mkGame {
  strategy_engines : gmap string Engine;
  class_overrides : gmap string ClassName;
  MAX_TURNS : nat;
  event_callback : option (Event -> option Exn);
  rand_class : string -> ClassName;
  rand_choice : nat -> string -> nat;
}.

(** The mutable state of one [play()] call. [history] is a ghost of the
    model: the pair of fighters after every assignment to one of them,
    oldest first. *)
Record State := mkState {
  fighter_a : Fighter;
  fighter_b : Fighter;
  turn_log : list LogEntry;
  reasoning_log : list (string * nat * string);
  history : list (Fighter * Fighter);
}.

Definition fighter (st : State) (s : Side) : Fighter :=
  match s with SideA => fighter_a st | SideB => fighter_b st end.

(** An assignment to an attribute of the fighter on side [s]. *)
Definition put (s : Side) (f : Fighter) (st : State) : State :=
  match s with
  | SideA =>
      mkState f (fighter_b st) (turn_log st) (reasoning_log st)
        (history st ++ [(f, fighter_b st)])
  | SideB =>
      mkState (fighter_a st) f (turn_log st) (reasoning_log st)
        (history st ++ [(fighter_a st, f)])
  end.

(** [_emit(event)]: the callback is called when one is installed, and
    nothing around the call catches what it raises. *)
Definition _emit (g : Game) (event : Event) : option Exn :=
  match event_callback g with
  | Some callback => callback event
  | None => None
  end.

(** [_pick_class(address)] *)
Definition _pick_class (g : Game) (address : string) : ClassName :=
  match class_overrides g !! address with
  | Some c => c
  | None =>
      match strategy_engines g !! address with
      | Some (mkEngine (Some p) _) => PERSONALITY_CLASS p
      | _ => rand_class g address
      end
  end.

(** [_get_decision(address, attacker, defender, turn)]: the validated
    ability name, [decision["ability"]]. *)
Definition _get_decision (g : Game) (address : string) (attacker defender : Fighter)
  (turn : nat) (st : State) : string * State :=
  let cls := CLASSES (class_name attacker) in
  let available :=
    filter (fun '(_, info) => mp_cost info <= mp attacker) (abilities cls) in
  let available :=
    match available with
    | [] => match assoc "defend" (abilities cls) with
            | Some info => [("defend"%string, info)]
            | None => []
            end
    | _ => available
    end in
  let names := map fst available in
  let answer :=
    match strategy_engines g !! address with
    | None => Some (nth (rand_choice g turn address mod length names) names ""%string)
    | Some engine => decide_rpg_action engine turn attacker defender names
    end in
  let ability := default ""%string answer in
  let ability :=
    if bool_decide (ability ∈ names) then ability else nth 0 names ""%string in
  (ability,
   mkState (fighter_a st) (fighter_b st) (turn_log st)
     (reasoning_log st ++ [(address, turn, ability)]) (history st)).

(** [int(x)] on a float: truncation toward zero. *)
Definition int (x : Q) : Z := Z.quot (Qnum x) (Z.pos (Qden x)).

(** The damage of a physical or magic ability, before the defender's
    stance is looked at. *)
Definition base_formula (ability_name : string) (ability : Ability)
  (attacker defender : Fighter) : Z :=
  let base_damage := inject_Z (damage ability) in
  let dmg :=
    if bool_decide (type ability = physical) then
      let atk_mod := (inject_Z (effective_stat attacker Atk) / 15)%Q in
      let def_mod := (inject_Z (effective_stat defender Defense) / 20)%Q in
      Z.max 1 (int (base_damage * atk_mod - base_damage * def_mod * (3 # 10))%Q)
    else
      Z.max 1 (int (base_damage * (9 # 10)
                    + inject_Z (effective_stat attacker Atk) * (2 # 10)
                    - inject_Z (effective_stat defender Defense) * (15 # 100))%Q) in
  if bool_decide (ability_name = "backstab"%string)
     && (effective_stat defender Speed <? effective_stat attacker Speed)
  then int (inject_Z dmg * (14 # 10))%Q
  else dmg.

(** [_resolve_ability(attacker, defender, ability_name, turn)], with the
    attacker on side [att]. *)
Definition _resolve_ability (att : Side) (ability_name : string) (turn : nat)
  (st : State) : State :=
  let def := other att in
  let cls := CLASSES (class_name (fighter st att)) in
  match assoc ability_name (abilities cls) with
  | None => st
  | Some ability =>
      (* Spend MP *)
      let a := fighter st att in
      let st := put att (set_mp a (Z.max 0 (mp a - mp_cost ability))) st in
      let entry := mkLogEntry turn (name (fighter st att)) ability_name (type ability) in
      let '(st, entry) :=
        match type ability with
        | defend =>
            let st := put att (set_is_defending (fighter st att) true) st in
            let mp_restore := default 0 (mp_restore ability) in
            let a := fighter st att in
            let st := put att (set_mp a (Z.min (max_mp a) (mp a + mp_restore))) st in
            (st, entry None None)
        | heal =>
            let heal := default 0 (heal_amount ability) in
            let a := fighter st att in
            let st := put att (set_hp a (Z.min (max_hp a) (hp a + heal))) st in
            (st, entry None None)
        | cleanse =>
            let st := put att (set_dots (fighter st att) []) st in
            let a := fighter st att in
            let st := put att (set_buffs a (filter (fun b => 0 < buff_amount b) (buffs a))) st in
            let heal := default 0 (heal_amount ability) in
            let a := fighter st att in
            let st := put att (set_hp a (Z.min (max_hp a) (hp a + heal))) st in
            (st, entry None None)
        | _ =>
            let dmg := base_formula ability_name ability (fighter st att) (fighter st def) in
            (* Defending halves damage *)
            let dmg := if is_defending (fighter st def) then Z.max 1 (dmg / 2) else dmg in
            (* Apply damage *)
            let d := fighter st def in
            let st := put def (set_hp d (Z.max 0 (hp d - dmg))) st in
            let entry := entry (Some dmg) (Some (hp (fighter st def))) in
            let st :=
              match debuff ability with
              | Some b =>
                  let d := fighter st def in
                  put def (set_buffs d (buffs d ++ [b])) st
              | None => st
              end in
            let st :=
              match self_debuff ability with
              | Some b =>
                  let a := fighter st att in
                  put att (set_buffs a (buffs a ++ [b])) st
              | None => st
              end in
            let st :=
              match dot ability with
              | Some d0 =>
                  let d := fighter st def in
                  put def (set_dots d (dots d ++ [d0])) st
              | None => st
              end in
            (st, entry)
        end in
      mkState (fighter_a st) (fighter_b st) (turn_log st ++ [entry])
        (reasoning_log st) (history st)
  end.

(** How the body of [for attacker_addr, attacker, defender in order] ends. *)
Inductive Control := Next | Break | Raised (e : Exn).

(** The body of the inner loop of [play], for the fighter on side [att]. *)
Definition sub_turn (g : Game) (player_a player_b : string) (att : Side)
  (turn : nat) (st : State) : State * Control :=
  let def := other att in
  let attacker_addr := match att with SideA => player_a | SideB => player_b end in
  if negb (alive (fighter st att)) || negb (alive (fighter st def)) then (st, Break)
  else
    (* Tick DoTs and buffs at start of each fighter's action *)
    let '(ticked, dot_dmg) := tick_effects (fighter st att) in
    let st := put att ticked st in
    let st :=
      if 0 <? dot_dmg then
        let a := fighter st att in put att (set_hp a (Z.max 0 (hp a - dot_dmg))) st
      else st in
    if (0 <? dot_dmg) && negb (alive (fighter st att)) then (st, Break)
    else
      let '(ability_name, st) :=
        _get_decision g attacker_addr (fighter st att) (fighter st def) turn st in
      let st := _resolve_ability att ability_name turn st in
      let raised :=
        match last (turn_log st) with
        | Some log_entry =>
            _emit g (rpg_turn turn attacker_addr log_entry
                       (hp (fighter_a st)) (hp (fighter_b st))
                       (mp (fighter_a st)) (mp (fighter_b st)))
        | None => None
        end in
      match raised with
      | Some e => (st, Raised e)
      | None => if negb (alive (fighter st def)) then (st, Break) else (st, Next)
      end.

(** The inner loop over [order]; [Some e] when the callback raised [e]. *)
Fixpoint act_in_order (g : Game) (player_a player_b : string) (turn : nat)
  (order : list Side) (st : State) : State * option Exn :=
  match order with
  | [] => (st, None)
  | att :: rest =>
      let '(st, c) := sub_turn g player_a player_b att turn st in
      match c with
      | Next => act_in_order g player_a player_b turn rest st
      | Break => (st, None)
      | Raised e => (st, Some e)
      end
  end.

(** "Determine turn order by speed". *)
Definition turn_order (st : State) : list Side :=
  if effective_stat (fighter_b st) Speed <=? effective_stat (fighter_a st) Speed
  then [SideA; SideB] else [SideB; SideA].

(** The battle loop [for turn in range(1, self.MAX_TURNS + 1)]. *)
Fixpoint battle_loop (g : Game) (player_a player_b : string) (turns : list nat)
  (st : State) : State * option Exn :=
  match turns with
  | [] => (st, None)
  | turn :: rest =>
      let '(st, raised) := act_in_order g player_a player_b turn (turn_order st) st in
      match raised with
      | Some e => (st, Some e)
      | None =>
          if negb (alive (fighter_a st)) || negb (alive (fighter_b st)) then (st, None)
          else battle_loop g player_a player_b rest st
      end
  end.

Record GameResult := mkGameResult {
  winner : string;
  loser : string;
  wager : Q;
  class_a : ClassName;
  class_b : ClassName;
  final_hp_a : Z;
  final_hp_b : Z;
  win_method : string;
  result_turn_log : list LogEntry;
  rounds_played : nat;
}.

(** The state [play] builds before it emits anything. *)
Definition start (g : Game) (player_a player_b : string) : State :=
  let fa := create_fighter player_a (_pick_class g player_a) in
  let fb := create_fighter player_b (_pick_class g player_b) in
  mkState fa fb [] [] [(fa, fb)].

(** "Determine winner" and the construction of the result. *)
Definition conclude (player_a player_b : string) (wager : Q) (st : State) : GameResult :=
  let fa := fighter_a st in
  let fb := fighter_b st in
  let '(winner, loser) :=
    if alive fa && negb (alive fb) then (player_a, player_b)
    else if alive fb && negb (alive fa) then (player_b, player_a)
    else if hp fb <? hp fa then (player_a, player_b)
    else if hp fa <? hp fb then (player_b, player_a)
    else (player_a, player_b) in
  (* self.fighters = {player_a: fighter_a, player_b: fighter_b} *)
  let loser_fighter := if bool_decide (loser = player_b) then fb else fa in
  let win_method := if negb (alive loser_fighter) then "KO"%string else "HP advantage"%string in
  mkGameResult winner loser wager (class_name fa) (class_name fb) (hp fa) (hp fb)
    win_method (turn_log st) (length (turn_log st)).

(** [play(player_a, player_b, wager)]: the exception that escaped or the
    result returned, and the final state. *)
Definition play (g : Game) (player_a player_b : string) (wager : Q)
  : (Exn + GameResult) * State :=
  let st := start g player_a player_b in
  match _emit g (rpg_init (class_name (fighter_a st)) (class_name (fighter_b st))
                   (max_hp (fighter_a st)) (max_hp (fighter_b st)) player_a player_b) with
  | Some e => (inl e, st)
  | None =>
      let '(st, raised) := battle_loop g player_a player_b (seq 1 (MAX_TURNS g)) st in
      match raised with
      | Some e => (inl e, st)
      | None =>
          let result := conclude player_a player_b wager st in
          match _emit g (rpg_end (hp (fighter_a st)) (hp (fighter_b st))) with
          | Some e => (inl e, st)
          | None => (inr result, st)
          end
      end
  end.

(** *** Effective stats *)

(** The specification's reading of "the sum of the amounts of the active
    modifiers on that stat". *)
Fixpoint modifier_total (stat : Stat) (bs : list Buff) : Z :=
  match bs with
  | [] => 0
  | b :: rest =>
      (if bool_decide (buff_stat b = stat) then buff_amount b else 0)
      + modifier_total stat rest
  end.

(** A warrior whose attack carries modifiers of -100 and -3. *)
Definition crippled_warrior : Fighter :=
  set_buffs (create_fighter "0x111" warrior) [mkBuff Atk (-100) 2; mkBuff Atk (-3) 1].

(** *** Damage over time *)

(** [k] ticks in a row. *)
Definition ticks (k : nat) (f : Fighter) : Fighter :=
  Nat.iter k (fun f => (tick_effects f).1) f.

(** An entry after [k] more ticks. *)
Definition aged (k : nat) (d : Dot) : Dot :=
  mkDot (dot_damage d) (dot_turns d - Z.of_nat k).

(** An entry that still has turns left. *)
Definition active (d : Dot) : Prop := 0 < dot_turns d.

#[global] Instance active_dec d : Decision (active d).
Proof. unfold active. apply _. Defined.

(** A warrior poisoned twice: 8 per turn for 2 more turns and 6 per turn
    for 3 more turns. *)
Definition poisoned_warrior : Fighter :=
  set_dots (create_fighter "0x111" warrior) [mkDot 8 2; mkDot 6 3].

(** A rogue facing a warrior that is already poisoned. *)
Definition rogue_vs_poisoned : State :=
  mkState (create_fighter "0xAAA" rogue) poisoned_warrior [] [] [].

(** *** HP and MP stay within their bounds *)

Definition in_range (f : Fighter) : Prop :=
  0 <= hp f <= max_hp f /\ 0 <= mp f <= max_mp f.

(** Both fighters of a snapshot are within their bounds. *)
Definition both_in_range (p : Fighter * Fighter) : Prop :=
  in_range p.1 /\ in_range p.2.

(** The history is in step with the state: its last snapshot is the
    current pair of fighters, so no assignment went unrecorded. *)
Definition in_step (st : State) : Prop :=
  last (history st) = Some (fighter_a st, fighter_b st).

(** Every snapshot taken so far, and the current pair, are within bounds,
    and the history is in step. *)
Definition good (st : State) : Prop :=
  Forall both_in_range (history st) /\
  in_range (fighter_a st) /\ in_range (fighter_b st) /\ in_step st.

(** *** The event callback *)



(** *** Games used as concrete inputs *)

Definition duel (callback : option (Event -> option Exn)) : Game :=
  mkGame ∅ (<["B"%string := mage]> (<["A"%string := warrior]> ∅)) 20 callback
    (fun _ => mage) (fun _ _ => 0%nat).


(** What an entry of the turn log records: an attack logs the damage dealt
    and the HP it left, anything else logs neither. *)
Definition entry_ok (e : LogEntry) : Prop :=
  match log_type e with
  | physical | magic =>
      exists d h, log_damage e = Some d /\ log_defender_hp e = Some h /\ 1 <= d /\ 0 <= h
  | _ => log_damage e = None /\ log_defender_hp e = None
  end.

(** *** Who is standing *)

Definition both_alive (st : State) : bool := alive (fighter_a st) && alive (fighter_b st).

Definition one_alive (st : State) : bool := alive (fighter_a st) || alive (fighter_b st).

(** *** Timed modifiers *)

(** A modifier after [k] more ticks. *)
Definition aged_buff (k : nat) (b : Buff) : Buff :=
  mkBuff (buff_stat b) (buff_amount b) (buff_turns b - Z.of_nat k).

(** A modifier that still has turns left. *)
Definition lasting (b : Buff) : Prop := 0 < buff_turns b.

#[global] Instance lasting_dec b : Decision (lasting b).
Proof. unfold lasting. apply _. Defined.

(** A healer carrying a poison, an attack debuff and a speed bonus, facing
    a warrior. *)
Definition cursed_healer : State :=
  mkState
    (set_buffs (set_dots (create_fighter "0xAAA" healer) [mkDot 8 3])
       [mkBuff Atk (-3) 2; mkBuff Speed 2 1])
    (create_fighter "0xBBB" warrior) [] [] [].

(** *** A StrategyEngine behind the simulator's validation *)

(** The names [_get_decision] offers to the engine: the keys of
    [available], in the order of the class's dictionary. *)
Definition available_names (attacker : Fighter) : list string :=
  let cls := CLASSES (class_name attacker) in
  let available :=
    filter (fun '(_, info) => mp_cost info <= mp attacker) (abilities cls) in
  let available :=
    match available with
    | [] => match assoc "defend" (abilities cls) with
            | Some info => [("defend"%string, info)]
            | None => []
            end
    | _ => available
    end in
  map fst available.

(** An engine of the aggressive personality whose model always asks for
    ["berserk"], validated as [StrategyEngine.decide_rpg_action] does. *)
Definition berserker : Engine :=
  mkEngine (Some "aggressive"%string)
    (fun _ _ _ names => Strategy.decide_rpg_action (Some "berserk"%string) names).

Definition berserker_duel : Game :=
  mkGame (<["A"%string := berserker]> ∅) ∅ 20 None (fun _ => mage) (fun _ _ => 0%nat).

(** *** Properties *)

Lemma sum_from (l : list Z) : forall a, fold_left Z.add l a = a + sum l.
Proof.
  unfold sum. induction l as [|x l IH]; intros a; simpl; [lia|].
  rewrite (IH (a + x)), (IH (0 + x)). lia.
Qed.

Lemma sum_cons x l : sum (x :: l) = x + sum l.
Proof. unfold sum at 1. simpl. apply sum_from. Qed.

Lemma sum_filter_modifier_total stat bs :
  sum (map buff_amount (filter (fun b => buff_stat b = stat) bs)) = modifier_total stat bs.
Proof.
  induction bs as [|b bs IH]; simpl; [reflexivity|].
  rewrite filter_cons. case_bool_decide as E.
  - rewrite decide_True by exact E. simpl. rewrite sum_cons, IH. reflexivity.
  - rewrite decide_False by exact E. rewrite IH. lia.
Qed.

(** *** The cases of tests/test_rpg_battle.py, on the model *)

Example test_resolve_ability :
  let duel_of a b := mkState a b [] [] [] in
  let w := create_fighter "0x111" warrior in
  let m := create_fighter "0x222" mage in
  (* defend restores 5 MP, heal restores 25 HP up to the maximum *)
  mp (fighter_a (_resolve_ability SideA "defend" 1 (duel_of (set_mp w 10) m))) = 15 /\
  hp (fighter_a (_resolve_ability SideA "heal" 1 (duel_of (set_hp w 50) m))) = 75 /\
  hp (fighter_a (_resolve_ability SideA "heal" 1 (duel_of (set_hp w 110) m))) = 120 /\
  (* slash deals 23 to a mage, 11 to a defending one; fireball costs 15 MP *)
  hp (fighter_b (_resolve_ability SideA "slash" 1 (duel_of w m))) = 57 /\
  hp (fighter_b (_resolve_ability SideA "slash" 1 (duel_of w (set_is_defending m true)))) = 69 /\
  mp (fighter_a (_resolve_ability SideA "fireball" 1 (duel_of m w))) = 85 /\
  (* shield_bash and poison_blade attach their effects to the defender *)
  buffs (fighter_b (_resolve_ability SideA "shield_bash" 1 (duel_of w m)))
  = [mkBuff Atk (-3) 2] /\
  dots (fighter_b (_resolve_ability SideA "poison_blade" 1
                     (duel_of (create_fighter "0x111" rogue) w))) = [mkDot 8 3].
Proof. vm_compute. repeat split. Qed.

Example test_fighter :
  let w := create_fighter "0x111" warrior in
  effective_stat (set_buffs w [mkBuff Atk (-5) 2]) Atk = 13 /\
  effective_stat (set_buffs w [mkBuff Atk (-100) 2]) Atk = 1 /\
  tick_effects (set_dots w [mkDot 10 2]) = (set_dots w [mkDot 10 1], 10) /\
  tick_effects (set_dots w [mkDot 10 1]) = (w, 10) /\
  buffs (tick_effects (set_buffs w [mkBuff Atk (-3) 1])).1 = [] /\
  is_defending (tick_effects (set_is_defending w true)).1 = false.
Proof. vm_compute. repeat split. Qed.

(** C10: for every fighter state and every stat of atk, defense and speed,
    [effective_stat] returns max(1, base stat + sum of the amounts of the
    active modifiers on that stat); it is never below 1, and it is exactly 1
    when the negative modifiers exceed the base stat. *)
Theorem effective_stat_is_floored_sum (f : Fighter) (stat : Stat) :
  effective_stat f stat = Z.max 1 (base_stat f stat + modifier_total stat (buffs f)) /\
  1 <= effective_stat f stat /\
  (base_stat f stat + modifier_total stat (buffs f) <= 1 -> effective_stat f stat = 1) /\
  effective_stat crippled_warrior Atk = 1.
Proof.
  assert (E : effective_stat f stat
              = Z.max 1 (base_stat f stat + modifier_total stat (buffs f))).
  { unfold effective_stat. by rewrite sum_filter_modifier_total. }
  rewrite E. repeat split; try lia.
Qed.

Lemma tick_effects_dots f :
  dots (tick_effects f).1
  = filter (fun d => 0 < dot_turns d)
      (map (fun d => mkDot (dot_damage d) (dot_turns d - 1)) (dots f)) /\
  (tick_effects f).2 = sum (map dot_damage (dots f)).
Proof.
  split; [reflexivity|]. unfold tick_effects, sum. simpl.
  generalize 0. induction (dots f) as [|d l IH]; intros a; simpl; [reflexivity|].
  apply IH.
Qed.

Lemma ticks_S k f : ticks (S k) f = (tick_effects (ticks k f)).1.
Proof. reflexivity. Qed.

Lemma filter_aged_step k (l : list Dot) :
  filter (fun d => 0 < dot_turns d)
    (map (fun d => mkDot (dot_damage d) (dot_turns d - 1))
       (filter active (map (aged k) l)))
  = filter active (map (aged (S k)) l).
Proof.
  induction l as [|d l IH]; [reflexivity|].
  unfold active, aged in *. cbn [map]. rewrite !filter_cons.
  cbn [dot_turns dot_damage].
  destruct (decide (0 < dot_turns d - Z.of_nat k)) as [Hk|Hk].
  - cbn [map]. rewrite filter_cons. cbn [dot_turns dot_damage].
    destruct (decide (0 < dot_turns d - Z.of_nat k - 1)),
             (decide (0 < dot_turns d - Z.of_nat (S k))); try lia.
    + rewrite IH. do 2 f_equal. lia.
    + exact IH.
  - destruct (decide (0 < dot_turns d - Z.of_nat (S k))); [lia|]. exact IH.
Qed.

(** After [k] ticks a fighter carries exactly its entries that still have
    turns left, each with its own damage and its own counter lowered by [k],
    in their original order: any number of entries, never merged. *)
Lemma dots_after_ticks f k :
  Forall active (dots f) ->
  dots (ticks k f) = filter active (map (aged k) (dots f)).
Proof.
  intros Hact. induction k as [|k IH].
  - unfold ticks. simpl. induction Hact as [|d l Hd Hl IHl]; [reflexivity|].
    unfold active, aged in *. cbn [map]. rewrite filter_cons.
    cbn [dot_turns dot_damage]. change (Z.of_nat 0) with 0 in *.
    rewrite Z.sub_0_r, decide_True by exact Hd.
    rewrite <- IHl. by destruct d.
  - rewrite ticks_S. destruct (tick_effects_dots (ticks k f)) as [-> _].
    rewrite IH. apply filter_aged_step.
Qed.

Lemma assoc_resolve_dot st att ability_name turn ability d0 :
  assoc ability_name (abilities (CLASSES (class_name (fighter st att)))) = Some ability ->
  type ability = physical \/ type ability = magic ->
  dot ability = Some d0 ->
  dots (fighter (_resolve_ability att ability_name turn st) (other att))
  = dots (fighter st (other att)) ++ [d0].
Proof.
  intros Ha Ht Hd. unfold _resolve_ability. rewrite Ha.
  destruct Ht as [Ht|Ht]; rewrite Ht, Hd;
    destruct att, (debuff ability), (self_debuff ability); reflexivity.
Qed.

(** C8: a fighter carrying the two damage-over-time entries (d1, t1 turns)
    and (d2, t2 turns), 0 < t1 < t2, in either order, takes d1 + d2 at each of
    its first t1 ticks, both entries being kept with their own damage and
    their own counter; from then on the first entry is gone and the second
    deals d2 per tick until its t2 ticks are used up, after which nothing is
    left. The entries are never merged or refreshed: an ability that applies a
    DoT appends a new entry and leaves those already carried as they are. *)
Theorem dot_entries_tick_and_expire_independently (f : Fighter) (d1 t1 d2 t2 : Z) :
  dots f = [mkDot d1 t1; mkDot d2 t2] \/ dots f = [mkDot d2 t2; mkDot d1 t1] ->
  0 < t1 < t2 ->
  (forall k : nat,
     (Z.of_nat k < t1 ->
        dots (ticks k f) = map (aged k) (dots f) /\
        (tick_effects (ticks k f)).2 = d1 + d2) /\
     (t1 <= Z.of_nat k < t2 ->
        dots (ticks k f) = [mkDot d2 (t2 - Z.of_nat k)] /\
        (tick_effects (ticks k f)).2 = d2) /\
     (t2 <= Z.of_nat k ->
        dots (ticks k f) = [] /\ (tick_effects (ticks k f)).2 = 0)) /\
  (forall st att ability_name turn ability d0,
     assoc ability_name (abilities (CLASSES (class_name (fighter st att)))) = Some ability ->
     type ability = physical \/ type ability = magic ->
     dot ability = Some d0 ->
     dots (fighter (_resolve_ability att ability_name turn st) (other att))
     = dots (fighter st (other att)) ++ [d0]).
Proof.
  intros Hd Ht. split; [|apply assoc_resolve_dot].
  intros k.
  assert (Hact : Forall active (dots f)).
  { destruct Hd as [-> | ->]; repeat constructor; unfold active; simpl; lia. }
  pose proof (dots_after_ticks f k Hact) as Hk.
  destruct (tick_effects_dots (ticks k f)) as [_ ->]. rewrite Hk.
  destruct Hd as [-> | ->]; simpl; rewrite !filter_cons, filter_nil;
    unfold active, aged; simpl;
    destruct (decide (0 < t1 - Z.of_nat k)), (decide (0 < t2 - Z.of_nat k));
    repeat split; intros; try lia; try reflexivity; unfold sum; simpl; lia.
Qed.

Lemma dot_entries_tick_and_expire_witness :
  (tick_effects (ticks 0 poisoned_warrior)).2 = 14 /\
  (tick_effects (ticks 1 poisoned_warrior)).2 = 14 /\
  dots (ticks 2 poisoned_warrior) = [mkDot 6 1] /\
  (tick_effects (ticks 2 poisoned_warrior)).2 = 6 /\
  dots (ticks 3 poisoned_warrior) = [] /\
  dots (fighter (_resolve_ability SideA "poison_blade" 1 rogue_vs_poisoned) SideB)
  = [mkDot 8 2; mkDot 6 3; mkDot 8 3].
Proof.
  assert (Ht : 0 < 2 < 3) by lia.
  destruct (dot_entries_tick_and_expire_independently poisoned_warrior 8 2 6 3
              (or_introl eq_refl) Ht) as [Hticks Happ].
  destruct (Hticks 0%nat) as ((_ & H0) & _ & _); [simpl; lia|].
  destruct (Hticks 1%nat) as ((_ & H1) & _ & _); [simpl; lia|].
  destruct (Hticks 2%nat) as (_ & (H2 & H2') & _); [simpl; lia|].
  destruct (Hticks 3%nat) as (_ & _ & (H3 & _)); [simpl; lia|].
  split; [exact H0|]. split; [exact H1|]. split; [exact H2|].
  split; [exact H2'|]. split; [exact H3|].
  exact (Happ rogue_vs_poisoned SideA "poison_blade"%string 1%nat _ (mkDot 8 3)
           eq_refl (or_introl eq_refl) eq_refl).
Defined.

Lemma good_fighter st s : good st -> in_range (fighter st s).
Proof. intros (_ & Ha & Hb & _). by destruct s. Qed.

Lemma put_good s f st : good st -> in_range f -> good (put s f st).
Proof.
  intros (Hh & Ha & Hb & _) Hf. unfold good, in_step.
  destruct s; simpl; rewrite last_snoc;
    (split; [apply Forall_app; split; [done | apply Forall_singleton; done] | done]).
Qed.

Lemma put_set_hp s v st :
  good st ->
  (in_range (fighter st s) -> 0 <= v <= max_hp (fighter st s)) ->
  good (put s (set_hp (fighter st s) v) st).
Proof.
  intros Hg Hv. apply put_good; [done|].
  pose proof (good_fighter st s Hg) as Hf. specialize (Hv Hf).
  unfold in_range in *. simpl. lia.
Qed.

Lemma put_set_mp s v st :
  good st ->
  (in_range (fighter st s) -> 0 <= v <= max_mp (fighter st s)) ->
  good (put s (set_mp (fighter st s) v) st).
Proof.
  intros Hg Hv. apply put_good; [done|].
  pose proof (good_fighter st s Hg) as Hf. specialize (Hv Hf).
  unfold in_range in *. simpl. lia.
Qed.

Lemma put_set_buffs s v st : good st -> good (put s (set_buffs (fighter st s) v) st).
Proof. intros Hg. apply put_good; [done|]. exact (good_fighter st s Hg). Qed.

Lemma put_set_dots s v st : good st -> good (put s (set_dots (fighter st s) v) st).
Proof. intros Hg. apply put_good; [done|]. exact (good_fighter st s Hg). Qed.

Lemma put_set_is_defending s v st :
  good st -> good (put s (set_is_defending (fighter st s) v) st).
Proof. intros Hg. apply put_good; [done|]. exact (good_fighter st s Hg). Qed.

Lemma good_logs st l r :
  good st -> good (mkState (fighter_a st) (fighter_b st) l r (history st)).
Proof. intros Hg. exact Hg. Qed.

Lemma fighter_put_same s f st : fighter (put s f st) s = f.
Proof. by destruct s. Qed.

(** Every cost, restore and heal of the catalog is non-negative. *)
Lemma catalog_nonneg c ability_name ability :
  assoc ability_name (abilities (CLASSES c)) = Some ability ->
  0 <= mp_cost ability /\ 0 <= default 0 (mp_restore ability)
  /\ 0 <= default 0 (heal_amount ability).
Proof.
  destruct c; simpl; intros H; repeat case_match; simplify_eq; simpl; lia.
Qed.

Lemma int_ge_1 (x : Q) : (1 <= x)%Q -> 1 <= int x.
Proof.
  unfold int, Qle. simpl. intros H.
  rewrite Z.mul_1_r, Z.mul_1_l in H.
  rewrite <- (Z.quot_same (Z.pos (Qden x))) by lia.
  apply Z.quot_le_mono; lia.
Qed.

Lemma base_formula_pos ability_name ability attacker defender :
  1 <= base_formula ability_name ability attacker defender.
Proof.
  unfold base_formula.
  set (dmg := if bool_decide (type ability = physical) then _ else _).
  assert (Hd : 1 <= dmg) by (subst dmg; case_bool_decide; lia).
  destruct (_ && _); [|exact Hd].
  apply int_ge_1. unfold Qle. simpl. lia.
Qed.

Lemma _resolve_ability_good att ability_name turn st :
  good st -> good (_resolve_ability att ability_name turn st).
Proof.
  intros Hg. unfold _resolve_ability.
  destruct (assoc ability_name _) as [ability|] eqn:Ha; [|exact Hg].
  apply catalog_nonneg in Ha as (Hcost & Hrestore & Hheal).
  set (st1 := put att (set_mp (fighter st att) _) st).
  assert (Hg1 : good st1).
  { apply put_set_mp; [done|]. intros [_ ?]. lia. }
  clearbody st1. clear Hg st.
  destruct (type ability); cbv zeta.
  - (* physical *)
    pose proof (base_formula_pos ability_name ability (fighter st1 att)
                  (fighter st1 (other att))) as Hdmg.
    set (dmg := if is_defending _ then _ else _).
    assert (Hd : 1 <= dmg) by (subst dmg; destruct (is_defending _); lia).
    clearbody dmg. apply good_logs.
    set (st2 := put (other att) (set_hp _ _) st1).
    assert (Hg2 : good st2) by (apply put_set_hp; [done|]; intros [? _]; lia).
    clearbody st2.
    destruct (debuff ability), (self_debuff ability), (dot ability);
      repeat first [apply put_set_dots | apply put_set_buffs]; exact Hg2.
  - (* magic *)
    pose proof (base_formula_pos ability_name ability (fighter st1 att)
                  (fighter st1 (other att))) as Hdmg.
    set (dmg := if is_defending _ then _ else _).
    assert (Hd : 1 <= dmg) by (subst dmg; destruct (is_defending _); lia).
    clearbody dmg. apply good_logs.
    set (st2 := put (other att) (set_hp _ _) st1).
    assert (Hg2 : good st2) by (apply put_set_hp; [done|]; intros [? _]; lia).
    clearbody st2.
    destruct (debuff ability), (self_debuff ability), (dot ability);
      repeat first [apply put_set_dots | apply put_set_buffs]; exact Hg2.
  - (* defend *)
    apply good_logs. apply put_set_mp.
    + by apply put_set_is_defending.
    + intros [_ ?]. lia.
  - (* heal *)
    apply good_logs. apply put_set_hp; [done|]. intros [? _]. lia.
  - (* cleanse *)
    apply good_logs. apply put_set_hp.
    + apply put_set_buffs. by apply put_set_dots.
    + intros [? _]. lia.
Qed.

Lemma tick_effects_in_range f : in_range f -> in_range (tick_effects f).1.
Proof. intros H. exact H. Qed.

Lemma _get_decision_good g address attacker defender turn st :
  good st -> good (_get_decision g address attacker defender turn st).2.
Proof. intros H. exact H. Qed.

Lemma sub_turn_good g a b att turn st :
  good st -> good (sub_turn g a b att turn st).1.
Proof.
  intros Hg. unfold sub_turn.
  destruct (_ || _); [exact Hg|].
  destruct (tick_effects (fighter st att)) as [ticked dot_dmg] eqn:Et.
  set (st1 := put att ticked st).
  assert (Hg1 : good st1).
  { apply put_good; [done|]. replace ticked with (tick_effects (fighter st att)).1
      by (by rewrite Et). apply tick_effects_in_range, good_fighter, Hg. }
  clearbody st1.
  set (st2 := if 0 <? dot_dmg then _ else st1).
  assert (Hg2 : good st2).
  { subst st2. destruct (Z.ltb_spec 0 dot_dmg); [|done].
    apply put_set_hp; [done|]. intros [? _]. lia. }
  clearbody st2.
  destruct (_ && _); [exact Hg2|].
  pose proof (_get_decision_good g (match att with SideA => a | SideB => b end)
                (fighter st2 att) (fighter st2 (other att)) turn st2 Hg2) as Hg3.
  destruct (_get_decision _ _ _ _ _ _) as [ability_name st3]. simpl in Hg3.
  pose proof (_resolve_ability_good att ability_name turn st3 Hg3) as Hg4.
  set (st4 := _resolve_ability att ability_name turn st3) in *.
  destruct (match last (turn_log st4) with Some _ => _ | None => _ end);
    [exact Hg4|]. destruct (negb _); exact Hg4.
Qed.

Lemma act_in_order_good g a b turn order : forall st,
  good st -> good (act_in_order g a b turn order st).1.
Proof.
  induction order as [|att rest IH]; intros st Hg; simpl; [exact Hg|].
  pose proof (sub_turn_good g a b att turn st Hg) as H1.
  destruct (sub_turn g a b att turn st) as [st1 [| |e]]; simpl in *; auto.
Qed.

Lemma battle_loop_good g a b turns : forall st,
  good st -> good (battle_loop g a b turns st).1.
Proof.
  induction turns as [|turn rest IH]; intros st Hg; simpl; [exact Hg|].
  pose proof (act_in_order_good g a b turn (turn_order st) st Hg) as H1.
  destruct (act_in_order g a b turn (turn_order st) st) as [st1 [e|]]; simpl in *;
    [exact H1|].
  destruct (_ || _); simpl; auto.
Qed.

Lemma create_fighter_in_range address c : in_range (create_fighter address c).
Proof. destruct c; unfold in_range; simpl; lia. Qed.

Lemma start_good g a b : good (start g a b).
Proof.
  unfold start, good. simpl.
  pose proof (create_fighter_in_range a (_pick_class g a)).
  pose proof (create_fighter_in_range b (_pick_class g b)).
  split; [apply Forall_singleton; done | done].
Qed.

Lemma play_state g a b w :
  (play g a b w).2 = start g a b \/
  (play g a b w).2 = (battle_loop g a b (seq 1 (MAX_TURNS g)) (start g a b)).1.
Proof.
  unfold play. destruct (_emit g (rpg_init _ _ _ _ _ _)); [by left|]. right.
  destruct (battle_loop _ _ _ _ _) as [st [e|]]; simpl; [done|].
  destruct (_emit _ _); done.
Qed.

(** C4: in a combat match, the pair of fighters recorded after every
    assignment to a fighter (the damage-over-time application, the MP spend,
    the MP restore of defend, the heals of heal and cleanse, the damage
    application, and the assignments to effects and stance between them) has
    both HP in [0, max_hp] and both MP in [0, max_mp]; the record misses no
    assignment (its last entry is the pair the match ends with), and the
    fighters the match ends with are within bounds too, whether [play]
    returned or the callback raised. *)
Theorem hp_and_mp_stay_within_bounds g player_a player_b wager :
  Forall both_in_range (history (play g player_a player_b wager).2) /\
  in_range (fighter_a (play g player_a player_b wager).2) /\
  in_range (fighter_b (play g player_a player_b wager).2) /\
  last (history (play g player_a player_b wager).2)
  = Some (fighter_a (play g player_a player_b wager).2,
          fighter_b (play g player_a player_b wager).2).
Proof.
  assert (Hg : good (play g player_a player_b wager).2).
  { destruct (play_state g player_a player_b wager) as [-> | ->].
    - apply start_good.
    - apply battle_loop_good, start_good. }
  exact Hg.
Qed.











(** *** The ability chosen for a turn *)

(** The keys of a class's ["abilities"] dictionary. *)
Lemma catalog_NoDup c : NoDup (abilities (CLASSES c)).*1.
Proof. destruct c; apply (bool_decide_unpack _); by vm_compute. Qed.

Lemma catalog_defend c :
  exists info, assoc "defend" (abilities (CLASSES c)) = Some info /\ mp_cost info = 0.
Proof. destruct c; simpl; eexists; split; reflexivity. Qed.

Lemma assoc_filter {A} (P : string * A -> Prop) `{!forall x, Decision (P x)}
  (l : list (string * A)) name :
  NoDup l.*1 -> name ∈ (filter P l).*1 ->
  exists v, assoc name l = Some v /\ P (name, v).
Proof.
  induction l as [|[k v] l IH]; simpl; intros Hnd Hin; [by apply elem_of_nil in Hin|].
  apply NoDup_cons in Hnd as [Hk Hnd].
  rewrite filter_cons in Hin. case_bool_decide as Hkn.
  - subst k. exists v. split; [done|].
    destruct (decide (P (name, v))) as [|Hn]; [done|].
    exfalso. apply Hk. apply list_elem_of_fmap in Hin as [[k' v'] [-> Hin]].
    apply list_elem_of_filter in Hin as [_ Hin]. apply list_elem_of_fmap.
    by exists (k', v').
  - apply IH; [done|]. destruct (decide (P (k, v))); [|done].
    simpl in Hin. apply elem_of_cons in Hin as [->|]; done.
Qed.

Lemma nth_0_elem_of (names : list string) : names <> [] -> nth 0 names ""%string ∈ names.
Proof. destruct names; [done|]. intros _. simpl. apply elem_of_cons. by left. Qed.

Lemma _get_decision_state g address attacker defender turn st :
  let r := _get_decision g address attacker defender turn st in
  fighter_a r.2 = fighter_a st /\ fighter_b r.2 = fighter_b st /\
  turn_log r.2 = turn_log st /\ history r.2 = history st /\
  reasoning_log r.2 = reasoning_log st ++ [(address, turn, r.1)].
Proof. done. Qed.

Lemma _get_decision_choice g address attacker defender turn st :
  exists info,
    assoc (_get_decision g address attacker defender turn st).1
      (abilities (CLASSES (class_name attacker))) = Some info /\
    (0 <= mp attacker -> mp_cost info <= mp attacker).
Proof.
  unfold _get_decision. cbv zeta. cbn [fst].
  set (affordable := filter _ (abilities _)).
  set (available := match affordable with [] => _ | _ => affordable end).
  set (answer := match strategy_engines g !! address with Some _ => _ | None => _ end).
  set (ability := if bool_decide (_ ∈ _) then _ else _).
  assert (Hne : available.*1 <> []).
  { subst available. destruct affordable; [|done].
    destruct (catalog_defend (class_name attacker)) as (info & -> & _). done. }
  assert (Hin : ability ∈ available.*1).
  { subst ability. case_bool_decide; [done|]. by apply nth_0_elem_of. }
  clearbody ability answer. subst available.
  destruct affordable as [|x l] eqn:Ea.
  - destruct (catalog_defend (class_name attacker)) as (info & Hd & Hc).
    rewrite Hd in Hin. simpl in Hin.
    apply list_elem_of_singleton in Hin as ->. exists info. split; [done|]. lia.
  - rewrite <- Ea in Hin. subst affordable.
    apply assoc_filter in Hin as (info & Hi & Hp); [|apply catalog_NoDup].
    exists info. split; [done|]. intros _. exact Hp.
Qed.

(** *** What one action does *)

Lemma fighter_put_other s f st : fighter (put s f st) (other s) = fighter st (other s).
Proof. by destruct s. Qed.

Lemma halved_pos (b : bool) dmg : 1 <= dmg -> 1 <= (if b then Z.max 1 (dmg / 2) else dmg).
Proof. destruct b; lia. Qed.

Ltac resolve_cbn :=
  cbn [fighter put other fighter_a fighter_b turn_log history reasoning_log
       hp max_hp mp max_mp buffs dots is_defending
       set_hp set_mp set_buffs set_dots set_is_defending
       log_turn log_ability log_type log_damage log_defender_hp].

Ltac resolve_cbn_in H :=
  cbn [fighter put other fighter_a fighter_b turn_log history reasoning_log
       hp max_hp mp max_mp buffs dots is_defending
       set_hp set_mp set_buffs set_dots set_is_defending
       log_turn log_ability log_type log_damage log_defender_hp] in H.

Lemma _resolve_ability_spec att ability_name turn st ability :
  assoc ability_name (abilities (CLASSES (class_name (fighter st att)))) = Some ability ->
  in_range (fighter st att) ->
  let st' := _resolve_ability att ability_name turn st in
  (exists e, turn_log st' = turn_log st ++ [e] /\ log_turn e = turn /\
             log_ability e = ability_name /\ entry_ok e) /\
  hp (fighter st att) <= hp (fighter st' att).
Proof.
  intros Ha Hr. cbv zeta. unfold _resolve_ability. rewrite Ha.
  apply catalog_nonneg in Ha as (Hcost & Hrestore & Hheal).
  destruct Hr as [Hhp Hmp].
  pose proof (halved_pos) as Hh. pose proof base_formula_pos as Hb.
  unfold entry_ok.
  destruct (type ability) eqn:Et; cbv zeta.
  - destruct (debuff ability), (self_debuff ability), (dot ability), att; resolve_cbn;
      match goal with
      | |- context [Some (if ?b then Z.max 1 (?x / 2) else ?x)] =>
          pose proof (Hh b x (Hb _ _ _ _)); set (dmg := if b then _ else x) in *
      end;
      (split; [eexists; split; [reflexivity|]; resolve_cbn;
               split; [done|]; split; [done|]; eexists _, _; repeat split; lia | lia]).
  - destruct (debuff ability), (self_debuff ability), (dot ability), att; resolve_cbn;
      match goal with
      | |- context [Some (if ?b then Z.max 1 (?x / 2) else ?x)] =>
          pose proof (Hh b x (Hb _ _ _ _)); set (dmg := if b then _ else x) in *
      end;
      (split; [eexists; split; [reflexivity|]; resolve_cbn;
               split; [done|]; split; [done|]; eexists _, _; repeat split; lia | lia]).
  - destruct att; resolve_cbn;
      (split; [eexists; split; [reflexivity|]; resolve_cbn; done | lia]).
  - destruct att; resolve_cbn; resolve_cbn_in Hhp;
      (split; [eexists; split; [reflexivity|]; resolve_cbn; done | lia]).
  - destruct att; resolve_cbn; resolve_cbn_in Hhp;
      (split; [eexists; split; [reflexivity|]; resolve_cbn; done | lia]).
Qed.

(** *** Who is standing *)

Lemma both_alive_sides st att :
  both_alive st = alive (fighter st att) && alive (fighter st (other att)).
Proof. destruct att; simpl; unfold both_alive; [done | apply andb_comm]. Qed.

Lemma one_alive_side st att : alive (fighter st att) = true -> one_alive st = true.
Proof. unfold one_alive. destruct att; simpl; intros ->; [done | apply orb_true_r]. Qed.

Lemma put_logs s f st : turn_log (put s f st) = turn_log st.
Proof. by destruct s. Qed.

(** One action of one fighter: the log grows by at most one entry, by
    exactly one when the inner loop goes on; a fighter is left standing;
    the loop goes on only with both standing and breaks only with one down. *)
Lemma sub_turn_spec g a b att turn st :
  good st ->
  let r := sub_turn g a b att turn st in
  (exists l, turn_log r.1 = turn_log st ++ l /\ (length l <= 1)%nat /\
             Forall (fun e => log_turn e = turn /\ entry_ok e) l /\
             (r.2 = Next \/ both_alive st = true /\ dots (fighter st att) = [] ->
              length l = 1%nat)) /\
  (one_alive st = true -> one_alive r.1 = true) /\
  (r.2 = Next -> both_alive r.1 = true) /\
  (r.2 = Break -> both_alive r.1 = false).
Proof.
  intros Hg. cbv zeta. unfold sub_turn.
  rewrite <- negb_andb, <- both_alive_sides.
  destruct (both_alive st) eqn:Eb; cbn [negb].
  2:{ cbn [fst snd]. split; [|done].
      exists []. rewrite app_nil_r. repeat split; [simpl; lia | constructor |].
      by intros [|[? _]]. }
  rewrite (both_alive_sides st att) in Eb. apply andb_prop in Eb as [Ea Ed].
  destruct (tick_effects (fighter st att)) as [ticked dot_dmg] eqn:Et.
  assert (Hticked : ticked = (tick_effects (fighter st att)).1) by (by rewrite Et).
  assert (Hhp : hp ticked = hp (fighter st att)) by (by rewrite Hticked).
  assert (Hr : in_range ticked).
  { rewrite Hticked. apply tick_effects_in_range, good_fighter, Hg. }
  assert (Hnodot : dots (fighter st att) = [] -> (0 <? dot_dmg) = false).
  { intros E. unfold tick_effects in Et. rewrite E in Et. by simplify_eq/=. }
  set (st1 := put att ticked st).
  assert (Hg1 : good st1) by (by apply put_good).
  assert (Hlog1 : turn_log st1 = turn_log st) by apply put_logs.
  assert (Hdef1 : fighter st1 (other att) = fighter st (other att))
    by apply fighter_put_other.
  assert (Hatt1 : fighter st1 att = ticked) by apply fighter_put_same.
  clearbody st1.
  set (st2 := if 0 <? dot_dmg then _ else st1).
  assert (Hg2 : good st2).
  { subst st2. destruct (Z.ltb_spec 0 dot_dmg) as [Hpos|]; [|done].
    apply put_set_hp; [done|]. intros [Hin _]. clear -Hin Hpos. lia. }
  assert (Hlog2 : turn_log st2 = turn_log st).
  { subst st2. destruct (0 <? dot_dmg); by rewrite ?put_logs. }
  assert (Hdef2 : fighter st2 (other att) = fighter st (other att)).
  { subst st2. destruct (0 <? dot_dmg); by rewrite ?fighter_put_other. }
  assert (Hatt2 : (0 <? dot_dmg) = false -> alive (fighter st2 att) = true).
  { subst st2. intros ->. rewrite Hatt1. unfold alive in *. by rewrite Hhp. }
  clearbody st2. clear Hg1 Hlog1 Hdef1 Hatt1 st1 Hticked Hhp Hr Et.
  destruct ((0 <? dot_dmg) && negb (alive (fighter st2 att))) eqn:Edot.
  { cbn [fst snd]. pose proof Edot as Edot'. apply andb_prop in Edot' as [_ Hdead].
    apply negb_true_iff in Hdead.
    split; [exists []; rewrite app_nil_r; split; [done|];
            repeat split; [simpl; lia | constructor |];
            intros [|[_ E]]; [done | by rewrite (Hnodot E) in Edot]|].
    split; [intros _; apply (one_alive_side st2 (other att)); by rewrite Hdef2|].
    split; [done|]. intros _. rewrite (both_alive_sides st2 att), Hdead. done. }
  assert (Ha2 : alive (fighter st2 att) = true).
  { destruct (0 <? dot_dmg); [|by apply Hatt2]. simpl in Edot.
    by apply negb_false_iff in Edot. }
  clear Edot Hatt2.
  set (addr := match att with SideA => a | SideB => b end).
  destruct (_get_decision_choice g addr (fighter st2 att) (fighter st2 (other att)) turn st2)
    as (info & Hinfo & _).
  pose proof (_get_decision_state g addr (fighter st2 att) (fighter st2 (other att)) turn st2)
    as (Hfa & Hfb & Hl3 & Hh3 & _).
  pose proof (_get_decision_good g addr (fighter st2 att) (fighter st2 (other att)) turn st2 Hg2)
    as Hg3.
  destruct (_get_decision g addr (fighter st2 att) (fighter st2 (other att)) turn st2)
    as [ability_name st3]. cbn [fst snd] in *.
  assert (Hf3 : forall s, fighter st3 s = fighter st2 s) by (by intros []).
  rewrite <- (Hf3 att) in Hinfo.
  destruct (_resolve_ability_spec att ability_name turn st3 info Hinfo
              (good_fighter st3 att Hg3)) as ((e & Hl4 & Hturn & _ & Hok) & Hhp4).
  set (st4 := _resolve_ability att ability_name turn st3) in *.
  assert (Ha4 : alive (fighter st4 att) = true).
  { unfold alive in *. rewrite Hf3 in Hhp4. apply Z.ltb_lt. apply Z.ltb_lt in Ha2. lia. }
  assert (Hlog : exists l, turn_log st4 = turn_log st ++ l /\ (length l <= 1)%nat /\
             Forall (fun e => log_turn e = turn /\ entry_ok e) l /\ length l = 1%nat).
  { exists [e]. rewrite Hl4, Hl3, Hlog2. repeat split; [simpl; lia|].
    by apply Forall_singleton. }
  destruct Hlog as (l & El & Hlen & Hall & Hone).
  clearbody st4.
  destruct (match last (turn_log st4) with Some _ => _ | None => _ end); cbn [fst snd].
  { split; [by exists l|]. split; [intros _; by apply (one_alive_side st4 att)|]. done. }
  destruct (alive (fighter st4 (other att))) eqn:Ed4; cbn [negb fst snd].
  - split; [by exists l|]. split; [intros _; by apply (one_alive_side st4 att)|].
    split; [|done]. intros _. by rewrite (both_alive_sides st4 att), Ha4, Ed4.
  - split; [by exists l|]. split; [intros _; by apply (one_alive_side st4 att)|].
    split; [done|]. intros _. by rewrite (both_alive_sides st4 att), Ha4, Ed4.
Qed.

Lemma act_in_order_spec g a b turn order : forall st,
  good st ->
  let r := act_in_order g a b turn order st in
  (exists l, turn_log r.1 = turn_log st ++ l /\ (length l <= length order)%nat /\
             Forall (fun e => log_turn e = turn /\ entry_ok e) l /\
             (r.2 = None -> both_alive r.1 = true -> length l = length order) /\
             (both_alive st = true ->
              (exists att, head order = Some att /\ dots (fighter st att) = []) ->
              (1 <= length l)%nat)) /\
  (one_alive st = true -> one_alive r.1 = true).
Proof.
  induction order as [|att rest IH]; intros st Hg; cbv zeta.
  { simpl. split; [|done]. exists []. rewrite app_nil_r.
    split; [done|]. split; [done|]. split; [constructor|]. split; [done|].
    by intros _ (att & ? & _). }
  cbn [act_in_order].
  pose proof (sub_turn_spec g a b att turn st Hg) as ((l1 & E1 & Hlen1 & Hall1 & Hone1) & Hk1 & Hn1 & Hb1).
  pose proof (sub_turn_good g a b att turn st Hg) as Hg1.
  destruct (sub_turn g a b att turn st) as [st1 c]. cbn [fst snd] in *.
  assert (Hfirst : both_alive st = true ->
            (exists att', Some att = Some att' /\ dots (fighter st att') = []) ->
            length l1 = 1%nat).
  { intros Hb (att' & [= <-] & Hd). apply Hone1. by right. }
  destruct c as [| |e].
  - destruct (IH st1 Hg1) as ((l2 & E2 & Hlen2 & Hall2 & Hfull2 & _) & Hk2).
    split; [|by auto].
    exists (l1 ++ l2). rewrite E2, E1, <- app_assoc.
    split; [done|]. rewrite length_app. simpl.
    split; [lia|]. split; [by apply Forall_app|].
    split.
    + intros Hr Hb. rewrite (Hfull2 Hr Hb), (Hone1 (or_introl eq_refl)). done.
    + intros Hb Hd. specialize (Hfirst Hb Hd). lia.
  - cbn [fst snd]. split; [|done].
    exists l1. split; [done|]. simpl. split; [lia|]. split; [done|].
    split.
    + intros _ Hb. by rewrite (Hb1 eq_refl) in Hb.
    + intros Hb Hd. specialize (Hfirst Hb Hd). lia.
  - cbn [fst snd]. split; [|done].
    exists l1. split; [done|]. simpl. split; [lia|]. split; [done|].
    split; [done|]. intros Hb Hd. specialize (Hfirst Hb Hd). lia.
Qed.

Lemma length_turn_order st : length (turn_order st) = 2%nat.
Proof. unfold turn_order. by destruct (_ <=? _). Qed.

Lemma battle_loop_spec g a b turns : forall st,
  good st ->
  let r := battle_loop g a b turns st in
  (exists l, turn_log r.1 = turn_log st ++ l /\ (length l <= 2 * length turns)%nat /\
             Forall (fun e => log_turn e ∈ turns /\ entry_ok e) l /\
             (r.2 = None -> both_alive r.1 = true ->
              length l = (2 * length turns)%nat) /\
             (both_alive st = true -> turns <> [] ->
              dots (fighter_a st) = [] -> dots (fighter_b st) = [] ->
              (1 <= length l)%nat)) /\
  (one_alive st = true -> one_alive r.1 = true).
Proof.
  induction turns as [|turn rest IH]; intros st Hg; cbv zeta.
  { simpl. split; [|done]. exists []. rewrite app_nil_r.
    split; [done|]. split; [done|]. split; [constructor|]. split; done. }
  cbn [battle_loop].
  pose proof (act_in_order_spec g a b turn (turn_order st) st Hg)
    as ((l1 & E1 & Hlen1 & Hall1 & Hfull1 & Hfirst1) & Hk1).
  pose proof (act_in_order_good g a b turn (turn_order st) st Hg) as Hg1.
  rewrite length_turn_order in *.
  assert (Hfirst : both_alive st = true ->
            dots (fighter_a st) = [] -> dots (fighter_b st) = [] -> (1 <= length l1)%nat).
  { intros Hb Hda Hdb. apply Hfirst1; [done|]. unfold turn_order.
    destruct (_ <=? _); [exists SideA | exists SideB]; done. }
  assert (Hall1' : Forall (fun e => log_turn e ∈ turn :: rest /\ entry_ok e) l1).
  { eapply Forall_impl; [exact Hall1|]. intros e [-> ?]. split; [left|done]. }
  destruct (act_in_order g a b turn (turn_order st) st) as [st1 [e|]]; cbn [fst snd] in *.
  { split; [|done]. exists l1. split; [done|]. simpl. split; [lia|]. split; [done|].
    split; [done|]. intros Hb _ Hda Hdb. by apply Hfirst. }
  rewrite <- negb_andb. fold (both_alive st1).
  destruct (both_alive st1) eqn:Eb1; cbn [negb].
  - destruct (IH st1 Hg1) as ((l2 & E2 & Hlen2 & Hall2 & Hfull2 & _) & Hk2).
    split; [|by auto].
    exists (l1 ++ l2). rewrite E2, E1, <- app_assoc.
    split; [done|]. rewrite length_app. simpl.
    split; [lia|]. split.
    { apply Forall_app. split; [done|].
      eapply Forall_impl; [exact Hall2|]. intros e [? ?]. split; [by right|done]. }
    split.
    + intros Hr Hb. rewrite (Hfull2 Hr Hb), (Hfull1 eq_refl eq_refl). lia.
    + intros Hb _ Hda Hdb. specialize (Hfirst Hb Hda Hdb). lia.
  - cbn [fst snd]. split; [|done].
    exists l1. split; [done|]. simpl. split; [lia|]. split; [done|].
    split.
    + intros _ Hb. by rewrite Eb1 in Hb.
    + intros Hb _ Hda Hdb. by apply Hfirst.
Qed.

(** *** The whole battle *)

Lemma play_returns g a b w r :
  (play g a b w).1 = inr r ->
  let end_ := battle_loop g a b (seq 1 (MAX_TURNS g)) (start g a b) in
  end_.2 = None /\ (play g a b w).2 = end_.1 /\ r = conclude a b w end_.1.
Proof.
  unfold play. destruct (_emit g (rpg_init _ _ _ _ _ _)); [done|].
  destruct (battle_loop _ _ _ _ _) as [st [e|]]; cbn [fst snd]; [done|].
  destruct (_emit _ _); cbn [fst snd]; [done|]. by intros [= <-].
Qed.

Lemma start_both_alive g a b : both_alive (start g a b) = true.
Proof.
  unfold both_alive, start. cbn [fighter_a fighter_b].
  by destruct (_pick_class g a), (_pick_class g b).
Qed.

Lemma both_alive_one_alive st : both_alive st = true -> one_alive st = true.
Proof. unfold both_alive, one_alive. by destruct (alive _), (alive _). Qed.

(** X14: every entry of the turn log, whether [play] returned or the callback
    raised, carries a turn number between 1 and [MAX_TURNS]; an entry of a
    physical or magic ability records a damage of at least 1 and a defender
    HP of at least 0, an entry of any other ability records neither. *)
Theorem turn_log_entries_are_well_formed g player_a player_b wager :
  Forall (fun e => (1 <= log_turn e <= MAX_TURNS g)%nat /\ entry_ok e)
    (turn_log (play g player_a player_b wager).2).
Proof.
  destruct (play_state g player_a player_b wager) as [-> | ->]; [constructor|].
  destruct (battle_loop_spec g player_a player_b (seq 1 (MAX_TURNS g))
              (start g player_a player_b) (start_good g player_a player_b))
    as ((l & -> & _ & Hall & _) & _).
  simpl. eapply Forall_impl; [exact Hall|]. intros e [Hin ?]. split; [|done].
  apply list_elem_of_In, in_seq in Hin. lia.
Qed.

(** X15: when [play] returns, [rounds_played] is the length of the turn log, at
    most two entries per turn; at least one action is logged when
    [MAX_TURNS] is not 0; and when both fighters end with positive HP every
    turn was played in full: exactly 2 * [MAX_TURNS] entries. *)
Theorem turn_log_has_one_entry_per_action g player_a player_b wager r :
  (play g player_a player_b wager).1 = inr r ->
  rounds_played r = length (result_turn_log r) /\
  (rounds_played r <= 2 * MAX_TURNS g)%nat /\
  (MAX_TURNS g <> 0%nat -> (1 <= rounds_played r)%nat) /\
  (0 < final_hp_a r -> 0 < final_hp_b r -> rounds_played r = (2 * MAX_TURNS g)%nat).
Proof.
  intros Hr. apply play_returns in Hr as (Hnone & _ & ->).
  destruct (battle_loop_spec g player_a player_b (seq 1 (MAX_TURNS g))
              (start g player_a player_b) (start_good g player_a player_b))
    as ((l & El & Hlen & _ & Hfull & Hfirst) & _).
  rewrite length_seq in *.
  set (st := (battle_loop _ _ _ _ _).1) in *.
  assert (E : rounds_played (conclude player_a player_b wager st) = length l).
  { unfold conclude. destruct (if alive _ && _ then _ else _). cbn [rounds_played].
    by rewrite El. }
  assert (E' : result_turn_log (conclude player_a player_b wager st) = turn_log st).
  { unfold conclude. by destruct (if alive _ && _ then _ else _). }
  assert (Ea : final_hp_a (conclude player_a player_b wager st) = hp (fighter_a st)).
  { unfold conclude. by destruct (if alive _ && _ then _ else _). }
  assert (Eb : final_hp_b (conclude player_a player_b wager st) = hp (fighter_b st)).
  { unfold conclude. by destruct (if alive _ && _ then _ else _). }
  rewrite E, E', Ea, Eb, El. split; [done|]. split; [done|]. split.
  - intros Hm. apply Hfirst; [apply start_both_alive | | done | done].
    destruct (MAX_TURNS g); done.
  - intros Ha Hb. apply Hfull; [done|]. unfold both_alive, alive.
    apply andb_true_intro. split; by apply Z.ltb_lt.
Qed.

Lemma turn_log_has_one_entry_per_action_witness :
  exists r,
    (play (duel None) "A" "B" 1).1 = inr r /\
    rounds_played r = length (result_turn_log r) /\
    (rounds_played r <= 2 * MAX_TURNS (duel None))%nat /\
    (MAX_TURNS (duel None) <> 0%nat -> (1 <= rounds_played r)%nat) /\
    (0 < final_hp_a r -> 0 < final_hp_b r ->
     rounds_played r = (2 * MAX_TURNS (duel None))%nat).
Proof.
  eexists. split; [vm_compute; reflexivity|].
  apply (turn_log_has_one_entry_per_action (duel None) "A" "B" 1).
  vm_compute. reflexivity.
Defined.

(** X16: when [play] returns for two different addresses, the winner's fighter
    has positive HP: the two fighters are never both down. The win method is
    "KO" exactly when the loser's HP is 0; otherwise it is "HP advantage", both
    are standing, and the winner has at least the loser's HP, player A winning
    on equal HP. *)
Theorem winner_is_left_standing g player_a player_b wager r :
  player_a <> player_b ->
  (play g player_a player_b wager).1 = inr r ->
  (winner r = player_a /\ loser r = player_b /\ 0 < final_hp_a r /\
   (win_method r = "KO"%string /\ final_hp_b r = 0 \/
    win_method r = "HP advantage"%string /\ 0 < final_hp_b r <= final_hp_a r)) \/
  (winner r = player_b /\ loser r = player_a /\ 0 < final_hp_b r /\
   (win_method r = "KO"%string /\ final_hp_a r = 0 \/
    win_method r = "HP advantage"%string /\ 0 < final_hp_a r < final_hp_b r)).
Proof.
  intros Hne Hr. apply play_returns in Hr as (_ & _ & ->).
  pose proof (battle_loop_good g player_a player_b (seq 1 (MAX_TURNS g))
                (start g player_a player_b) (start_good g player_a player_b))
    as (_ & [Ha _] & [Hb _] & _).
  destruct (battle_loop_spec g player_a player_b (seq 1 (MAX_TURNS g))
              (start g player_a player_b) (start_good g player_a player_b))
    as (_ & Hone).
  specialize (Hone (both_alive_one_alive _ (start_both_alive g player_a player_b))).
  set (st := (battle_loop _ _ _ _ _).1) in *.
  unfold one_alive, alive in Hone. unfold conclude, alive.
  destruct (Z.ltb_spec 0 (hp (fighter_a st))) as [Pa|Pa];
    destruct (Z.ltb_spec 0 (hp (fighter_b st))) as [Pb|Pb];
    try discriminate Hone; cbn [andb negb].
  - destruct (Z.ltb_spec (hp (fighter_b st)) (hp (fighter_a st))) as [Lt|Ge].
    + left. rewrite bool_decide_eq_true_2 by done. simpl.
      destruct (Z.ltb_spec 0 (hp (fighter_b st))); [|lia]. simpl.
      repeat split; try done. right. split; [done|lia].
    + destruct (Z.ltb_spec (hp (fighter_a st)) (hp (fighter_b st))) as [Lt|Ge'].
      * right. rewrite bool_decide_eq_false_2 by done. simpl.
        destruct (Z.ltb_spec 0 (hp (fighter_a st))); [|lia]. simpl.
        repeat split; try done. right. split; [done|lia].
      * left. rewrite bool_decide_eq_true_2 by done. simpl.
        destruct (Z.ltb_spec 0 (hp (fighter_b st))); [|lia]. simpl.
        repeat split; try done. right. split; [done|lia].
  - left. rewrite bool_decide_eq_true_2 by done. simpl.
    destruct (Z.ltb_spec 0 (hp (fighter_b st))); [lia|]. simpl.
    repeat split; try done. left. split; [done|lia].
  - right. rewrite bool_decide_eq_false_2 by done. simpl.
    destruct (Z.ltb_spec 0 (hp (fighter_a st))); [lia|]. simpl.
    repeat split; try done. left. split; [done|lia].
Qed.

Lemma winner_is_left_standing_witness :
  exists r,
    (play (duel None) "A" "B" 1).1 = inr r /\
    ((winner r = "A"%string /\ loser r = "B"%string /\ 0 < final_hp_a r /\
      (win_method r = "KO"%string /\ final_hp_b r = 0 \/
       win_method r = "HP advantage"%string /\ 0 < final_hp_b r <= final_hp_a r)) \/
     (winner r = "B"%string /\ loser r = "A"%string /\ 0 < final_hp_b r /\
      (win_method r = "KO"%string /\ final_hp_a r = 0 \/
       win_method r = "HP advantage"%string /\ 0 < final_hp_a r < final_hp_b r))).
Proof.
  eexists. split; [vm_compute; reflexivity|].
  apply (winner_is_left_standing (duel None) "A" "B" 1); [done|].
  vm_compute. reflexivity.
Defined.

(** X17: whatever the engine (or the random fallback) answers, the ability
    [_get_decision] returns for an attacker with non-negative MP is an ability
    of the attacker's class whose MP cost the attacker can pay. *)
Theorem chosen_ability_is_known_and_affordable g address attacker defender turn st :
  0 <= mp attacker ->
  exists info,
    assoc (_get_decision g address attacker defender turn st).1
      (abilities (CLASSES (class_name attacker))) = Some info /\
    mp_cost info <= mp attacker.
Proof.
  intros Hmp.
  destruct (_get_decision_choice g address attacker defender turn st) as (info & Hi & Hc).
  exists info. split; [done|]. by apply Hc.
Qed.

Lemma chosen_ability_is_known_and_affordable_witness :
  exists info,
    assoc (_get_decision (duel None) "A" (create_fighter "A" warrior)
             (create_fighter "B" mage) 1 (start (duel None) "A" "B")).1
      (abilities (CLASSES warrior)) = Some info /\
    mp_cost info <= 40.
Proof.
  apply (chosen_ability_is_known_and_affordable (duel None) "A" (create_fighter "A" warrior)
           (create_fighter "B" mage) 1 (start (duel None) "A" "B")).
  simpl. lia.
Defined.

(** *** Timed modifiers wear off *)

Lemma filter_aged_buff_step k (l : list Buff) :
  filter (fun b => 0 < buff_turns b)
    (map (fun b => mkBuff (buff_stat b) (buff_amount b) (buff_turns b - 1))
       (filter lasting (map (aged_buff k) l)))
  = filter lasting (map (aged_buff (S k)) l).
Proof.
  induction l as [|d l IH]; [reflexivity|].
  unfold lasting, aged_buff in *. cbn [map]. rewrite !filter_cons.
  cbn [buff_turns buff_amount buff_stat].
  destruct (decide (0 < buff_turns d - Z.of_nat k)) as [Hk|Hk].
  - cbn [map]. rewrite filter_cons. cbn [buff_turns buff_amount buff_stat].
    destruct (decide (0 < buff_turns d - Z.of_nat k - 1)),
             (decide (0 < buff_turns d - Z.of_nat (S k))); try lia.
    + rewrite IH. do 2 f_equal. lia.
    + exact IH.
  - destruct (decide (0 < buff_turns d - Z.of_nat (S k))); [lia|]. exact IH.
Qed.

Lemma buffs_after_ticks f k :
  Forall lasting (buffs f) ->
  buffs (ticks k f) = filter lasting (map (aged_buff k) (buffs f)).
Proof.
  intros Hact. induction k as [|k IH].
  - unfold ticks. simpl. induction Hact as [|d l Hd Hl IHl]; [reflexivity|].
    unfold lasting, aged_buff in *. cbn [map]. rewrite filter_cons.
    cbn [buff_turns buff_amount buff_stat]. change (Z.of_nat 0) with 0 in *.
    rewrite Z.sub_0_r, decide_True by exact Hd.
    rewrite <- IHl. by destruct d.
  - rewrite ticks_S. change (buffs (tick_effects (ticks k f)).1)
      with (filter (fun b => 0 < buff_turns b)
              (map (fun b => mkBuff (buff_stat b) (buff_amount b) (buff_turns b - 1))
                 (buffs (ticks k f)))).
    rewrite IH. apply filter_aged_buff_step.
Qed.

Lemma ticks_frame k f :
  hp (ticks k f) = hp f /\ mp (ticks k f) = mp f /\
  forall stat, base_stat (ticks k f) stat = base_stat f stat.
Proof.
  induction k as [|k (Hh & Hm & Hs)]; [done|]. rewrite ticks_S.
  split; [exact Hh|]. split; [exact Hm|]. intros stat. rewrite <- Hs. by destruct stat.
Qed.

Lemma modifier_total_aged stat k (l : list Buff) :
  modifier_total stat (filter lasting (map (aged_buff k) l))
  = modifier_total stat (filter (fun b => Z.of_nat k < buff_turns b) l).
Proof.
  induction l as [|b l IH]; [reflexivity|].
  cbn [map]. rewrite !filter_cons. unfold lasting at 1. cbn [aged_buff buff_turns].
  destruct (decide (0 < buff_turns b - Z.of_nat k)),
           (decide (Z.of_nat k < buff_turns b)); try lia.
  cbn [modifier_total buff_stat buff_amount]. by rewrite IH.
Qed.

Lemma filter_expired k (l : list Buff) :
  Forall (fun b => buff_turns b <= Z.of_nat k) l ->
  filter (fun b => Z.of_nat k < buff_turns b) l = [].
Proof.
  induction 1 as [|b l Hb _ IH]; [reflexivity|].
  rewrite filter_cons. destruct (decide _); [lia | exact IH].
Qed.

(** X18: for a fighter whose modifiers all have turns left, the effective stat
    after k ticks is the floor-at-1 of the base stat plus the amounts of the
    modifiers on that stat that had more than k turns: each modifier counts
    for its own number of ticks. Once k reaches every counter the modifier
    list is empty and the effective stat is the base stat again (at least 1). *)
Theorem stat_modifiers_wear_off (f : Fighter) (k : nat) (stat : Stat) :
  Forall lasting (buffs f) ->
  effective_stat (ticks k f) stat
  = Z.max 1 (base_stat f stat
             + sum (map buff_amount
                      (filter (fun b => buff_stat b = stat)
                         (filter (fun b => Z.of_nat k < buff_turns b) (buffs f))))) /\
  (Forall (fun b => buff_turns b <= Z.of_nat k) (buffs f) ->
   buffs (ticks k f) = [] /\ effective_stat (ticks k f) stat = Z.max 1 (base_stat f stat)).
Proof.
  intros Hl.
  destruct (ticks_frame k f) as (_ & _ & Hbase).
  assert (E : effective_stat (ticks k f) stat
              = Z.max 1 (base_stat f stat
                         + modifier_total stat
                             (filter (fun b => Z.of_nat k < buff_turns b) (buffs f)))).
  { unfold effective_stat. rewrite sum_filter_modifier_total, Hbase.
    rewrite buffs_after_ticks by done. by rewrite modifier_total_aged. }
  split; [by rewrite E, sum_filter_modifier_total|].
  intros Hexp. rewrite E, buffs_after_ticks by done.
  rewrite (filter_expired k _ Hexp). simpl.
  split; [|f_equal; lia].
  clear -Hexp. induction Hexp as [|b l Hb _ IH]; [reflexivity|].
  cbn [map]. rewrite filter_cons. unfold lasting at 1. cbn [aged_buff buff_turns].
  destruct (decide _); [lia | exact IH].
Qed.

Lemma stat_modifiers_wear_off_witness :
  effective_stat (ticks 0 crippled_warrior) Atk = 1 /\
  effective_stat (ticks 1 crippled_warrior) Atk = 1 /\
  effective_stat (ticks 2 crippled_warrior) Atk = 18 /\
  buffs (ticks 2 crippled_warrior) = [].
Proof.
  assert (Hl : Forall lasting (buffs crippled_warrior)).
  { repeat constructor; unfold lasting; simpl; lia. }
  assert (Hexp : Forall (fun b => buff_turns b <= Z.of_nat 2) (buffs crippled_warrior)).
  { repeat constructor; simpl; lia. }
  destruct (stat_modifiers_wear_off crippled_warrior 0 Atk Hl) as [H0 _].
  destruct (stat_modifiers_wear_off crippled_warrior 1 Atk Hl) as [H1 _].
  destruct (stat_modifiers_wear_off crippled_warrior 2 Atk Hl) as [_ H2].
  destruct (H2 Hexp) as [H2b H2e].
  split; [exact H0|]. split; [exact H1|]. split; [exact H2e|]. exact H2b.
Defined.

(** *** Cleansing *)

Lemma sum_positive_amounts (l : list Buff) :
  Forall (fun b => 0 < buff_amount b) l -> forall stat, 0 <= modifier_total stat l.
Proof.
  induction 1 as [|b l Hb _ IH]; intros stat; simpl; [lia|].
  specialize (IH stat). case_bool_decide; lia.
Qed.

(** X19: an ability of type cleanse leaves its user without damage-over-time (the
    next tick deals 0) and with exactly its modifiers of positive amount, in
    order, so that no effective stat of the user is below its base value (or
    1); the opponent is not touched. *)
Theorem cleanse_removes_dots_and_debuffs att ability_name turn st ability :
  assoc ability_name (abilities (CLASSES (class_name (fighter st att)))) = Some ability ->
  type ability = cleanse ->
  let before := fighter st att in
  let after := fighter (_resolve_ability att ability_name turn st) att in
  dots after = [] /\ (tick_effects after).2 = 0 /\
  buffs after = filter (fun b => 0 < buff_amount b) (buffs before) /\
  (forall stat, Z.max 1 (base_stat before stat) <= effective_stat after stat) /\
  fighter (_resolve_ability att ability_name turn st) (other att) = fighter st (other att).
Proof.
  intros Ha Ht. cbv zeta. unfold _resolve_ability. rewrite Ha, Ht. cbv zeta.
  assert (Hpos : forall stat,
            0 <= modifier_total stat
                   (filter (fun b => 0 < buff_amount b) (buffs (fighter st att)))).
  { apply sum_positive_amounts. apply Forall_forall. intros b Hb.
    by apply list_elem_of_filter in Hb as [? _]. }
  destruct att; resolve_cbn; (split; [done|]); (split; [done|]); (split; [done|]);
    (split; [|by destruct st]); intros stat; specialize (Hpos stat);
    unfold effective_stat; rewrite sum_filter_modifier_total; resolve_cbn;
    cbn [fighter] in Hpos; destruct stat; cbn [base_stat atk defense speed set_hp set_mp set_buffs set_dots]; lia.
Qed.

Lemma cleanse_removes_dots_and_debuffs_witness :
  dots (fighter (_resolve_ability SideA "purify" 1 cursed_healer) SideA) = [] /\
  buffs (fighter (_resolve_ability SideA "purify" 1 cursed_healer) SideA)
  = [mkBuff Speed 2 1] /\
  10 <= effective_stat (fighter (_resolve_ability SideA "purify" 1 cursed_healer) SideA) Atk.
Proof.
  destruct (cleanse_removes_dots_and_debuffs SideA "purify" 1 cursed_healer _
              eq_refl eq_refl) as (Hd & _ & Hb & He & _).
  split; [exact Hd|]. split; [exact Hb|]. exact (He Atk).
Defined.

(** *** A StrategyEngine behind the validation *)

Lemma _get_decision_available g address attacker defender turn st :
  (_get_decision g address attacker defender turn st).1
  = let names := available_names attacker in
    let answer :=
      match strategy_engines g !! address with
      | None => Some (nth (rand_choice g turn address mod length names) names ""%string)
      | Some engine => decide_rpg_action engine turn attacker defender names
      end in
    let ability := default ""%string answer in
    if bool_decide (ability ∈ names) then ability else nth 0 names ""%string.
Proof. reflexivity. Qed.

Lemma available_names_nonempty attacker : available_names attacker <> [].
Proof.
  unfold available_names. cbv zeta.
  destruct (filter _ (abilities (CLASSES (class_name attacker)))); [|done].
  by destruct (catalog_defend (class_name attacker)) as (info & -> & _).
Qed.

(** X20: the abilities [_get_decision] offers to an engine are never an empty
    dictionary, so [StrategyEngine.decide_rpg_action] does not raise on them,
    and its validated answer is one of the names offered; [_get_decision]
    returns that answer as it is: the second validation never replaces it. *)
Theorem strategy_engine_choice_is_kept g address attacker defender turn st engine raw :
  strategy_engines g !! address = Some engine ->
  decide_rpg_action engine turn attacker defender (available_names attacker)
  = Strategy.decide_rpg_action raw (available_names attacker) ->
  exists ability,
    Strategy.decide_rpg_action raw (available_names attacker) = Some ability /\
    ability ∈ available_names attacker /\
    (_get_decision g address attacker defender turn st).1 = ability.
Proof.
  intros He Hd.
  destruct (Strategy.decide_rpg_action_offers raw (available_names attacker))
    as [_ Hsome].
  destruct (Hsome (available_names_nonempty attacker)) as (ability & Ea & Hin & _).
  exists ability. split; [done|]. split; [done|].
  rewrite _get_decision_available. cbv zeta. rewrite He, Hd, Ea. cbn [default from_option].
  unfold id. by rewrite bool_decide_eq_true_2.
Qed.

Lemma strategy_engine_choice_is_kept_witness :
  exists ability,
    Strategy.decide_rpg_action (Some "berserk"%string)
      (available_names (create_fighter "A" warrior)) = Some ability /\
    ability ∈ available_names (create_fighter "A" warrior) /\
    (_get_decision berserker_duel "A" (create_fighter "A" warrior)
       (create_fighter "B" mage) 1 (start berserker_duel "A" "B")).1 = ability.
Proof.
  apply (strategy_engine_choice_is_kept berserker_duel "A" (create_fighter "A" warrior)
           (create_fighter "B" mage) 1 (start berserker_duel "A" "B") berserker
           (Some "berserk"%string)); reflexivity.
Defined.

End Rpg.

(** ** agent/bankroll.py: the bankroll manager *)

Module Bankroll.

Import Py Strategy.
Local Open Scope Q_scope.

(** An entry of [history]. *)
Record HistoryEntry := mkHistoryEntry {
  h_wager : Q;
  h_won : bool;
  h_payout : Q;
  balance_after : Q;
  h_session_pnl : Q;
}.

Record BankrollManager := mkBankrollManager {
  initial_balance : Q;
  balance : Q;
  max_single_wager_pct : Q;
  risk_level : string;
  session_pnl : Q;
  games_played : Z;
  wins : Z;
  history : list HistoryEntry;
}.

(** [__post_init__] *)
Definition __post_init__ (self : BankrollManager) : BankrollManager :=
  let balance := if Qeq_bool (balance self) 0 then initial_balance self else balance self in
  let pct :=
    if bool_decide (risk_level self = "low"%string) then 5 # 100
    else if bool_decide (risk_level self = "high"%string) then 15 # 100
    else max_single_wager_pct self in
  mkBankrollManager (initial_balance self) balance pct (risk_level self)
    (session_pnl self) (games_played self) (wins self) (history self).

(** [BankrollManager(initial_balance=..., risk_level=...)], every other
    field at its default. *)
Definition new (initial_balance : Q) (risk_level : string) : BankrollManager :=
  __post_init__ (mkBankrollManager initial_balance 0 (10 # 100) risk_level 0 0 0 []).

(** The [win_rate] property. *)
Definition win_rate (self : BankrollManager) : Q :=
  if (games_played self =? 0)%Z then 1 # 2
  else inject_Z (wins self) / inject_Z (games_played self).


Definition min_wager (self : BankrollManager) : Q := 1 # 1000.



(** [record_result(wager, won, payout)] *)
Definition record_result (self : BankrollManager) (wager : Q) (won : bool) (payout : Q)
  : BankrollManager :=
  let games_played := (games_played self + 1)%Z in
  let '(wins, balance, session_pnl) :=
    if won then
      let profit := payout - wager in
      ((wins self + 1)%Z, balance self + profit, session_pnl self + profit)
    else (wins self, balance self - wager, session_pnl self - wager) in
  mkBankrollManager (initial_balance self) balance (max_single_wager_pct self)
    (risk_level self) session_pnl games_played wins
    (history self ++ [mkHistoryEntry wager won payout balance session_pnl]).

(** A sequence of [record_result] calls, oldest first. *)
Definition record_results (self : BankrollManager) (results : list (Q * bool * Q))
  : BankrollManager :=
  fold_left (fun b '(wager, won, payout) => record_result b wager won payout) results self.


(** *** Properties *)

Lemma record_result_fields self wager won payout :
  let b := record_result self wager won payout in
  games_played b = (games_played self + 1)%Z /\
  wins b = (wins self + if won then 1 else 0)%Z /\
  initial_balance b = initial_balance self /\
  risk_level b = risk_level self /\
  max_single_wager_pct b = max_single_wager_pct self /\
  exists e, history b = history self ++ [e] /\ h_won e = won /\ h_wager e = wager /\
            h_payout e = payout /\ balance_after e = balance b /\
            h_session_pnl e = session_pnl b.
Proof.
  cbv zeta. unfold record_result. destruct won; cbn; repeat split; try lia;
    eexists; repeat split.
Qed.

Lemma record_results_snoc self results r :
  record_results self (results ++ [r])
  = record_result (record_results self results) r.1.1 r.1.2 r.2.
Proof. unfold record_results. rewrite fold_left_app. by destruct r as [[? ?] ?]. Qed.

Lemma win_rate_range self :
  (0 <= wins self <= games_played self)%Z -> 0 <= win_rate self <= 1.
Proof.
  intros [H0 H1]. unfold win_rate. destruct (Z.eqb_spec (games_played self) 0); [lra|].
  assert (Hg : 0 < inject_Z (games_played self)).
  { change 0 with (inject_Z 0). rewrite <- Zlt_Qlt. lia. }
  assert (Hw : 0 <= inject_Z (wins self)).
  { change 0 with (inject_Z 0). rewrite <- Zle_Qle. lia. }
  assert (Hwg : inject_Z (wins self) <= inject_Z (games_played self)).
  { rewrite <- Zle_Qle. lia. }
  split.
  - apply Qle_shift_div_l; [done|]. lra.
  - apply Qle_shift_div_r; [done|]. lra.
Qed.

(** X21: after any sequence of [record_result] calls on a new manager, the games
    counter is the number of calls and the wins counter the number of calls
    with [won], so the win rate lies in [0, 1]; the history holds the wager,
    outcome and payout of each call, in order, and its last entry carries the
    manager's current balance and session P&L; the wager cap fraction and
    the initial balance never change. *)
Theorem bankroll_counts_every_result initial risk (results : list (Q * bool * Q)) :
  let b := record_results (new initial risk) results in
  games_played b = Z.of_nat (length results) /\
  wins b = Z.of_nat (length (filter (fun r => r.1.2 = true) results)) /\
  (0 <= wins b <= games_played b)%Z /\
  0 <= win_rate b <= 1 /\
  map (fun e => (h_wager e, h_won e, h_payout e)) (history b) = results /\
  (forall e, last (history b) = Some e ->
     balance_after e = balance b /\ h_session_pnl e = session_pnl b) /\
  max_single_wager_pct b = max_single_wager_pct (new initial risk) /\
  initial_balance b = initial.
Proof.
  cbv zeta.
  assert (H : let b := record_results (new initial risk) results in
    games_played b = Z.of_nat (length results) /\
    wins b = Z.of_nat (length (filter (fun r => r.1.2 = true) results)) /\
    map (fun e => (h_wager e, h_won e, h_payout e)) (history b) = results /\
    (forall e, last (history b) = Some e ->
       balance_after e = balance b /\ h_session_pnl e = session_pnl b) /\
    max_single_wager_pct b = max_single_wager_pct (new initial risk) /\
    initial_balance b = initial).
  { induction results as [|r results IH] using rev_ind; cbv zeta.
    - cbn. repeat split; try done.
    - rewrite record_results_snoc.
      destruct IH as (Hg & Hw & Hh & _ & Hp & Hi).
      destruct (record_result_fields (record_results (new initial risk) results)
                  r.1.1 r.1.2 r.2) as (Eg & Ew & Ei & _ & Ep & e & Eh & E1 & E2 & E3 & E4 & E5).
      rewrite Eg, Ew, Ei, Ep, Eh, Hg, Hw, Hp, Hi.
      rewrite length_app, filter_app, length_app, map_app, Hh. cbn [length map].
      rewrite E1, E2, E3. destruct r as [[w won] p]. cbn [fst snd].
      split; [lia|]. split.
      { rewrite filter_cons, filter_nil. destruct won; cbn.
        - rewrite decide_True by done. simpl. lia.
        - rewrite decide_False by done. simpl. lia. }
      split; [done|]. split; [|done].
      intros e'. rewrite last_snoc. by intros [= <-]. }
  cbv zeta in H. destruct H as (Hg & Hw & Hh & Hl & Hp & Hi).
  assert (Hr : (0 <= wins (record_results (new initial risk) results)
                <= games_played (record_results (new initial risk) results))%Z).
  { rewrite Hg, Hw. split; [lia|]. apply inj_le, length_filter. }
  split; [done|]. split; [done|]. split; [done|].
  split; [by apply win_rate_range|]. done.
Qed.




End Bankroll.

(** ** agent/opponent_model.py: the opponent model *)

Module Opponent.

Import Py.
Local Open Scope Z_scope.

Record OpponentModel := mkOpponentModel {
  address : string;
  games_played : Z;
  wins : Z;
  losses : Z;
  moves_history : list string;
  recent_moves : list string;
  fold_count : Z;
  call_count : Z;
  raise_count : Z;
  bluff_count : Z;
  check_count : Z;
  bid_history : list (Q * Q);
  overbid_count : Z;
  underbid_count : Z;
}.

(** [OpponentModel(address=address)] *)
Definition new (address : string) : OpponentModel :=
  mkOpponentModel address 0 0 0 [] [] 0 0 0 0 0 [] 0 0.

(** [deque.append(x)] on a [deque(maxlen=maxlen)]: when the deque is full
    the oldest item is discarded. *)
Definition deque_append {A} (maxlen : nat) (d : list A) (x : A) : list A :=
  let d := d ++ [x] in
  if (maxlen <? length d)%nat then drop 1 d else d.

(** The [total_actions] property. *)
Definition total_actions (self : OpponentModel) : Z :=
  fold_count self + call_count self + raise_count self + check_count self.

(** The [aggression] and [tightness] properties. *)
Definition aggression (self : OpponentModel) : Q :=
  let total := total_actions self in
  if total =? 0 then 1 # 2 else (inject_Z (raise_count self) / inject_Z total)%Q.

Definition tightness (self : OpponentModel) : Q :=
  let total := total_actions self in
  if total =? 0 then 1 # 2 else (inject_Z (fold_count self) / inject_Z total)%Q.

(** [record_poker_action(action, was_bluff)] *)
Definition record_poker_action (self : OpponentModel) (action : string) (was_bluff : bool)
  : OpponentModel :=
  let bump (name : string) (count : Z) :=
    if bool_decide (action = name) then count + 1 else count in
  mkOpponentModel (address self) (games_played self) (wins self) (losses self)
    (moves_history self ++ [action]) (deque_append 10 (recent_moves self) action)
    (bump "fold"%string (fold_count self)) (bump "call"%string (call_count self))
    (bump "raise"%string (raise_count self))
    (if was_bluff then bluff_count self + 1 else bluff_count self)
    (bump "check"%string (check_count self))
    (bid_history self) (overbid_count self) (underbid_count self).

(** [record_auction_bid(bid, item_value)] *)
Definition record_auction_bid (self : OpponentModel) (bid item_value : Q) : OpponentModel :=
  mkOpponentModel (address self) (games_played self) (wins self) (losses self)
    (moves_history self) (recent_moves self)
    (fold_count self) (call_count self) (raise_count self) (bluff_count self)
    (check_count self)
    (bid_history self ++ [(bid, item_value)])
    (if Qltb item_value bid then overbid_count self + 1 else overbid_count self)
    (if Qltb item_value bid then underbid_count self else underbid_count self + 1).

(** [record_game_result(won)] *)
Definition record_game_result (self : OpponentModel) (won : bool) : OpponentModel :=
  mkOpponentModel (address self) (games_played self + 1)
    (if won then wins self + 1 else wins self)
    (if won then losses self else losses self + 1)
    (moves_history self) (recent_moves self)
    (fold_count self) (call_count self) (raise_count self) (bluff_count self)
    (check_count self) (bid_history self) (overbid_count self) (underbid_count self).

(** [get_style()] *)
Definition get_style (self : OpponentModel) : string :=
  if total_actions self <? 3 then "unknown"
  else
    let agg := aggression self in
    let tight := tightness self in
    if Qltb (4 # 10) agg && Qltb tight (3 # 10) then "loose-aggressive"
    else if Qltb (4 # 10) agg && Qle_bool (3 # 10) tight then "tight-aggressive"
    else if Qle_bool agg (4 # 10) && Qltb tight (3 # 10) then "loose-passive"
    else "tight-passive".

(** A call of one of the three recording methods. *)
Inductive Call :=
  | PokerAction (action : string) (was_bluff : bool)
  | AuctionBid (bid item_value : Q)
  | GameResult (won : bool).

Definition call (self : OpponentModel) (c : Call) : OpponentModel :=
  match c with
  | PokerAction action was_bluff => record_poker_action self action was_bluff
  | AuctionBid bid item_value => record_auction_bid self bid item_value
  | GameResult won => record_game_result self won
  end.

(** A sequence of calls on one model, oldest first. *)
Definition calls (self : OpponentModel) (cs : list Call) : OpponentModel :=
  fold_left call cs self.

(** How many of the recorded moves are [name]. *)
Definition count_of (name : string) (moves : list string) : Z :=
  Z.of_nat (length (filter (fun m => m = name) moves)).

(** The last [n] items of a list. *)
Definition last_n {A} (n : nat) (l : list A) : list A := drop (length l - n) l.

(** *** Properties *)

Lemma deque_append_last_n {A} (n : nat) (l : list A) (x : A) :
  (1 <= n)%nat -> deque_append n (last_n n l) x = last_n n (l ++ [x]).
Proof.
  intros Hn. unfold deque_append, last_n. rewrite !length_app, length_drop. cbn [length].
  destruct (Nat.ltb_spec n (length l - (length l - n) + 1)) as [Hlt|Hge].
  - assert (n <= length l)%nat by lia.
    rewrite (drop_app_le (drop _ l)) by (rewrite length_drop; lia).
    rewrite drop_drop, (drop_app_le l) by lia. do 2 f_equal. lia.
  - assert (length l < n)%nat by lia.
    replace (length l - n)%nat with 0%nat by lia.
    replace (length l + 1 - n)%nat with 0%nat by lia. by rewrite !drop_0.
Qed.

Lemma count_of_snoc name moves m :
  count_of name (moves ++ [m])
  = count_of name moves + (if bool_decide (m = name) then 1 else 0).
Proof.
  unfold count_of. rewrite filter_app, length_app, filter_cons, filter_nil.
  case_bool_decide.
  - rewrite decide_True by done. simpl. lia.
  - rewrite decide_False by done. simpl. lia.
Qed.

Lemma calls_snoc self cs c : calls self (cs ++ [c]) = call (calls self cs) c.
Proof. unfold calls. by rewrite fold_left_app. Qed.

Lemma count_of_bound moves :
  count_of "fold" moves + count_of "call" moves + count_of "raise" moves
  + count_of "check" moves <= Z.of_nat (length moves).
Proof.
  induction moves as [|m moves IH] using rev_ind; [done|].
  rewrite !count_of_snoc, length_app. cbn [length].
  repeat case_bool_decide; subst; try lia; discriminate.
Qed.

(** X23: after any sequence of recording calls on a new opponent model:
    [moves_history] is the poker actions in order and [recent_moves] its last
    10; the fold, call, raise and check counters count those four names in
    the history, so any other action string is kept but not counted and
    [total_actions] is at most the history's length; [get_style] is "unknown"
    exactly while fewer than 3 actions were counted; bluffs are at most the
    history's length; games played is wins plus losses; and overbids plus
    underbids is the number of recorded bids. *)
Theorem opponent_model_counts_what_was_recorded addr (cs : list Call) :
  let m := calls (new addr) cs in
  address m = addr /\
  moves_history m
  = omap (fun c => match c with PokerAction a _ => Some a | _ => None end) cs /\
  recent_moves m = last_n 10 (moves_history m) /\
  fold_count m = count_of "fold" (moves_history m) /\
  call_count m = count_of "call" (moves_history m) /\
  raise_count m = count_of "raise" (moves_history m) /\
  check_count m = count_of "check" (moves_history m) /\
  0 <= total_actions m <= Z.of_nat (length (moves_history m)) /\
  (get_style m = "unknown"%string <-> total_actions m < 3) /\
  0 <= bluff_count m <= Z.of_nat (length (moves_history m)) /\
  0 <= wins m /\ 0 <= losses m /\ games_played m = wins m + losses m /\
  0 <= overbid_count m /\ 0 <= underbid_count m /\
  overbid_count m + underbid_count m = Z.of_nat (length (bid_history m)).
Proof.
  cbv zeta.
  assert (Hstyle : forall m, get_style m = "unknown"%string <-> total_actions m < 3).
  { intros m. unfold get_style. destruct (Z.ltb_spec (total_actions m) 3) as [|Hge].
    - done.
    - split; [|lia]. destruct (_ && _); [done|]. destruct (_ && _); [done|].
      by destruct (_ && _). }
  assert (H : let m := calls (new addr) cs in
    address m = addr /\
    moves_history m
    = omap (fun c => match c with PokerAction a _ => Some a | _ => None end) cs /\
    recent_moves m = last_n 10 (moves_history m) /\
    fold_count m = count_of "fold" (moves_history m) /\
    call_count m = count_of "call" (moves_history m) /\
    raise_count m = count_of "raise" (moves_history m) /\
    check_count m = count_of "check" (moves_history m) /\
    0 <= bluff_count m <= Z.of_nat (length (moves_history m)) /\
    0 <= wins m /\ 0 <= losses m /\ games_played m = wins m + losses m /\
    0 <= overbid_count m /\ 0 <= underbid_count m /\
    overbid_count m + underbid_count m = Z.of_nat (length (bid_history m))).
  { induction cs as [|c cs IH] using rev_ind; cbv zeta.
    - cbn. repeat split; done.
    - rewrite calls_snoc, omap_app.
      destruct IH as (Ha & Hm & Hr & Hf & Hc & Hra & Hch & Hb & Hw & Hl & Hg & Ho & Hu & Hou).
      set (m := calls (new addr) cs) in *. clearbody m.
      destruct c as [a bluff | bid value | won]; cbn [call omap mbind option_bind].
      + unfold record_poker_action.
        cbn [address moves_history recent_moves fold_count call_count raise_count
             check_count bluff_count wins losses games_played overbid_count
             underbid_count bid_history].
        rewrite !count_of_snoc, <- Hf, <- Hc, <- Hra, <- Hch, Hr, <- Hm.
        rewrite deque_append_last_n by lia. rewrite length_app. cbn [length].
        split; [done|]. split; [done|]. split; [done|].
        do 4 (split; [case_bool_decide; lia|]).
        split; [destruct bluff; lia|]. done.
      + unfold record_auction_bid.
        cbn [address moves_history recent_moves fold_count call_count raise_count
             check_count bluff_count wins losses games_played overbid_count
             underbid_count bid_history].
        rewrite app_nil_r, length_app. cbn [length].
        repeat (split; [done|]). destruct (Qltb value bid); repeat split; lia.
      + unfold record_game_result.
        cbn [address moves_history recent_moves fold_count call_count raise_count
             check_count bluff_count wins losses games_played overbid_count
             underbid_count bid_history].
        rewrite app_nil_r.
        repeat (split; [done|]). destruct won; repeat split; lia. }
  cbv zeta in H.
  destruct H as (Ha & Hm & Hr & Hf & Hc & Hra & Hch & Hb & Hrest).
  repeat (split; [done|]).
  split; [|done].
  unfold total_actions. rewrite Hf, Hc, Hra, Hch. split.
  - unfold count_of. lia.
  - apply count_of_bound.
Qed.

End Opponent.

(** ** arena/manager.py, arena/matchmaker.py: matches between agents *)

Module Arena.

Import Py Bankroll.
Local Open Scope Z_scope.

(** *** The bankrolls after a match *)

(** [agent.bankroll.record_result(wager, won, payout)] for the agent
    registered under [addr]. [agents] maps an address to the bankroll of its
    agent: one object per address, so the two players of a match share it
    when their addresses are equal. *)
Definition record (agents : gmap string BankrollManager) (addr : string) (wager : Q)
  (won : bool) (payout : Q) : gmap string BankrollManager :=
  match agents !! addr with
  | Some bankroll => <[addr := record_result bankroll wager won payout]> agents
  | None => agents
  end.

(** The bankroll part of [ArenaManager._update_agent_stats]. *)
Definition _update_agent_stats (agents : gmap string BankrollManager)
  (agent_a agent_b winner : string) (wager : Q) : gmap string BankrollManager :=
  let payout := (wager * 2 * (99 # 100))%Q in
  if bool_decide (winner = agent_a)
  then record (record agents agent_a wager true payout) agent_b wager false 0%Q
  else record (record agents agent_b wager true payout) agent_a wager false 0%Q.

(** *** Matchmaking *)

(** [sorted(xs, key=key)] / [xs.sort(key=key)]: a stable ascending
    insertion sort. *)
Fixpoint insert_by {A} (key : A -> Z) (x : A) (l : list A) : list A :=
  match l with
  | [] => [x]
  | y :: t => if key x <=? key y then x :: y :: t else y :: insert_by key x t
  end.

Definition sort_by {A} (key : A -> Z) (l : list A) : list A :=
  foldr (insert_by key) [] l.

(** The test of [find_opponent] on an agent of the arena: not the player,
    and a balance of at least the minimum wager. *)
Definition is_candidate (agents : gmap string BankrollManager) (player_addr addr : string)
  : bool :=
  negb (bool_decide (addr = player_addr)) &&
  match agents !! addr with
  | Some bankroll => Qle_bool (min_wager bankroll) (balance bankroll)
  | None => false
  end.

(** [skill_distance(addr)] *)
Definition skill_distance (agents : gmap string BankrollManager) (player_games : Z)
  (addr : string) : Z :=
  match agents !! addr with
  | Some bankroll => Z.abs (player_games - games_played bankroll)
  | None => 0
  end.

(** [Matchmaker.find_opponent(player_addr, game_type)]; [order] lists the
    keys of [self.arena.agents] in the order of the dictionary. *)
Definition find_opponent (order : list string) (agents : gmap string BankrollManager)
  (player_addr : string) : option string :=
  match agents !! player_addr with
  | None => None
  | Some player =>
      let candidates := List.filter (is_candidate agents player_addr) order in
      match candidates with
      | [] => None
      | _ =>
          let player_games := games_played player in
          head (sort_by (skill_distance agents player_games) candidates)
      end
  end.

(** The two players of match [i] of [auto_match]. *)
Definition matchup (agents : list string) (i : nat) : string * string :=
  let a_idx := (i mod length agents)%nat in
  let b_idx := ((i + 1) mod length agents)%nat in
  let b_idx := if (a_idx =? b_idx)%nat then ((b_idx + 1) mod length agents)%nat else b_idx in
  (nth a_idx agents ""%string, nth b_idx agents ""%string).

(** The matches [auto_match] asks [run_match] for, in order; [None] is the
    [ValueError] for fewer than two agents. *)
Definition auto_match (agents : list string) (num_matches : nat)
  : option (list (string * string)) :=
  if (length agents <? 2)%nat then None
  else Some (map (matchup agents) (seq 0 num_matches)).

(** The matches [round_robin] asks [run_match] for, in order. *)
Definition round_robin (agents : list string) : list (string * string) :=
  i ← seq 0 (length agents);
  j ← seq (i + 1) (length agents - (i + 1));
  [(nth i agents ""%string, nth j agents ""%string)].

(** Three registered agents: [C] has played one game, [A] and [B] none. *)
Definition three_agents : gmap string BankrollManager :=
  <["C"%string := record_result (new 1 "medium") (1 # 100) true (2 # 100)]>
    (<["B"%string := new 1 "medium"]> (<["A"%string := new 1 "medium"]> ∅)).

(** *** Properties *)

Lemma insert_by_head {A} (key : A -> Z) x l :
  head (insert_by key x l)
  = match head l with
    | Some y => if key x <=? key y then Some x else Some y
    | None => Some x
    end.
Proof. destruct l as [|y t]; [done|]. simpl. by destruct (_ <=? _). Qed.

Lemma sort_by_head {A} (key : A -> Z) (l : list A) x :
  head (sort_by key l) = Some x ->
  exists l1 l2, l = l1 ++ x :: l2 /\
    Forall (fun y => key x < key y) l1 /\ Forall (fun y => key x <= key y) l2.
Proof.
  revert x. induction l as [|y l IH]; intros x; [done|].
  cbn [sort_by foldr]. fold (sort_by key l). rewrite insert_by_head.
  destruct (head (sort_by key l)) as [z|] eqn:Ez.
  - destruct (IH z eq_refl) as (l1 & l2 & -> & H1 & H2).
    destruct (Z.leb_spec (key y) (key z)) as [Hle|Hgt]; intros [= <-].
    + exists [], (l1 ++ z :: l2). split; [done|]. split; [constructor|].
      apply Forall_app. split.
      * eapply Forall_impl; [exact H1|]. simpl. intros. lia.
      * constructor; [done|]. eapply Forall_impl; [exact H2|]. simpl. intros. lia.
    + exists (y :: l1), l2. split; [done|]. split; [|done]. constructor; [lia|done].
  - intros [= <-]. destruct l as [|y' l].
    + exists [], []. repeat split; constructor.
    + exfalso. cbn [sort_by foldr] in Ez. fold (sort_by key l) in Ez.
      rewrite insert_by_head in Ez. destruct (head (sort_by key l)); [|done].
      by destruct (_ <=? _).
Qed.

Lemma sort_by_head_nonempty {A} (key : A -> Z) (l : list A) :
  l <> [] -> exists x, head (sort_by key l) = Some x.
Proof.
  destruct l as [|y l]; [done|]. intros _.
  cbn [sort_by foldr]. fold (sort_by key l). rewrite insert_by_head.
  destruct (head (sort_by key l)); [|by eexists]. destruct (_ <=? _); by eexists.
Qed.

(** X24: for a registered player, [find_opponent] returns [None] exactly when no
    other agent has a balance of at least the minimum wager. Otherwise it
    returns another agent, with such a balance, whose games played are closest
    to the player's: strictly closer than every candidate before it in the
    dictionary and at least as close as every candidate after it. *)
Theorem find_opponent_picks_the_closest_candidate order agents player_addr player :
  agents !! player_addr = Some player ->
  (find_opponent order agents player_addr = None <->
   forall addr, addr ∈ order -> is_candidate agents player_addr addr = false) /\
  (forall opponent, find_opponent order agents player_addr = Some opponent ->
     opponent <> player_addr /\
     (exists bankroll, agents !! opponent = Some bankroll /\
        (min_wager bankroll <= balance bankroll)%Q) /\
     exists before after, order = before ++ opponent :: after /\
       let distance := skill_distance agents (games_played player) in
       (forall addr, addr ∈ before -> is_candidate agents player_addr addr = true ->
          distance opponent < distance addr) /\
       (forall addr, addr ∈ after -> is_candidate agents player_addr addr = true ->
          distance opponent <= distance addr)).
Proof.
  intros Hp. unfold find_opponent. rewrite Hp.
  set (candidates := List.filter _ order).
  assert (Hc : forall addr, addr ∈ candidates
                <-> addr ∈ order /\ is_candidate agents player_addr addr = true).
  { intros addr. subst candidates. rewrite !list_elem_of_In, filter_In. done. }
  split.
  - destruct candidates as [|c cs] eqn:Ec.
    + split; [|done]. intros _ addr Hin.
      destruct (is_candidate agents player_addr addr) eqn:E; [|done].
      exfalso. eapply not_elem_of_nil. apply Hc. done.
    + destruct (sort_by_head_nonempty (skill_distance agents (games_played player))
                  (c :: cs)) as [x Hx]; [done|].
      rewrite Hx. split; [done|]. intros Hall. exfalso.
      assert (Hin : c ∈ c :: cs) by (apply elem_of_cons; by left).
      apply Hc in Hin as [Hin Hcand]. by rewrite (Hall c Hin) in Hcand.
  - intros opponent Ho.
    assert (Hs : head (sort_by (skill_distance agents (games_played player)) candidates)
                 = Some opponent).
    { destruct candidates; [done | exact Ho]. }
    clear Ho. apply sort_by_head in Hs as (l1 & l2 & El & H1 & H2).
    assert (Hin : opponent ∈ candidates).
    { rewrite El. apply elem_of_app. right. apply elem_of_cons. by left. }
    apply Hc in Hin as [Hin Hcand].
    unfold is_candidate in Hcand. apply andb_prop in Hcand as [Hne Hbal].
    apply negb_true_iff, bool_decide_eq_false in Hne.
    split; [done|]. split.
    { destruct (agents !! opponent) as [bk|]; [|done]. exists bk. split; [done|].
      by apply Qle_bool_iff. }
    (* split [order] at the position of the first candidate of [l2] *)
    clear Hbal Hne Hin Hc.
    subst candidates. revert l1 El H1.
    induction order as [|a order IH]; intros l1 El H1.
    { simpl in El. by destruct l1. }
    cbn [List.filter] in El.
    destruct (is_candidate agents player_addr a) eqn:Ea.
    + destruct l1 as [|b l1].
      * injection El as -> El. exists [], order. split; [done|]. cbv zeta. split.
        { intros addr Hin. by apply elem_of_nil in Hin. }
        intros addr Hin Hcand. rewrite Forall_forall in H2. apply H2.
        rewrite <- El. apply list_elem_of_In, filter_In. by rewrite <- list_elem_of_In.
      * injection El as -> El. apply Forall_cons in H1 as [Hb H1].
        destruct (IH l1 El H1) as (before & after & -> & Hbefore & Hafter).
        exists (b :: before), after. split; [done|]. cbv zeta. split; [|done].
        intros addr Hin Hcand. apply elem_of_cons in Hin as [-> | Hin]; [done|].
        by apply Hbefore.
    + destruct (IH l1 El H1) as (before & after & -> & Hbefore & Hafter).
      exists (a :: before), after. split; [done|]. cbv zeta. split; [|done].
      intros addr Hin Hcand. apply elem_of_cons in Hin as [-> | Hin]; [congruence|].
      by apply Hbefore.
Qed.

Lemma find_opponent_picks_the_closest_candidate_witness :
  find_opponent ["A"; "B"; "C"]%string three_agents "A" = Some "B"%string /\
  (find_opponent ["A"]%string three_agents "A" = None <->
   forall addr, addr ∈ ["A"]%string -> is_candidate three_agents "A" addr = false).
Proof.
  destruct (find_opponent_picks_the_closest_candidate ["A"]%string three_agents "A"
              (new 1 "medium") eq_refl) as [Hnone _].
  split; [reflexivity | exact Hnone].
Defined.

Lemma succ_mod_ne (n i : nat) : (2 <= n)%nat -> ((i + 1) mod n)%nat <> (i mod n)%nat.
Proof.
  intros Hn. rewrite <- Nat.Div0.add_mod_idemp_l.
  pose proof (Nat.mod_upper_bound i n ltac:(lia)) as Hr.
  destruct (decide (i mod n + 1 = n)%nat) as [E|E].
  - rewrite E, Nat.Div0.mod_same. lia.
  - rewrite Nat.mod_small by lia. lia.
Qed.

(** X25: [auto_match] raises with fewer than two agents. With at least two
    (distinct dictionary keys) it asks for exactly [num_matches] matches, match
    i between agent i mod n and the next agent (i + 1) mod n; the two are never
    the same, so the branch that repairs equal indices is never taken. *)
Theorem auto_match_never_pairs_an_agent_with_itself agents num_matches :
  NoDup agents ->
  ((length agents < 2)%nat -> auto_match agents num_matches = None) /\
  ((2 <= length agents)%nat ->
   exists matches,
     auto_match agents num_matches = Some matches /\ length matches = num_matches /\
     forall i a b, matches !! i = Some (a, b) ->
       a <> b /\ agents !! (i mod length agents)%nat = Some a /\
       agents !! ((i + 1) mod length agents)%nat = Some b).
Proof.
  intros Hnd. unfold auto_match. split.
  - intros Hn. by rewrite (proj2 (Nat.ltb_lt _ _) Hn).
  - intros Hn. rewrite (proj2 (Nat.ltb_ge _ _) Hn). eexists. split; [done|].
    split; [by rewrite length_map, length_seq|].
    intros i a b Hi. rewrite list_lookup_fmap in Hi.
    destruct (seq 0 num_matches !! i) as [k|] eqn:Ek; [|done].
    apply lookup_seq in Ek as [-> _]. cbn in Hi. unfold matchup in Hi.
    pose proof (succ_mod_ne (length agents) i Hn) as Hne.
    rewrite (proj2 (Nat.eqb_neq _ _)) in Hi by lia. injection Hi as <- <-.
    assert (Ha : (i mod length agents < length agents)%nat)
      by (apply Nat.mod_upper_bound; lia).
    assert (Hb : ((i + 1) mod length agents < length agents)%nat)
      by (apply Nat.mod_upper_bound; lia).
    destruct (lookup_lt_is_Some_2 _ _ Ha) as [a Ea].
    destruct (lookup_lt_is_Some_2 _ _ Hb) as [b Eb].
    rewrite (nth_lookup_Some _ _ _ _ Ea), (nth_lookup_Some _ _ _ _ Eb).
    split; [|done]. intros ->. apply Hne. by eapply NoDup_lookup.
Qed.

Lemma auto_match_never_pairs_an_agent_with_itself_witness :
  auto_match ["A"; "B"; "C"]%string 4
  = Some [("A", "B"); ("B", "C"); ("C", "A"); ("A", "B")]%string /\
  auto_match ["A"]%string 4 = None /\
  exists matches a b,
    auto_match ["A"; "B"; "C"]%string 4 = Some matches /\
    matches !! 2%nat = Some (a, b) /\ a <> b.
Proof.
  assert (Hnd : NoDup ["A"; "B"; "C"]%string) by (apply (bool_decide_unpack _); by vm_compute).
  destruct (auto_match_never_pairs_an_agent_with_itself ["A"; "B"; "C"]%string 4 Hnd)
    as [_ H].
  destruct (H ltac:(simpl; lia)) as (matches & Em & _ & Hall).
  split; [reflexivity|]. split; [reflexivity|].
  exists matches, "C"%string, "A"%string. split; [exact Em|].
  assert (E2 : matches !! 2%nat = Some ("C", "A")%string).
  { vm_compute in Em. injection Em as <-. reflexivity. }
  split; [exact E2|]. exact (proj1 (Hall 2%nat _ _ E2)).
Defined.

Lemma elem_of_round_robin agents a b :
  (a, b) ∈ round_robin agents <->
  exists i j, (i < j)%nat /\ agents !! i = Some a /\ agents !! j = Some b.
Proof.
  unfold round_robin. rewrite list_elem_of_bind. split.
  - intros (i & Hj & Hi). apply elem_of_seq in Hi.
    apply list_elem_of_bind in Hj as (j & Hab & Hj). apply elem_of_seq in Hj.
    apply list_elem_of_singleton in Hab. injection Hab as -> ->.
    exists i, j. split; [lia|].
    assert (Hi' : (i < length agents)%nat) by lia.
    assert (Hj' : (j < length agents)%nat) by lia.
    destruct (lookup_lt_is_Some_2 _ _ Hi') as [a Ea].
    destruct (lookup_lt_is_Some_2 _ _ Hj') as [b Eb].
    by rewrite (nth_lookup_Some _ _ _ _ Ea), (nth_lookup_Some _ _ _ _ Eb).
  - intros (i & j & Hij & Ea & Eb).
    pose proof (lookup_lt_Some _ _ _ Ea). pose proof (lookup_lt_Some _ _ _ Eb).
    exists i. split; [|apply elem_of_seq; lia].
    apply list_elem_of_bind. exists j. split; [|apply elem_of_seq; lia].
    rewrite (nth_lookup_Some _ _ _ _ Ea), (nth_lookup_Some _ _ _ _ Eb).
    by apply list_elem_of_singleton.
Qed.

Lemma length_round_robin_upto (agents : list string) (m : nat) :
  (m <= length agents)%nat ->
  (2 * length (i ← seq 0 m;
               j ← seq (i + 1) (length agents - (i + 1));
               [(nth i agents ""%string, nth j agents ""%string)])
   = m * (2 * length agents - m - 1))%nat.
Proof.
  induction m as [|m IH]; intros Hm; [done|].
  rewrite seq_S, bind_app, length_app. cbn [plus seq mbind list_bind].
  rewrite app_nil_r.
  assert (E : forall (i : nat) (l : list nat),
            length (l ≫= fun j => [(nth i agents ""%string, nth j agents ""%string)])
            = length l).
  { intros i l. induction l as [|x l IHl]; [done|]. by rewrite bind_cons, length_app, IHl. }
  rewrite E, length_seq. specialize (IH ltac:(lia)). nia.
Qed.

(** X26: [round_robin] over n agents (distinct dictionary keys) asks for each
    pair of agents at positions i < j, once: n * (n - 1) / 2 matches, no two
    the same, none of an agent against itself, and for two different agents
    exactly one of the two orientations. *)
Theorem round_robin_plays_every_pair_once agents :
  NoDup agents ->
  (forall a b, (a, b) ∈ round_robin agents <->
     exists i j, (i < j)%nat /\ agents !! i = Some a /\ agents !! j = Some b) /\
  NoDup (round_robin agents) /\
  (2 * length (round_robin agents) = length agents * (length agents - 1))%nat /\
  (forall a, (a, a) ∉ round_robin agents) /\
  (forall a b, a ∈ agents -> b ∈ agents -> a <> b ->
     ((a, b) ∈ round_robin agents \/ (b, a) ∈ round_robin agents) /\
     ~ ((a, b) ∈ round_robin agents /\ (b, a) ∈ round_robin agents)).
Proof.
  intros Hnd. split; [apply elem_of_round_robin|]. split; [|split; [|split]].
  - unfold round_robin. apply NoDup_bind.
    + intros i1 i2 [a b] _ _ H1 H2.
      apply list_elem_of_bind in H1 as (j1 & H1 & Hj1). apply elem_of_seq in Hj1.
      apply list_elem_of_bind in H2 as (j2 & H2 & Hj2). apply elem_of_seq in Hj2.
      apply list_elem_of_singleton in H1, H2. injection H1 as Ha1 Hb1. injection H2 as Ha2 _.
      assert (Hi1 : (i1 < length agents)%nat) by lia.
      assert (Hi2 : (i2 < length agents)%nat) by lia.
      destruct (lookup_lt_is_Some_2 _ _ Hi1) as [a1 E1].
      destruct (lookup_lt_is_Some_2 _ _ Hi2) as [a2 E2].
      rewrite (nth_lookup_Some _ _ _ _ E1) in Ha1.
      rewrite (nth_lookup_Some _ _ _ _ E2) in Ha2. subst.
      by eapply NoDup_lookup.
    + intros i Hi. apply elem_of_seq in Hi. apply NoDup_bind.
      * intros j1 j2 [a b] Hj1 Hj2 H1 H2. apply elem_of_seq in Hj1, Hj2.
        apply list_elem_of_singleton in H1, H2.
        injection H1 as _ Hb1. injection H2 as _ Hb2.
        assert (Hj1' : (j1 < length agents)%nat) by lia.
        assert (Hj2' : (j2 < length agents)%nat) by lia.
        destruct (lookup_lt_is_Some_2 _ _ Hj1') as [b1 E1].
        destruct (lookup_lt_is_Some_2 _ _ Hj2') as [b2 E2].
        rewrite (nth_lookup_Some _ _ _ _ E1) in Hb1.
        rewrite (nth_lookup_Some _ _ _ _ E2) in Hb2. subst.
        by eapply NoDup_lookup.
      * intros j Hj. apply elem_of_seq in Hj. apply NoDup_singleton.
      * apply NoDup_seq.
    + apply NoDup_seq.
  - unfold round_robin. rewrite (length_round_robin_upto agents (length agents)) by lia.
    destruct (length agents); [done|]. nia.
  - intros a Ha. apply elem_of_round_robin in Ha as (i & j & Hij & Ei & Ej).
    pose proof (NoDup_lookup _ _ _ _ Hnd Ei Ej). lia.
  - intros a b Ha Hb Hab.
    apply list_elem_of_lookup in Ha as [i Ei]. apply list_elem_of_lookup in Hb as [j Ej].
    rewrite !elem_of_round_robin. split.
    + destruct (Nat.lt_trichotomy i j) as [Hlt | [-> | Hgt]].
      * left. by exists i, j.
      * congruence.
      * right. by exists j, i.
    + intros [(i1 & j1 & H1 & Ea1 & Eb1) (i2 & j2 & H2 & Eb2 & Ea2)].
      pose proof (NoDup_lookup _ _ _ _ Hnd Ea1 Ea2).
      pose proof (NoDup_lookup _ _ _ _ Hnd Eb1 Eb2). lia.
Qed.

Lemma round_robin_plays_every_pair_once_witness :
  round_robin ["A"; "B"; "C"]%string = [("A", "B"); ("A", "C"); ("B", "C")]%string /\
  NoDup (round_robin ["A"; "B"; "C"]%string) /\
  ("C", "A")%string ∉ round_robin ["A"; "B"; "C"]%string.
Proof.
  assert (Hnd : NoDup ["A"; "B"; "C"]%string) by (apply (bool_decide_unpack _); by vm_compute).
  destruct (round_robin_plays_every_pair_once ["A"; "B"; "C"]%string Hnd)
    as (_ & Hn & _ & _ & Hp).
  split; [reflexivity|]. split; [exact Hn|].
  assert (HA : "A"%string ∈ ["A"; "B"; "C"]%string) by (apply (bool_decide_unpack _); by vm_compute).
  assert (HC : "C"%string ∈ ["A"; "B"; "C"]%string) by (apply (bool_decide_unpack _); by vm_compute).
  destruct (Hp "A"%string "C"%string HA HC ltac:(done)) as [_ Hno].
  intros Hca. apply Hno. split; [|exact Hca].
  apply (bool_decide_unpack _). by vm_compute.
Defined.

(** *** The bankrolls after a match *)

Lemma lookup_record agents addr wager won payout bankroll addr' :
  agents !! addr = Some bankroll ->
  record agents addr wager won payout !! addr'
  = if bool_decide (addr' = addr) then Some (record_result bankroll wager won payout)
    else agents !! addr'.
Proof.
  intros H. unfold record. rewrite H. case_bool_decide as E.
  - subst. by rewrite lookup_insert_eq.
  - by rewrite lookup_insert_ne.
Qed.

(** X27: [_update_agent_stats] records the match once in each player's bankroll
    and touches no other agent. For two different addresses, when the result
    names [agent_a] as winner its bankroll records a win paid
    2 * wager * 0.99 and [agent_b]'s a loss; any other winner makes [agent_b]
    the winner and [agent_a] the loser. When both addresses are the same
    agent, its one bankroll records the match twice, a win and then a loss:
    two more games and one more win. *)
Theorem update_agent_stats_records_the_match_twice agents agent_a agent_b winner wager
  bankroll_a bankroll_b :
  agents !! agent_a = Some bankroll_a ->
  agents !! agent_b = Some bankroll_b ->
  let payout := (wager * 2 * (99 # 100))%Q in
  let agents' := _update_agent_stats agents agent_a agent_b winner wager in
  (forall addr, addr <> agent_a -> addr <> agent_b -> agents' !! addr = agents !! addr) /\
  (agent_a <> agent_b ->
   agents' !! agent_a
   = Some (record_result bankroll_a wager (bool_decide (winner = agent_a))
             (if bool_decide (winner = agent_a) then payout else 0%Q)) /\
   agents' !! agent_b
   = Some (record_result bankroll_b wager (negb (bool_decide (winner = agent_a)))
             (if bool_decide (winner = agent_a) then 0%Q else payout))) /\
  (agent_a = agent_b ->
   agents' !! agent_a
   = Some (record_result (record_result bankroll_a wager true payout) wager false 0%Q) /\
   forall b', agents' !! agent_a = Some b' ->
     games_played b' = games_played bankroll_a + 2 /\ wins b' = wins bankroll_a + 1).
Proof.
  intros Ha Hb. cbv zeta. unfold _update_agent_stats.
  set (payout := (wager * 2 * (99 # 100))%Q).
  pose proof (fun addr => lookup_record agents agent_a wager true payout bankroll_a addr Ha)
    as Hwin_a.
  pose proof (fun addr => lookup_record agents agent_b wager true payout bankroll_b addr Hb)
    as Hwin_b.
  destruct (decide (agent_a = agent_b)) as [<-|Hne].
  - (* one agent under both addresses: a win, then a loss, on the same bankroll *)
    assert (bankroll_b = bankroll_a) as -> by congruence.
    set (m := record agents agent_a wager true payout) in *.
    assert (H1 : m !! agent_a = Some (record_result bankroll_a wager true payout))
      by (by rewrite Hwin_a, bool_decide_eq_true_2).
    pose proof (fun addr => lookup_record m agent_a wager false 0%Q _ addr H1) as Hlose.
    assert (E : (if bool_decide (winner = agent_a)
                 then record m agent_a wager false 0%Q
                 else record m agent_a wager false 0%Q)
                = record m agent_a wager false 0%Q) by (by destruct (bool_decide _)).
    rewrite E. split; [|split; [done|]].
    + intros addr Hn _. by rewrite Hlose, bool_decide_eq_false_2, Hwin_a,
        bool_decide_eq_false_2.
    + intros _. rewrite Hlose, bool_decide_eq_true_2 by done. split; [done|].
      intros b' [= <-]. cbn. lia.
  - split; [|split; [intros _|done]].
    + intros addr Hna Hnb. case_bool_decide.
      * assert (H1 : record agents agent_a wager true payout !! agent_b = Some bankroll_b)
          by (by rewrite Hwin_a, bool_decide_eq_false_2).
        rewrite (lookup_record _ _ _ _ _ _ addr H1), bool_decide_eq_false_2 by done.
        by rewrite Hwin_a, bool_decide_eq_false_2.
      * assert (H1 : record agents agent_b wager true payout !! agent_a = Some bankroll_a)
          by (by rewrite Hwin_b, bool_decide_eq_false_2).
        rewrite (lookup_record _ _ _ _ _ _ addr H1), bool_decide_eq_false_2 by done.
        by rewrite Hwin_b, bool_decide_eq_false_2.
    + case_bool_decide; cbn [negb].
      * assert (H1 : record agents agent_a wager true payout !! agent_b = Some bankroll_b)
          by (by rewrite Hwin_a, bool_decide_eq_false_2).
        rewrite !(lookup_record _ _ _ _ _ _ _ H1).
        rewrite bool_decide_eq_false_2, bool_decide_eq_true_2 by done.
        by rewrite Hwin_a, bool_decide_eq_true_2.
      * assert (H1 : record agents agent_b wager true payout !! agent_a = Some bankroll_a)
          by (by rewrite Hwin_b, bool_decide_eq_false_2).
        rewrite !(lookup_record _ _ _ _ _ _ _ H1).
        rewrite bool_decide_eq_true_2, bool_decide_eq_false_2 by done.
        by rewrite Hwin_b, bool_decide_eq_true_2.
Qed.

Lemma update_agent_stats_records_the_match_twice_witness :
  _update_agent_stats three_agents "A" "B" "A" (1 # 100) !! "B"%string
  = Some (record_result (new 1 "medium") (1 # 100) false 0%Q) /\
  exists b', _update_agent_stats three_agents "A" "A" "A" (1 # 100) !! "A"%string = Some b' /\
             games_played b' = 2 /\ wins b' = 1.
Proof.
  split.
  - destruct (update_agent_stats_records_the_match_twice three_agents "A" "B" "A" (1 # 100)
                (new 1 "medium") (new 1 "medium") eq_refl eq_refl) as (_ & Hne & _).
    exact (proj2 (Hne ltac:(done))).
  - destruct (update_agent_stats_records_the_match_twice three_agents "A" "A" "A" (1 # 100)
                (new 1 "medium") (new 1 "medium") eq_refl eq_refl) as (_ & _ & Heq).
    destruct (Heq eq_refl) as [E Hb]. eexists. split; [exact E|]. exact (Hb _ E).
Defined.

End Arena.

(** ** arena/tournament.py: single-elimination brackets *)

Module Tournament.

Import Py.
Local Open Scope nat_scope.

Record TournamentMatch := mkTournamentMatch {
  round_num : nat;
  match_index : nat;
  player_a : string;
  player_b : string;
  winner : string;
}.

Record TournamentBracket := mkTournamentBracket {
  players : list string;
  matches : list TournamentMatch;
  current_round : nat;
  bracket_winner : string;
  completed : bool;
}.

(** What [create_tournament] and [run_tournament] raise. *)
Inductive Error :=
  | NeedTwoToSixteenPlayers
  | PlayerCountNotPowerOfTwo
  | PlayerNotRegistered (addr : string)
  | IndexError
  | KeyError (addr : string)
  | MatchFailed.

(** [for i in range(0, len(l), 2)]: a match between [l[i]] and [l[i + 1]],
    numbered [i // 2]; [l[i + 1]] raises [IndexError] on a list of odd
    length. *)
Fixpoint pair_up (round_num index : nat) (l : list string)
  : Error + list TournamentMatch :=
  match l with
  | [] => inr []
  | [_] => inl IndexError
  | a :: b :: rest =>
      match pair_up round_num (S index) rest with
      | inl e => inl e
      | inr ms => inr (mkTournamentMatch round_num index a b "" :: ms)
      end
  end.

(** [create_tournament(name, game_type, entry_fee, player_addresses)];
    [registered] is [addr in self.arena.agents]. *)
Definition create_tournament (registered : string -> bool) (player_addresses : list string)
  : Error + TournamentBracket :=
  let n := Z.of_nat (length player_addresses) in
  if ((n <? 2) || (16 <? n))%Z then inl NeedTwoToSixteenPlayers
  else if negb (Z.land n (n - 1) =? 0)%Z then inl PlayerCountNotPowerOfTwo
  else
    match List.find (fun addr => negb (registered addr)) player_addresses with
    | Some addr => inl (PlayerNotRegistered addr)
    | None =>
        match pair_up 1 0 player_addresses with
        | inl e => inl e
        | inr ms => inr (mkTournamentBracket player_addresses ms 1 "" false)
        end
    end.

(** The matches of round [r] are played in the order of [bracket.matches]
    and their [winner] is written into the match objects of that list.
    [self.arena.agents[...]] is read for both players before the match and
    for the winner after it ([KeyError] for an address that is not
    registered); [run_match] gives the winner of a match, [None] when it
    raises. Returns the list after the round and the winners in order. *)
Fixpoint play_round (registered : string -> bool)
  (run_match : TournamentMatch -> option string) (r : nat)
  (ms : list TournamentMatch) : Error + list TournamentMatch * list string :=
  match ms with
  | [] => inr ([], [])
  | m :: rest =>
      if round_num m =? r then
        if negb (registered (player_a m)) then inl (KeyError (player_a m))
        else if negb (registered (player_b m)) then inl (KeyError (player_b m))
        else
          match run_match m with
          | None => inl MatchFailed
          | Some w =>
              if negb (registered w) then inl (KeyError w)
              else
                match play_round registered run_match r rest with
                | inl e => inl e
                | inr (rest', winners) =>
                    inr (mkTournamentMatch (round_num m) (match_index m) (player_a m)
                           (player_b m) w :: rest', w :: winners)
                end
          end
      else
        match play_round registered run_match r rest with
        | inl e => inl e
        | inr (rest', winners) => inr (m :: rest', winners)
        end
  end.

(** The body of [for round_num in range(1, total_rounds + 1)]. *)
Definition run_round (registered : string -> bool)
  (run_match : TournamentMatch -> option string) (r : nat)
  (bracket : TournamentBracket) : Error + TournamentBracket :=
  match play_round registered run_match r (matches bracket) with
  | inl e => inl e
  | inr (ms, winners) =>
      if 1 <? length winners then
        match pair_up (r + 1) 0 winners with
        | inl e => inl e
        | inr next =>
            inr (mkTournamentBracket (players bracket) (ms ++ next) r
                   (bracket_winner bracket) (completed bracket))
        end
      else if length winners =? 1 then
        inr (mkTournamentBracket (players bracket) ms r (nth 0 winners ""%string) true)
      else
        inr (mkTournamentBracket (players bracket) ms r
               (bracket_winner bracket) (completed bracket))
  end.

Fixpoint run_rounds (registered : string -> bool)
  (run_match : TournamentMatch -> option string) (rounds : list nat)
  (bracket : TournamentBracket) : Error + TournamentBracket :=
  match rounds with
  | [] => inr bracket
  | r :: rest =>
      match run_round registered run_match r bracket with
      | inl e => inl e
      | inr bracket => run_rounds registered run_match rest bracket
      end
  end.

(** [run_tournament()], off-chain: [total_rounds = int(math.log2(n))], the
    rounds, then [self.arena.agents[bracket.winner]]. *)
Definition run_tournament (registered : string -> bool)
  (run_match : TournamentMatch -> option string) (bracket : TournamentBracket)
  : Error + TournamentBracket :=
  let total_rounds := Nat.log2 (length (players bracket)) in
  match run_rounds registered run_match (seq 1 total_rounds) bracket with
  | inl e => inl e
  | inr bracket =>
      if registered (bracket_winner bracket) then inr bracket
      else inl (KeyError (bracket_winner bracket))
  end.

(** A match that was played and won by one of its two players. *)
Definition decided (m : TournamentMatch) : Prop :=
  winner m = player_a m \/ winner m = player_b m.

(** The bracket at the start of round [r] of [k]: the matches of the
    earlier rounds are decided, those of round [r] are still to play. *)
Definition at_round (P : list string) (k r : nat) (b : TournamentBracket) : Prop :=
  exists old cur,
    matches b = old ++ cur /\
    Forall (fun m => round_num m < r /\ decided m /\ player_a m ∈ P /\ player_b m ∈ P) old /\
    Forall (fun m => round_num m = r /\ player_a m ∈ P /\ player_b m ∈ P) cur /\
    length cur = 2 ^ (k - r) /\
    length old + 2 * length cur = 2 ^ k.

(** The bracket after the last round. *)
Definition finished (P : list string) (k : nat) (b : TournamentBracket) : Prop :=
  completed b = true /\ current_round b = k /\
  length (matches b) = 2 ^ k - 1 /\
  Forall (fun m => decided m /\ player_a m ∈ P /\ player_b m ∈ P) (matches b) /\
  (exists m, last (matches b) = Some m /\ bracket_winner b = winner m /\ round_num m = k) /\
  bracket_winner b ∈ P.

(** *** Properties *)

Lemma pair_up_even r : forall (m index : nat) (l : list string),
  length l = 2 * m ->
  exists ms, pair_up r index l = inr ms /\ length ms = m /\
    Forall (fun mt => round_num mt = r /\ player_a mt ∈ l /\ player_b mt ∈ l) ms /\
    forall i mt, ms !! i = Some mt ->
      match_index mt = index + i /\
      l !! (2 * i) = Some (player_a mt) /\ l !! (2 * i + 1) = Some (player_b mt) /\
      winner mt = ""%string.
Proof.
  induction m as [|m IH]; intros index l Hl.
  - destruct l; [|done]. exists []. repeat split; [constructor | done..].
  - destruct l as [|a [|b rest]]; [done | simpl in Hl; lia |].
    destruct (IH (S index) rest) as (ms & E & Hlen & Hall & Hidx); [simpl in Hl; lia|].
    cbn [pair_up]. rewrite E. eexists. split; [done|]. split; [simpl; lia|]. split.
    + constructor.
      * cbn. rewrite !elem_of_cons. split; [done|]. split; [by left | right; by left].
      * eapply Forall_impl; [exact Hall|]. intros mt (? & ? & ?).
        rewrite !elem_of_cons. split; [done|]. split; right; by right.
    + intros [|i] mt Hmt.
      * injection Hmt as <-. cbn. split; [lia|]. done.
      * cbn in Hmt. destruct (Hidx i mt Hmt) as (? & ? & ? & ?).
        split; [lia|]. replace (2 * S i) with (S (S (2 * i))) by lia.
        replace (S (S (2 * i)) + 1) with (S (S (2 * i + 1))) by lia. done.
Qed.

Lemma play_round_spec registered run_match r :
  (forall m, exists w, run_match m = Some w /\ (w = player_a m \/ w = player_b m)) ->
  forall old cur,
    Forall (fun m => round_num m <> r) old ->
    Forall (fun m => round_num m = r /\ registered (player_a m) = true /\
                     registered (player_b m) = true) cur ->
    exists cur',
      play_round registered run_match r (old ++ cur) = inr (old ++ cur', map winner cur') /\
      Forall2 (fun m m' => round_num m' = round_num m /\ match_index m' = match_index m /\
                           player_a m' = player_a m /\ player_b m' = player_b m /\
                           run_match m = Some (winner m') /\ decided m') cur cur'.
Proof.
  intros Hrun old cur Hold Hcur. induction Hold as [|m old Hm _ IH].
  - cbn [app]. induction Hcur as [|m cur (Hm & Ha & Hb) _ IH].
    + exists []. split; [done | constructor].
    + destruct IH as (cur' & E & H2). destruct (Hrun m) as (w & Ew & Hw).
      assert (Hrw : registered w = true) by (by destruct Hw as [-> | ->]).
      cbn [play_round]. rewrite (proj2 (Nat.eqb_eq _ _) Hm), Ha, Hb, Ew, Hrw, E.
      cbn [negb].
      exists (mkTournamentMatch (round_num m) (match_index m) (player_a m) (player_b m) w
                :: cur').
      split; [done|]. constructor; [|done]. cbn. done.
  - destruct IH as (cur' & E & H2). exists cur'. split; [|done].
    cbn [app play_round]. rewrite (proj2 (Nat.eqb_neq _ _) Hm), E. done.
Qed.

Lemma run_round_step registered run_match P k r b :
  (forall m, exists w, run_match m = Some w /\ (w = player_a m \/ w = player_b m)) ->
  (forall addr, addr ∈ P -> registered addr = true) ->
  1 <= r <= k ->
  at_round P k r b ->
  exists b', run_round registered run_match r b = inr b' /\ players b' = players b /\
    (r < k -> at_round P k (r + 1) b') /\
    (r = k -> finished P k b').
Proof.
  intros Hrun Hreg Hr (old & cur & Em & Hold & Hcur & Hlen & Htot).
  destruct (play_round_spec registered run_match r Hrun old cur) as (cur' & Ep & H2).
  { eapply Forall_impl; [exact Hold|]. intros m (? & _). lia. }
  { eapply Forall_impl; [exact Hcur|]. intros m (? & ? & ?). split; [done|]. split; by apply Hreg. }
  assert (Hlen' : length cur' = length cur) by (symmetry; by eapply Forall2_length).
  assert (Hcur' : Forall (fun m => round_num m = r /\ decided m /\
                            player_a m ∈ P /\ player_b m ∈ P) cur').
  { clear -H2 Hcur. induction H2 as [|m m' cur cur' (E1 & _ & E3 & E4 & _ & Hd) _ IH];
      [constructor|].
    apply Forall_cons in Hcur as [(? & ? & ?) Hcur].
    constructor; [|by apply IH]. rewrite E1, E3, E4. done. }
  assert (Hws : Forall (fun w => w ∈ P) (map winner cur')).
  { apply Forall_map. eapply Forall_impl; [exact Hcur'|].
    intros m (_ & [-> | ->] & ? & ?); done. }
  unfold run_round. rewrite Em, Ep, length_map, Hlen', Hlen.
  destruct (decide (r = k)) as [->|Hne].
  - (* the final *)
    rewrite Nat.sub_diag in *. cbn [Nat.pow] in *.
    change (1 <? 1) with false. change (1 =? 1) with true. cbv iota.
    eexists. split; [reflexivity|]. split; [reflexivity|]. split; [intros; lia|]. intros _.
    destruct cur' as [|m [|? ?]]; [simpl in Hlen'; lia | | simpl in Hlen'; lia].
    unfold finished. cbn [completed current_round matches bracket_winner map nth].
    split; [done|]. split; [done|]. split; [rewrite length_app; simpl; lia|].
    apply Forall_singleton in Hcur' as (Hrm & Hd & Ha & Hb).
    split.
    { apply Forall_app. split.
      - eapply Forall_impl; [exact Hold|]. by intros ? (_ & ? & ? & ?).
      - by apply Forall_singleton. }
    split; [exists m; by rewrite last_snoc|].
    by destruct Hd as [-> | ->].
  - assert (Hd : k - r = S (k - (r + 1))) by lia.
    rewrite Hd in *. rewrite Nat.pow_succ_r' in *.
    assert (Hgt : 1 < 2 * 2 ^ (k - (r + 1))).
    { pose proof (Nat.pow_nonzero 2 (k - (r + 1))). lia. }
    rewrite (proj2 (Nat.ltb_lt _ _) Hgt).
    destruct (pair_up_even (r + 1) (2 ^ (k - (r + 1))) 0 (map winner cur'))
      as (next & En & Hnl & Hnext & _).
    { rewrite length_map. lia. }
    rewrite En. eexists. split; [reflexivity|]. split; [reflexivity|]. split; [|intros; lia]. intros _.
    exists (old ++ cur'), next. cbn [matches].
    split; [reflexivity|]. split.
    { apply Forall_app. split.
      - eapply Forall_impl; [exact Hold|]. intros ? (? & ? & ? & ?). split; [lia|done].
      - eapply Forall_impl; [exact Hcur'|]. intros ? (? & ? & ? & ?). split; [lia|done]. }
    split.
    { eapply Forall_impl; [exact Hnext|]. intros mt (? & Ha & Hb). split; [done|].
      rewrite Forall_forall in Hws. split; by apply Hws. }
    split; [done|]. rewrite length_app. lia.
Qed.

Lemma run_rounds_finish registered run_match P k :
  (forall m, exists w, run_match m = Some w /\ (w = player_a m \/ w = player_b m)) ->
  (forall addr, addr ∈ P -> registered addr = true) ->
  forall d r b,
    1 <= r -> r + d = k ->
    at_round P k r b ->
    exists b', run_rounds registered run_match (seq r (S d)) b = inr b' /\
      players b' = players b /\ finished P k b'.
Proof.
  intros Hrun Hreg. induction d as [|d IH]; intros r b Hr Hk Hat.
  - destruct (run_round_step registered run_match P k r b Hrun Hreg ltac:(lia) Hat)
      as (b' & E & Hp & _ & Hfin).
    cbn [seq run_rounds]. rewrite E. exists b'. split; [done|]. split; [done|].
    apply Hfin. lia.
  - destruct (run_round_step registered run_match P k r b Hrun Hreg ltac:(lia) Hat)
      as (b' & E & Hp & Hnext & _).
    destruct (IH (S r) b') as (b'' & E' & Hp' & Hfin); [lia | lia | |].
    { replace (S r) with (r + 1) by lia. apply Hnext. lia. }
    cbn [seq run_rounds]. rewrite E. exists b''. split; [exact E'|].
    split; [congruence | done].
Qed.

Lemma power_of_two_check (n : nat) :
  (2 <= n <= 16) -> Z.land (Z.of_nat n) (Z.of_nat n - 1) = 0%Z ->
  exists k, 1 <= k <= 4 /\ n = 2 ^ k /\ Nat.log2 n = k.
Proof.
  intros Hn Hland.
  assert (Hcases : n = 2 \/ n = 3 \/ n = 4 \/ n = 5 \/ n = 6 \/ n = 7 \/ n = 8 \/ n = 9 \/
                   n = 10 \/ n = 11 \/ n = 12 \/ n = 13 \/ n = 14 \/ n = 15 \/ n = 16)
    by lia.
  repeat (destruct Hcases as [-> | Hcases]); subst;
    try (vm_compute in Hland; discriminate Hland);
    [exists 1 | exists 2 | exists 3 | exists 4]; (split; [lia|]); split; reflexivity.
Qed.

Lemma find_none_elem {A} (f : A -> bool) (l : list A) :
  List.find f l = None -> forall x, x ∈ l -> f x = false.
Proof.
  intros H x Hx. apply list_elem_of_In in Hx. by eapply find_none.
Qed.

Lemma create_tournament_inr registered player_addresses bracket :
  create_tournament registered player_addresses = inr bracket ->
  exists k, 1 <= k <= 4 /\ length player_addresses = 2 ^ k /\
    Nat.log2 (length player_addresses) = k /\
    (forall addr, addr ∈ player_addresses -> registered addr = true) /\
    players bracket = player_addresses /\
    pair_up 1 0 player_addresses = inr (matches bracket) /\
    current_round bracket = 1 /\ completed bracket = false /\
    bracket_winner bracket = ""%string.
Proof.
  unfold create_tournament. intros H.
  destruct (_ || _)%Z eqn:Erange; [done|].
  destruct (negb _) eqn:Eland; [done|].
  destruct (List.find _ _) eqn:Efind; [done|].
  destruct (pair_up 1 0 player_addresses) as [|ms] eqn:Epair; [done|].
  injection H as <-.
  apply orb_false_iff in Erange as [E1 E2].
  apply Z.ltb_ge in E1, E2. apply negb_false_iff, Z.eqb_eq in Eland.
  destruct (power_of_two_check (length player_addresses) ltac:(lia) Eland)
    as (k & Hk & En & El).
  exists k. split; [done|]. split; [done|]. split; [done|]. split; [|done].
  intros addr Hin. pose proof (find_none_elem _ _ Efind addr Hin) as Hf. simpl in Hf.
  by apply negb_false_iff in Hf.
Qed.

(** X28: [create_tournament] returns a bracket exactly when the number of
    players is 2, 4, 8 or 16 and every player is registered. The bracket keeps
    the players and holds the first round only: match i, of round 1, still
    without a winner, between players 2i and 2i + 1. *)
Theorem create_tournament_takes_two_four_eight_or_sixteen registered player_addresses :
  (is_Some (match create_tournament registered player_addresses with
            | inr bracket => Some bracket | inl _ => None end) <->
   length player_addresses ∈ [2; 4; 8; 16] /\
   forall addr, addr ∈ player_addresses -> registered addr = true) /\
  forall bracket, create_tournament registered player_addresses = inr bracket ->
    players bracket = player_addresses /\
    2 * length (matches bracket) = length player_addresses /\
    forall i m, matches bracket !! i = Some m ->
      round_num m = 1 /\ match_index m = i /\ winner m = ""%string /\
      player_addresses !! (2 * i) = Some (player_a m) /\
      player_addresses !! (2 * i + 1) = Some (player_b m).
Proof.
  split.
  - split.
    + destruct (create_tournament registered player_addresses) as [|bracket] eqn:E;
        [by intros [? ?]|]. intros _.
      apply create_tournament_inr in E as (k & Hk & En & _ & Hreg & _).
      split; [|done]. rewrite En.
      assert (k = 1 \/ k = 2 \/ k = 3 \/ k = 4) as [-> | [-> | [-> | ->]]] by lia;
        apply (bool_decide_unpack _); by vm_compute.
    + intros [Hn Hreg]. unfold create_tournament.
      assert (Hfind : List.find (fun addr => negb (registered addr)) player_addresses = None).
      { destruct (List.find _ _) as [addr|] eqn:Ef; [|done].
        apply find_some in Ef as [Hin Hf]. apply list_elem_of_In in Hin.
        rewrite (Hreg addr Hin) in Hf. done. }
      rewrite Hfind.
      assert (exists m, length player_addresses = 2 * m) as [m Hm].
      { rewrite !elem_of_cons, elem_of_nil in Hn.
        destruct Hn as [-> | [-> | [-> | [-> | []]]]];
          [by exists 1 | by exists 2 | by exists 4 | by exists 8]. }
      destruct (pair_up_even 1 m 0 player_addresses Hm) as (ms & -> & _).
      rewrite !elem_of_cons, elem_of_nil in Hn.
      destruct Hn as [-> | [-> | [-> | [-> | []]]]]; by eexists.
  - intros bracket E.
    apply create_tournament_inr in E as (k & Hk & En & _ & _ & Hp & Epair & _).
    split; [done|].
    assert (Hm : length player_addresses = 2 * 2 ^ (k - 1)).
    { rewrite En. destruct k; [lia|]. rewrite Nat.pow_succ_r'. do 2 f_equal. lia. }
    destruct (pair_up_even 1 (2 ^ (k - 1)) 0 player_addresses Hm)
      as (ms & E' & Hlen & Hall & Hidx).
    rewrite Epair in E'. injection E' as <-.
    split; [lia|]. intros i m Hi.
    destruct (Hidx i m Hi) as (? & ? & ? & ?).
    rewrite Forall_forall in Hall.
    destruct (Hall m) as (? & _); [by eapply list_elem_of_lookup_2|]. done.
Qed.

(** X29: on a bracket [create_tournament] returned, when every match returns one
    of its two players as winner, [run_tournament] completes: it plays log2(n)
    rounds and n - 1 matches in all, each between two of the players and won
    by one of its two, and the bracket's winner is the winner of the last
    match, the only one of the last round, and is one of the players. *)
Theorem tournament_crowns_one_of_its_players registered run_match player_addresses bracket :
  create_tournament registered player_addresses = inr bracket ->
  (forall m, exists w, run_match m = Some w /\ (w = player_a m \/ w = player_b m)) ->
  exists final,
    run_tournament registered run_match bracket = inr final /\
    completed final = true /\
    current_round final = Nat.log2 (length player_addresses) /\
    length (matches final) = length player_addresses - 1 /\
    Forall (fun m => decided m /\ player_a m ∈ player_addresses /\
                     player_b m ∈ player_addresses) (matches final) /\
    (exists m, last (matches final) = Some m /\ bracket_winner final = winner m /\
               round_num m = Nat.log2 (length player_addresses)) /\
    bracket_winner final ∈ player_addresses.
Proof.
  intros Hc Hrun.
  apply create_tournament_inr in Hc
    as (k & Hk & En & El & Hreg & Hp & Epair & _).
  assert (Hm : length player_addresses = 2 * 2 ^ (k - 1)).
  { rewrite En. destruct k; [lia|]. rewrite Nat.pow_succ_r'. do 2 f_equal. lia. }
  destruct (pair_up_even 1 (2 ^ (k - 1)) 0 player_addresses Hm)
    as (ms & E' & Hlen & Hall & _).
  rewrite Epair in E'. injection E' as E'.
  assert (Hat : at_round player_addresses k 1 bracket).
  { exists [], (matches bracket). split; [done|]. split; [constructor|].
    rewrite E'. split; [done|]. split; [done|]. simpl. lia. }
  destruct (run_rounds_finish registered run_match player_addresses k Hrun Hreg (k - 1) 1
              bracket ltac:(lia) ltac:(lia) Hat) as (final & Er & Hpl & Hfin).
  unfold run_tournament. rewrite Hp, El.
  replace (seq 1 k) with (seq 1 (S (k - 1))) by (f_equal; lia).
  rewrite Er.
  destruct Hfin as (Hcomp & Hcur & Hlenf & Hdec & Hlast & Hin).
  rewrite (Hreg _ Hin). exists final. split; [done|]. split; [done|].
  split; [done|]. rewrite En. done.
Qed.

Lemma tournament_crowns_one_of_its_players_witness :
  exists final,
    run_tournament (fun _ => true) (fun m => Some (player_a m))
      (mkTournamentBracket ["A"; "B"; "C"; "D"]%string
         [mkTournamentMatch 1 0 "A" "B" ""; mkTournamentMatch 1 1 "C" "D" ""] 1 "" false)
    = inr final /\
    completed final = true /\ length (matches final) = 3 /\
    bracket_winner final ∈ ["A"; "B"; "C"; "D"]%string.
Proof.
  destruct (tournament_crowns_one_of_its_players (fun _ => true)
              (fun m => Some (player_a m)) ["A"; "B"; "C"; "D"]%string _ eq_refl)
    as (final & E & Hc & _ & Hl & _ & _ & Hw).
  { intros m. exists (player_a m). split; [reflexivity | by left]. }
  exists final. split; [exact E|]. split; [exact Hc|]. split; [exact Hl | exact Hw].
Defined.

End Tournament.
